(** * AI-studio: extraction of file artifacts from a streamed answer and the
      views derived from them.

    Shallow embedding of
      - [src/utils/fileParser.ts]      ([parseFilesFromResponse]),
      - [src/App.tsx]                  (the [onUpdate] callback and the end of
                                        [handleRun]),
      - [src/services/geminiService.ts] (the chunk loop of
                                        [streamGeminiResponse]),
      - [src/unnamed/part_001], the project panel that [App.tsx] imports
        as [components/ProjectPanel]   ([buildFileTree], [sortNodes]).

    A JavaScript string is modelled as the list of its code units, taken in
    the 8-bit range (Latin-1): [str := list ascii].  On that range the class
    [\s] is exactly {9,10,11,12,13,32,160} and [toLowerCase] shifts A-Z and
    the accented capitals 192-222 (215 excepted) by 32. *)

From Stdlib Require Import Ascii String.
From Stdlib Require Import List Bool Arith Lia ZArith Sorted Permutation.
Import ListNotations.

Set Implicit Arguments.
Set Warnings "-register-all".

(* ================================================================= *)
(** ** Strings *)

Definition str := list ascii.

Definition lit (s : string) : str := list_ascii_of_string s.

Definition dq : ascii := "034"%char.   (* the double quote *)
Definition sq : ascii := "'"%char.     (* the single quote *)
Definition nl : ascii := "010"%char.   (* line feed *)

Fixpoint str_eqb (a b : str) : bool :=
  match a, b with
  | [], [] => true
  | x :: a', y :: b' => Ascii.eqb x y && str_eqb a' b'
  | _, _ => false
  end.

(** [s.startsWith(p)] *)
Fixpoint startsWith (p s : str) : bool :=
  match p, s with
  | [], _ => true
  | x :: p', y :: s' => Ascii.eqb x y && startsWith p' s'
  | _ :: _, [] => false
  end.

(** What is left of [s] after the literal [p], when [s] starts with it. *)
Fixpoint strip_prefix (p s : str) : option str :=
  match p, s with
  | [], _ => Some s
  | x :: p', y :: s' => if Ascii.eqb x y then strip_prefix p' s' else None
  | _ :: _, [] => None
  end.

(** [s.includes(p)]: [p] occurs somewhere in [s]. *)
Fixpoint contains (p s : str) : bool :=
  startsWith p s ||
  match s with
  | [] => false
  | _ :: s' => contains p s'
  end.

(** [s.split(sep)] for a one-character separator: never empty. *)
Fixpoint split (sep : ascii) (s : str) : list str :=
  match s with
  | [] => [[]]
  | c :: s' =>
      if Ascii.eqb c sep then [] :: split sep s'
      else match split sep s' with
           | h :: t => (c :: h) :: t
           | [] => [[c]]
           end
  end.

(** [arr.pop()] read as an expression: the last element, if any. *)
Definition pop (A : Type) (l : list A) : option A :=
  match rev l with
  | [] => None
  | x :: _ => Some x
  end.

(** [a || b] on strings: the empty string is falsy. *)
Definition or_default (a b : str) : str :=
  match a with [] => b | _ => a end.

Definition lower_char (c : ascii) : ascii :=
  let n := nat_of_ascii c in
  if ((65 <=? n) && (n <=? 90)) ||
     ((192 <=? n) && (n <=? 222) && negb (n =? 215))
  then ascii_of_nat (n + 32) else c.

Definition toLowerCase (s : str) : str := map lower_char s.

(** [arr.includes(x)] on an array of strings. *)
Definition includes (l : list str) (x : str) : bool :=
  existsb (str_eqb x) l.

(* ================================================================= *)
(** ** Regular expressions: the backtracking fragment [fileRegex] uses *)

(** Character classes of the pattern. *)
Definition is_space (c : ascii) : bool :=
  let n := nat_of_ascii c in
  ((9 <=? n) && (n <=? 13)) || (n =? 32) || (n =? 160).

Definition is_quote (c : ascii) : bool :=
  Ascii.eqb c dq || Ascii.eqb c sq.

Definition not_quote (c : ascii) : bool := negb (is_quote c).

Definition any_char (c : ascii) : bool := true.

(** A pattern is a sequence of atoms: a literal, one character of a class, or
    a repetition of a class, greedy ([*], [+]) or lazy ([*?]), which may be a
    capture group. *)
Inductive atom : Type :=
| Lit (s : str)
| One (cls : ascii -> bool)
| Greedy (min : nat) (cls : ascii -> bool) (capture : bool)
| Lazy (cls : ascii -> bool) (capture : bool).

Definition pattern := list atom.

Section Backtracking.
Variable R : Type.
Variable cls : ascii -> bool.
(** The continuation gets what the repetition consumed and what is left. *)
Variable k : str -> str -> option R.

(** Greedy: take one more character first, fall back to stopping here. *)
Fixpoint greedy (s acc : str) : option R :=
  match s with
  | c :: s' =>
      if cls c then
        match greedy s' (acc ++ [c]) with
        | Some r => Some r
        | None => k acc s
        end
      else k acc s
  | [] => k acc s
  end.

(** Lazy: stop here first, fall back to taking one more character. *)
Fixpoint lazy (s acc : str) : option R :=
  match k acc s with
  | Some r => Some r
  | None =>
      match s with
      | c :: s' => if cls c then lazy s' (acc ++ [c]) else None
      | [] => None
      end
  end.
End Backtracking.

Definition push_capture (capture : bool) (caps : list str) (c : str) :=
  if capture then caps ++ [c] else caps.

(** [run p s caps]: match pattern [p] at the start of [s]; the result is the
    capture groups in order and the text after the match. *)
Fixpoint run (p : pattern) (s : str) (caps : list str)
  : option (list str * str) :=
  match p with
  | [] => Some (caps, s)
  | Lit l :: p' =>
      match strip_prefix l s with
      | Some s' => run p' s' caps
      | None => None
      end
  | One cls :: p' =>
      match s with
      | c :: s' => if cls c then run p' s' caps else None
      | [] => None
      end
  | Greedy min cls capture :: p' =>
      greedy cls
        (fun taken rest =>
           if min <=? length taken
           then run p' rest (push_capture capture caps taken)
           else None)
        s []
  | Lazy cls capture :: p' =>
      lazy cls
        (fun taken rest => run p' rest (push_capture capture caps taken))
        s []
  end.

(* ================================================================= *)
(** ** fileParser.ts *)

Definition OPEN_FILE : str := Eval cbv in lit "<file".
Definition PATH_EQ : str := Eval cbv in lit "path=".
Definition GT : str := Eval cbv in lit ">".
Definition CLOSE_FILE : str := Eval cbv in lit "</file>".

(** Line 11, the pattern [<file\s+path=Q([^Q]+)Q\s*>([\s\S]*?)<\/file>] with
    the flag [g], where Q stands for the class of the two quote characters
    (double and single). *)
Definition fileRegex : pattern :=
  [ Lit OPEN_FILE; Greedy 1 is_space false; Lit PATH_EQ;
    One is_quote; Greedy 1 not_quote true; One is_quote;
    Greedy 0 is_space false; Lit GT;
    Lazy any_char true; Lit CLOSE_FILE ].

(** A regular expression object with the [g] flag keeps [lastIndex]. *)
Record RegExp : Type := { lastIndex : nat }.

(** The result of a successful [exec]: [index], the capture groups, and the
    index just after the match. *)
Record Match : Type := { index : nat; groups : list str; endIndex : nat }.

(** Leftmost match in [s], which is the text from index [i] on. *)
Fixpoint search (p : pattern) (s : str) (i : nat) : option Match :=
  match run p s [] with
  | Some (caps, rest) =>
      Some {| index := i; groups := caps;
              endIndex := i + (length s - length rest) |}
  | None =>
      match s with
      | [] => None
      | _ :: s' => search p s' (S i)
      end
  end.

(** [re.exec(text)] for a global regular expression: search from
    [lastIndex]; a hit moves [lastIndex] after the match, a miss resets it. *)
Definition exec (p : pattern) (re : RegExp) (text : str)
  : option Match * RegExp :=
  match search p (skipn (lastIndex re) text) (lastIndex re) with
  | Some m => (Some m, {| lastIndex := endIndex m |})
  | None => (None, {| lastIndex := 0 |})
  end.

Record ProjectFile : Type :=
  { path : str; content : str; language : str }.

Definition JS_EXTS : list str :=
  Eval cbv in [lit "js"; lit "jsx"; lit "ts"; lit "tsx"].

(** Lines 22-28: the language of a path. *)
Definition language_of (p : str) : str :=
  let ext :=
    or_default
      (match pop (split "."%char p) with
       | Some e => toLowerCase e
       | None => []
       end)
      (lit "text") in
  if includes JS_EXTS ext then lit "javascript"
  else if includes [lit "html"] ext then lit "html"
  else if includes [lit "css"] ext then lit "css"
  else if includes [lit "json"] ext then lit "json"
  else if includes [lit "py"] ext then lit "python"
  else lit "text".

(** Line 19: [if (content.startsWith('\n')) content = content.substring(1)]. *)
Definition strip_newline (c : str) : str :=
  if startsWith [nl] c then skipn 1 c else c.

(** Lines 15-34: the record pushed for one match. *)
Definition file_of_match (m : Match) : ProjectFile :=
  let p := nth 0 (groups m) [] in
  let c := nth 1 (groups m) [] in
  {| path := p; content := strip_newline c; language := language_of p |}.

(** The [while ((match = fileRegex.exec(text)) !== null)] loop.  [None] is
    a loop that has not ended within [fuel] iterations. *)
Fixpoint exec_loop (fuel : nat) (re : RegExp) (text : str)
  (files : list ProjectFile) : option (list ProjectFile * RegExp) :=
  match fuel with
  | O => None
  | S fuel' =>
      match exec fileRegex re text with
      | (Some m, re') => exec_loop fuel' re' text (files ++ [file_of_match m])
      | (None, re') => Some (files, re')
      end
  end.

(** The regular expression literal is evaluated on every call, so the loop
    starts at [lastIndex = 0]. *)
Definition fresh_regex : RegExp := {| lastIndex := 0 |}.

Definition parseFilesFromResponse (text : str) : option (list ProjectFile) :=
  option_map fst (exec_loop (S (length text)) fresh_regex text []).

(* ================================================================= *)
(** ** App.tsx: the file store *)

(** A JavaScript [Map] keeps its keys in insertion order; [set] on a key
    that is present replaces the value where it stands. *)
Section JSMap.
Variable V : Type.

Definition JSMap := list (str * V).

Fixpoint map_set (k : str) (v : V) (m : JSMap) : JSMap :=
  match m with
  | [] => [(k, v)]
  | (k', v') :: m' =>
      if str_eqb k' k then (k, v) :: m'
      else (k', v') :: map_set k v m'
  end.

(** [new Map(entries)] *)
Definition new_Map (entries : list (str * V)) : JSMap :=
  fold_left (fun m kv => map_set (fst kv) (snd kv) m) entries [].

(** [Array.from(m.values())] *)
Definition map_values (m : JSMap) : list V := map snd m.

Fixpoint map_get (k : str) (m : JSMap) : option V :=
  match m with
  | [] => None
  | (k', v') :: m' => if str_eqb k' k then Some v' else map_get k m'
  end.
End JSMap.

(** Lines 420-426: the updater passed to [setFiles]. *)
Definition setFiles_update (parsedFiles prevFiles : list ProjectFile)
  : list ProjectFile :=
  let newMap := new_Map (map (fun f => (path f, f)) prevFiles) in
  let newMap :=
    fold_left (fun m f => map_set (path f) f m) parsedFiles newMap in
  map_values newMap.

(* ================================================================= *)
(** ** App.tsx: the flow graph *)

Inductive GraphNodeType : Type := user | model | tool | file.

Inductive NodeStatus : Type := active | complete | error.

Record NodeData : Type := { preview : str; fullContent : str }.

Record GraphNode : Type :=
  { id : str; type : GraphNodeType; label : str; subLabel : str;
    status : NodeStatus; x : Z; y : Z; data : NodeData }.

Record GraphEdge : Type :=
  { edge_id : str; source : str; target : str; animated : bool }.

Definition set_status (s : NodeStatus) (n : GraphNode) : GraphNode :=
  {| id := id n; type := type n; label := label n; subLabel := subLabel n;
     status := s; x := x n; y := y n; data := data n |}.

Definition set_data (d : NodeData) (n : GraphNode) : GraphNode :=
  {| id := id n; type := type n; label := label n; subLabel := subLabel n;
     status := status n; x := x n; y := y n; data := d |}.

Definition set_animated (a : bool) (e : GraphEdge) : GraphEdge :=
  {| edge_id := edge_id e; source := source e; target := target e;
     animated := a |}.

(** What the callback reads of the grounding metadata: the two strings made
    from it by number formatting and [JSON.stringify], host functions. *)
Record GroundingMetadata : Type :=
  { sources_preview : str; json_text : str }.

Record UsageMetadata : Type :=
  { promptTokenCount : nat; candidatesTokenCount : nat;
    totalTokenCount : nat }.

(** The argument of [onUpdate]; [now] is what [Date.now()] prints when the
    callback runs. *)
Record StreamUpdate : Type :=
  { text : str;
    groundingMetadata : option GroundingMetadata;
    usageMetadata : option UsageMetadata;
    now : str }.

(** The React state the callback writes, with the closure variable
    [toolNodeCreated].  The chat transcript ([setMessages]) is written too
    but nothing below reads it, and it is left out. *)
Record AppState : Type :=
  { files : list ProjectFile;
    nodes : list GraphNode;
    edges : list GraphEdge;
    toolNodeCreated : bool }.

(** The template [`file-${modelNodeId}-${file.path}`]. *)
Definition fileNodeId (modelNodeId p : str) : str :=
  lit "file-" ++ modelNodeId ++ lit "-" ++ p.

Definition edgeId (a b : str) : str := lit "e-" ++ a ++ lit "-" ++ b.

(** Lines 451-461: the updater passed to [setEdges] for a new file node. *)
Definition add_file_edge (modelNodeId fileNodeId : str)
  (prevEdges : list GraphEdge) : list GraphEdge :=
  match find (fun e => str_eqb (target e) fileNodeId) prevEdges with
  | None =>
      prevEdges ++
        [ {| edge_id := edgeId modelNodeId fileNodeId;
             source := modelNodeId; target := fileNodeId;
             animated := false |} ]
  | Some _ => prevEdges
  end.

(** Lines 432-471: the body of [parsedFiles.forEach] inside the updater
    passed to [setNodes].  It works on the copy [updatedNodes] and on
    [fileYOffset]; the [setEdges] updaters it queues run in order on the
    edges, which is the third component here.  In the branch of a node that
    exists, the array built by [updatedNodes.map] is dropped. *)
Definition file_node_step (modelNodeId : str) (startY : Z)
  (acc : list GraphNode * Z * list GraphEdge) (f : ProjectFile)
  : list GraphNode * Z * list GraphEdge :=
  let '(updatedNodes, fileYOffset, queuedEdges) := acc in
  let fid := fileNodeId modelNodeId (path f) in
  match find (fun n => str_eqb (id n) fid) updatedNodes with
  | None =>
      (updatedNodes ++
         [ {| id := fid; type := file;
              label :=
                or_default
                  (match pop (split "/"%char (path f)) with
                   | Some l => l
                   | None => []
                   end)
                  (lit "file");
              subLabel := lit "Artifact Generation";
              status := complete;
              x := 900%Z; y := (startY + fileYOffset)%Z;
              data := {| preview := language f;
                         fullContent := content f |} |} ],
       (fileYOffset + 150)%Z,
       add_file_edge modelNodeId fid queuedEdges)
  | Some _ =>
      let _dropped :=
        map (fun n =>
               if str_eqb (id n) fid
               then set_data {| preview := preview (data n);
                                fullContent := content f |} n
               else n)
            updatedNodes in
      (updatedNodes, fileYOffset, queuedEdges)
  end.

(** Lines 428-473: [setNodes] with the [setEdges] calls made inside it. *)
Definition setNodes_files (modelNodeId : str) (startY : Z)
  (parsedFiles : list ProjectFile)
  (currentNodes : list GraphNode) (currentEdges : list GraphEdge)
  : list GraphNode * list GraphEdge :=
  let '(updatedNodes, _, newEdges) :=
    fold_left (file_node_step modelNodeId startY) parsedFiles
              (currentNodes, 0%Z, currentEdges) in
  (updatedNodes, newEdges).

(** Lines 419-480: what the callback does with the parsed files. *)
Definition apply_parsed (modelNodeId : str) (startY : Z)
  (parsedFiles : list ProjectFile) (st : AppState) : AppState :=
  match parsedFiles with
  | [] => st
  | _ :: _ =>
      let '(ns, es) :=
        setNodes_files modelNodeId startY parsedFiles (nodes st) (edges st) in
      {| files := setFiles_update parsedFiles (files st);
         nodes := ns; edges := es;
         toolNodeCreated := toolNodeCreated st |}
  end.

(** Lines 381-389: the agent node shows the text so far. *)
Definition show_text (modelNodeId chunkText : str) (st : AppState)
  : AppState :=
  {| files := files st;
     nodes :=
       map (fun n =>
              if str_eqb (id n) modelNodeId
              then set_data {| preview := firstn 80 chunkText ++ lit "...";
                               fullContent := chunkText |} n
              else n)
           (nodes st);
     edges := edges st;
     toolNodeCreated := toolNodeCreated st |}.

(** Lines 391-416: the tool node, once per turn. *)
Definition show_grounding (modelNodeId : str) (startY : Z)
  (u : StreamUpdate) (st : AppState) : AppState :=
  match groundingMetadata u, toolNodeCreated st with
  | Some g, false =>
      let toolNodeId := lit "tool-" ++ now u in
      {| files := files st;
         nodes :=
           nodes st ++
             [ {| id := toolNodeId; type := tool;
                  label := lit "Google Search";
                  subLabel := lit "Grounding";
                  status := complete;
                  x := 300%Z; y := (startY + 150)%Z;
                  data := {| preview := sources_preview g;
                             fullContent := json_text g |} |} ];
         edges :=
           edges st ++
             [ {| edge_id := edgeId modelNodeId toolNodeId;
                  source := modelNodeId; target := toolNodeId;
                  animated := false |} ];
         toolNodeCreated := true |}
  | _, _ => st
  end.

(** Lines 363-481: the callback given to [streamGeminiResponse].  [None]
    only if the parser's loop does not end. *)
Definition onUpdate (modelNodeId : str) (startY : Z)
  (u : StreamUpdate) (st : AppState) : option AppState :=
  let st := show_text modelNodeId (text u) st in
  let st := show_grounding modelNodeId startY u st in
  match parseFilesFromResponse (text u) with
  | Some parsedFiles => Some (apply_parsed modelNodeId startY parsedFiles st)
  | None => None
  end.

(* ================================================================= *)
(** ** geminiService.ts: the chunk loop *)

(** One value of the response stream as the loop sees it: whether the abort
    signal is raised when it arrives, [c.text], the grounding metadata of
    the first candidate, [c.usageMetadata], and the clock. *)
Record Chunk : Type :=
  { signal_aborted : bool;
    chunk_text : option str;
    chunk_grounding : option GroundingMetadata;
    chunk_usage : option UsageMetadata;
    chunk_now : str }.

(** The stream yields a chunk, or the transport throws an error with a
    message; the end of the list is the end of the stream. *)
Inductive StreamItem : Type :=
| Yield (c : Chunk)
| Throw (message : str).

(** How an [async] function ends. *)
Inductive Completion : Type :=
| Returned (value : str)
| Thrown (message : str).

Definition ABORTED_BY_USER : str := Eval cbv in lit "Aborted by user".
Definition STOPPED_BY_USER : str := Eval cbv in lit "Stopped by user.".

Definition truthy (s : option str) : bool :=
  match s with Some (_ :: _) => true | _ => false end.

Definition is_some (A : Type) (o : option A) : bool :=
  match o with Some _ => true | None => false end.

Section Stream.
Variable State : Type.
Variable onUpdate_cb : StreamUpdate -> State -> option State.

(** Lines 91-121: [for await (const chunk of responseStream)]. *)
Fixpoint stream_loop (items : list StreamItem) (fullText : str)
  (foundMetadata : option GroundingMetadata) (st : State)
  : option (Completion * State) :=
  match items with
  | [] => Some (Returned fullText, st)
  | Throw message :: _ => Some (Thrown message, st)
  | Yield c :: items' =>
      if signal_aborted c then Some (Thrown ABORTED_BY_USER, st)
      else
        let foundMetadata' :=
          match chunk_grounding c, foundMetadata with
          | Some g, None => Some g
          | _, _ => foundMetadata
          end in
        if truthy (chunk_text c) || is_some (chunk_usage c) then
          let fullText' :=
            fullText ++ match chunk_text c with Some t => t | None => [] end
          in
          match onUpdate_cb
                  {| text := fullText';
                     groundingMetadata := foundMetadata';
                     usageMetadata := chunk_usage c;
                     now := chunk_now c |} st with
          | Some st' => stream_loop items' fullText' foundMetadata' st'
          | None => None
          end
        else stream_loop items' fullText foundMetadata' st
  end.

(** Lines 19-129: the [try] around the loop and its [catch]; a failure to
    open the stream is a [Throw] at the head of [items]. *)
Definition streamGeminiResponse (items : list StreamItem) (st : State)
  : option (Completion * State) :=
  match stream_loop items [] None st with
  | Some (Thrown message, st') =>
      if str_eqb message ABORTED_BY_USER
      then Some (Returned STOPPED_BY_USER, st')
      else Some (Thrown message, st')
  | r => r
  end.
End Stream.

(* ================================================================= *)
(** ** App.tsx: handleRun *)

Fixpoint max_y (ns : list GraphNode) : Z :=
  match ns with
  | [] => 0%Z
  | [n] => y n
  | n :: ns' => Z.max (y n) (max_y ns')
  end.

(** Line 293 *)
Definition startY_of (ns : list GraphNode) : Z :=
  match ns with
  | [] => 100%Z
  | _ :: _ => (max_y ns + 300)%Z
  end.

(** Lines 295-332: the nodes of the request and of the agent, and the edge
    between them; [now_user] and [now_model] are the two readings of
    [Date.now()] and [prompt] is the text sent. *)
Definition begin_turn (now_user now_model prompt : str) (st : AppState)
  : AppState :=
  let startY := startY_of (nodes st) in
  let userNodeId := lit "user-" ++ now_user in
  let modelNodeId := lit "model-" ++ now_model in
  {| files := files st;
     nodes :=
       nodes st ++
         [ {| id := userNodeId; type := user;
              label := lit "User Request"; subLabel := lit "Input";
              status := complete; x := 100%Z; y := startY;
              data := {| preview := firstn 50 prompt ++ lit "...";
                         fullContent := prompt |} |};
           {| id := modelNodeId; type := model;
              label := lit "Gemini Agent";
              subLabel := lit "Reasoning & Orchestration";
              status := active; x := 500%Z; y := startY;
              data := {| preview := lit "Thinking...";
                         fullContent := [] |} |} ];
     edges :=
       edges st ++
         [ {| edge_id := edgeId userNodeId modelNodeId;
              source := userNodeId; target := modelNodeId;
              animated := true |} ];
     toolNodeCreated := false |}.

(** Lines 485-486: after the [await] has returned. *)
Definition end_complete (modelNodeId : str) (st : AppState) : AppState :=
  {| files := files st;
     nodes :=
       map (fun n => if str_eqb (id n) modelNodeId
                     then set_status complete n else n) (nodes st);
     edges :=
       map (fun e => if str_eqb (target e) modelNodeId
                     then set_animated false e else e) (edges st);
     toolNodeCreated := toolNodeCreated st |}.

(** Lines 488-493: the [catch]. *)
Definition end_error (modelNodeId : str) (st : AppState) : AppState :=
  {| files := files st;
     nodes :=
       map (fun n => if str_eqb (id n) modelNodeId
                     then set_status error n else n) (nodes st);
     edges := edges st;
     toolNodeCreated := toolNodeCreated st |}.

(** Lines 261-498, for a run that passes the guard of line 263: the state
    after the turn and how the [await] ended. *)
Definition handleRun (now_user now_model prompt : str)
  (items : list StreamItem)
  (st : AppState) : option (Completion * AppState) :=
  let startY := startY_of (nodes st) in
  let modelNodeId := lit "model-" ++ now_model in
  let st := begin_turn now_user now_model prompt st in
  match streamGeminiResponse (onUpdate modelNodeId startY) items st with
  | Some (Returned v, st') => Some (Returned v, end_complete modelNodeId st')
  | Some (Thrown m, st') => Some (Thrown m, end_error modelNodeId st')
  | None => None
  end.

(* ================================================================= *)
(** ** ProjectPanel.tsx: the file tree *)

Inductive FileNodeType : Type := file_type | directory.

Inductive FileNode : Type :=
  mkFileNode
    { name : str;
      node_path : str;
      node_type : FileNodeType;
      children : option (list FileNode);
      node_content : option str }.

Definition set_children (ch : list FileNode) (n : FileNode) : FileNode :=
  {| name := name n; node_path := node_path n; node_type := node_type n;
     children := Some ch; node_content := node_content n |}.

(** The first node of the level called [part], rewritten by [f] where it
    stands: what writing through the reference [existingNode] does. *)
Fixpoint update_named (part : str) (f : FileNode -> FileNode)
  (level : list FileNode) : list FileNode :=
  match level with
  | [] => []
  | n :: level' =>
      if str_eqb (name n) part then f n :: level'
      else n :: update_named part f level'
  end.

(** Lines 31-51: [parts.forEach] for the parts that are left, on the array
    [currentLevel]; the result is that array after the loop. *)
Fixpoint insert_parts (parts : list str) (currentPath : str)
  (fcontent : str) (currentLevel : list FileNode) : list FileNode :=
  match parts with
  | [] => currentLevel
  | part :: rest =>
      let currentPath' :=
        match currentPath with
        | [] => part
        | _ :: _ => currentPath ++ lit "/" ++ part
        end in
      let isFile := match rest with [] => true | _ :: _ => false end in
      match find (fun n => str_eqb (name n) part) currentLevel with
      | None =>
          let newNode :=
            {| name := part; node_path := currentPath';
               node_type := if isFile then file_type else directory;
               children := if isFile then None else Some [];
               node_content := if isFile then Some fcontent else None |} in
          if isFile then currentLevel ++ [newNode]
          else
            currentLevel ++
              [set_children (insert_parts rest currentPath' fcontent [])
                            newNode]
      | Some existingNode =>
          match isFile, children existingNode with
          | false, Some ch =>
              update_named part
                (set_children (insert_parts rest currentPath' fcontent ch))
                currentLevel
          | _, _ => insert_parts rest currentPath' fcontent currentLevel
          end
      end
  end.

Definition nonempty (s : str) : bool :=
  match s with [] => false | _ :: _ => true end.

(** Line 27 *)
Definition path_parts (p : str) : list str :=
  filter nonempty (split "/"%char p).

(** Lines 24-52 *)
Definition build_unsorted (fs : list ProjectFile) : list FileNode :=
  fold_left
    (fun root f => insert_parts (path_parts (path f)) [] (content f) root)
    fs [].

Definition type_eqb (a b : FileNodeType) : bool :=
  match a, b with
  | file_type, file_type | directory, directory => true
  | _, _ => false
  end.

Section Sorting.
(** [String.prototype.localeCompare] is the host's collation. *)
Variable localeCompare : str -> str -> Z.

(** Lines 55-58: the comparator. *)
Definition compare_nodes (a b : FileNode) : Z :=
  if type_eqb (node_type a) (node_type b)
  then localeCompare (name a) (name b)
  else match node_type a with directory => (-1)%Z | file_type => 1%Z end.

(** [Array.prototype.sort] is stable; with a comparator that is a total
    preorder its result is the one of this insertion sort. *)
Fixpoint sort_insert (a : FileNode) (l : list FileNode) : list FileNode :=
  match l with
  | [] => [a]
  | b :: l' =>
      if (compare_nodes a b <=? 0)%Z then a :: b :: l'
      else b :: sort_insert a l'
  end.

Fixpoint array_sort (l : list FileNode) : list FileNode :=
  match l with
  | [] => []
  | a :: l' => sort_insert a (array_sort l')
  end.

(** Lines 54-62.  The source sorts the array and then visits its nodes;
    here the nodes are visited first, which keeps names and types and so
    gives the same order (lemma [sortNodes_sort_first]). *)
Fixpoint sortNode (n : FileNode) : FileNode :=
  match n with
  | mkFileNode nm p t ch c =>
      mkFileNode nm p t
        (match ch with
         | Some l => Some (array_sort (map sortNode l))
         | None => None
         end) c
  end.

Definition sortNodes (ns : list FileNode) : list FileNode :=
  array_sort (map sortNode ns).

(** Lines 23-66 *)
Definition buildFileTree (fs : list ProjectFile) : list FileNode :=
  sortNodes (build_unsorted fs).

End Sorting.

(* ================================================================= *)
(** ** Vocabulary of the statements *)

Fixpoint takeWhile (cls : ascii -> bool) (s : str) : str :=
  match s with
  | c :: s' => if cls c then c :: takeWhile cls s' else []
  | [] => []
  end.

Fixpoint dropWhile (cls : ascii -> bool) (s : str) : str :=
  match s with
  | c :: s' => if cls c then dropWhile cls s' else s
  | [] => []
  end.

(** An opening tag as the pattern reads it: white space [ws1], the quotes
    [q1] and [q2], the attribute value [p], white space [ws2]. *)
Definition open_tag (ws1 : str) (q1 : ascii) (p : str) (q2 : ascii)
  (ws2 : str) : str :=
  OPEN_FILE ++ ws1 ++ PATH_EQ ++ q1 :: p ++ q2 :: ws2 ++ GT.

Record tag_ok (ws1 : str) (q1 : ascii) (p : str) (q2 : ascii) (ws2 : str)
  : Prop :=
  { ws1_nonempty : ws1 <> [];
    ws1_space : forallb is_space ws1 = true;
    q1_quote : is_quote q1 = true;
    path_nonempty : p <> [];
    path_no_quote : forallb not_quote p = true;
    q2_quote : is_quote q2 = true;
    ws2_space : forallb is_space ws2 = true }.

(** The opening tag at the start of [s], read without backtracking: the
    attribute value and the text after the tag. *)
Definition match_tag (s : str) : option (str * str) :=
  match strip_prefix OPEN_FILE s with
  | None => None
  | Some s1 =>
      if 1 <=? length (takeWhile is_space s1) then
        match strip_prefix PATH_EQ (dropWhile is_space s1) with
        | Some (q1 :: s4) =>
            if is_quote q1 then
              if 1 <=? length (takeWhile not_quote s4) then
                match dropWhile not_quote s4 with
                | q2 :: s6 =>
                    if is_quote q2 then
                      match strip_prefix GT (dropWhile is_space s6) with
                      | Some s8 => Some (takeWhile not_quote s4, s8)
                      | None => None
                      end
                    else None
                | [] => None
                end
              else None
            else None
        | _ => None
        end
      else None
  end.

(** The text up to the first closing tag, and the text after that tag. *)
Fixpoint split_at_close (s acc : str) : option (str * str) :=
  match strip_prefix CLOSE_FILE s with
  | Some r => Some (acc, r)
  | None =>
      match s with
      | c :: s' => split_at_close s' (acc ++ [c])
      | [] => None
      end
  end.

(** The record of a declaration. *)
Definition artifact (p body : str) : ProjectFile :=
  {| path := p; content := strip_newline body; language := language_of p |}.

(** The files of the loop by recursion on the text: [skip] characters are
    still inside the last match. *)
Fixpoint scan (skip : nat) (s : str) : list ProjectFile :=
  match s with
  | [] => []
  | _ :: s' =>
      match skip with
      | S skip' => scan skip' s'
      | O =>
          match run fileRegex s [] with
          | Some (caps, rest) =>
              file_of_match {| index := 0; groups := caps; endIndex := 0 |}
                :: scan (length s' - length rest) s'
          | None => scan 0 s'
          end
      end
  end.

Unset Implicit Arguments.

(** *** Declarations in a buffer *)

(** A complete declaration with the text before it. *)
Record Decl : Type :=
  { d_pre : str; d_ws1 : str; d_q1 : ascii; d_path : str; d_q2 : ascii;
    d_ws2 : str; d_body : str }.

(** Its opening tag. *)
Definition d_tag (d : Decl) : str :=
  open_tag (d_ws1 d) (d_q1 d) (d_path d) (d_q2 d) (d_ws2 d).

(** The text before holds no [<file], the tag is one the pattern reads, and
    the body ends at the first closing tag. *)
Definition decl_ok (d : Decl) : Prop :=
  contains OPEN_FILE (d_pre d) = false /\
  tag_ok (d_ws1 d) (d_q1 d) (d_path d) (d_q2 d) (d_ws2 d) /\
  contains CLOSE_FILE (d_body d) = false.

(** Its text in the buffer. *)
Definition render (d : Decl) : str :=
  d_pre d ++ d_tag d ++ d_body d ++ CLOSE_FILE.

(** A buffer of settled declarations: each one closed, with no [<file]
    between them. *)
Definition render_all (ds : list Decl) : str := concat (map render ds).

(** Its record. *)
Definition artifact_of (d : Decl) : ProjectFile :=
  artifact (d_path d) (d_body d).

(** The body without one line feed at its head. *)
Definition without_leading_newline (body : str) : str :=
  match body with
  | c :: b => if Ascii.eqb c nl then b else body
  | [] => []
  end.

(** The table of lines 23-28. *)
Definition language_table (ext : str) : str :=
  if str_eqb ext (lit "js") || str_eqb ext (lit "jsx") ||
     str_eqb ext (lit "ts") || str_eqb ext (lit "tsx")
  then lit "javascript"
  else if str_eqb ext (lit "html") then lit "html"
  else if str_eqb ext (lit "css") then lit "css"
  else if str_eqb ext (lit "json") then lit "json"
  else if str_eqb ext (lit "py") then lit "python"
  else lit "text".

(** *** The store *)

(** The paths of a list in the order of their first occurrence. *)
Fixpoint first_occurrences (l : list str) : list str :=
  match l with
  | [] => []
  | k :: l' =>
      k :: filter (fun k' => negb (str_eqb k' k)) (first_occurrences l')
  end.

(** The last record of a list with a given path. *)
Definition last_with_path (p : str) (l : list ProjectFile)
  : option ProjectFile :=
  find (fun f => str_eqb (path f) p) (rev l).


(** Line 419: the store after one call of the callback. *)
Definition files_step (parsedFiles st : list ProjectFile)
  : list ProjectFile :=
  match parsedFiles with
  | [] => st
  | _ :: _ => setFiles_update parsedFiles st
  end.

(** The store after the calls of a turn, one list of parsed files each. *)
Definition store_after (batches : list (list ProjectFile))
  (st : list ProjectFile) : list ProjectFile :=
  fold_left (fun s b => files_step b s) batches st.

(** The loop of lines 422-424 on a map. *)
Definition put_all (l : list ProjectFile) (m : JSMap ProjectFile)
  : JSMap ProjectFile :=
  fold_left (fun m f => map_set (path f) f m) l m.

Definition mem (k : str) (ks : list str) : bool := existsb (str_eqb k) ks.

(** Keys are distinct and each is the path of its value. *)
Definition well_keyed (m : JSMap ProjectFile) : Prop :=
  NoDup (map fst m) /\ Forall (fun kv => fst kv = path (snd kv)) m.

(** *** The stream *)

(** The texts handed to the callback before the stream ends, is stopped or
    fails. *)
Fixpoint delivered (items : list StreamItem) (fullText : str) : list str :=
  match items with
  | [] => []
  | Throw _ :: _ => []
  | Yield c :: items' =>
      if signal_aborted c then []
      else if truthy (chunk_text c) || is_some (chunk_usage c) then
        let fullText' :=
          fullText ++ match chunk_text c with Some t => t | None => [] end in
        fullText' :: delivered items' fullText'
      else delivered items' fullText
  end.

(** *** The tree *)

(** Induction on a tree with the hypothesis on all children. *)
Fixpoint FileNode_children_ind (P : FileNode -> Prop)
  (step : forall nm p t ch c,
      match ch with Some l => Forall P l | None => True end ->
      P (mkFileNode nm p t ch c))
  (n : FileNode) : P n :=
  match n with
  | mkFileNode nm p t ch c =>
      step nm p t ch c
        (match ch return match ch with
                         | Some l => Forall P l
                         | None => True
                         end with
         | Some l =>
             (fix all (l : list FileNode) : Forall P l :=
                match l with
                | [] => Forall_nil P
                | x :: r =>
                    Forall_cons x (FileNode_children_ind P step x) (all r)
                end) l
         | None => I
         end)
  end.

(** Every level of a node is in order. *)
Fixpoint each_level (ok : list FileNode -> Prop) (n : FileNode) : Prop :=
  match n with
  | mkFileNode _ _ _ ch _ =>
      match ch with
      | Some l =>
          ok l /\
          (fix all (l : list FileNode) : Prop :=
             match l with
             | [] => True
             | x :: r => each_level ok x /\ all r
             end) l
      | None => True
      end
  end.

(** A property of the top level and of the children of every directory. *)
Definition every_level (ok : list FileNode -> Prop) (l : list FileNode)
  : Prop :=
  ok l /\ Forall (each_level ok) l.

(** Line 32: the path of a child. *)
Definition child_path (currentPath part : str) : str :=
  match currentPath with
  | [] => part
  | _ :: _ => currentPath ++ lit "/" ++ part
  end.

(** The path the loop of lines 31-51 has made after the parts [ps]. *)
Fixpoint full_path (currentPath : str) (ps : list str) : str :=
  match ps with
  | [] => currentPath
  | part :: rest => full_path (child_path currentPath part) rest
  end.

(** The paths of the file nodes of a tree, at every depth. *)
Fixpoint node_file_paths (n : FileNode) : list str :=
  match n with
  | mkFileNode _ p t ch _ =>
      match t with file_type => [p] | directory => [] end ++
      match ch with
      | Some l =>
          (fix go (l : list FileNode) : list str :=
             match l with
             | [] => []
             | x :: r => node_file_paths x ++ go r
             end) l
      | None => []
      end
  end.

Definition file_paths (l : list FileNode) : list str :=
  flat_map node_file_paths l.

(** No two nodes of a level have the same name, at every level. *)
Definition siblings_unique (tree : list FileNode) : Prop :=
  every_level (fun l => NoDup (map name l)) tree.

(** Part lists of which none continues another. *)
Definition prefix_free (S : list (list str)) : Prop :=
  forall a b r, In a S -> In b S -> b = a ++ r -> r = [].

(** A store whose paths have no empty segment, and of which none lies
    under another as under a directory. *)
Definition store_ok (fs : list ProjectFile) : Prop :=
  (forall f, In f fs -> path_parts (path f) = split "/"%char (path f)) /\
  prefix_free (map (fun f => path_parts (path f)) fs).

(** The part lists under the name [n]. *)
Definition under (n : str) (S : list (list str)) : list (list str) :=
  flat_map (fun s => match s with
                     | m :: r => if str_eqb m n then [r] else []
                     | [] => []
                     end) S.

(** Every node stands for part lists of [S]: a file for a whole list, a
    directory for the head of a longer one; its path is made of the names
    on the way. *)
Fixpoint trie_node (S : list (list str)) (cp : str) (n : FileNode) : Prop :=
  match n with
  | mkFileNode nm p t ch _ =>
      p = child_path cp nm /\
      match t, ch with
      | file_type, None => In [nm] S
      | directory, Some l =>
          (exists r, r <> [] /\ In (nm :: r) S) /\
          (fix all (l : list FileNode) : Prop :=
             match l with
             | [] => True
             | x :: l' => trie_node (under nm S) p x /\ all l'
             end) l
      | _, _ => False
      end
  end.

(** *** Inputs the statements are run on *)

(** The two chunks of the streaming scenario. *)
Definition chunk1 : str :=
  lit "<file path=" ++ dq :: lit "x.ts" ++ dq :: lit ">ABC".

Definition chunk2 : str := lit "DEF</file>".


(** A declaration settled before the scenario starts. *)
Definition settled_css : Decl :=
  {| d_pre := lit "Intro "; d_ws1 := lit " "; d_q1 := sq;
     d_path := lit "a.css"; d_q2 := sq; d_ws2 := [];
     d_body := nl :: lit "p {}" |}.

(** A double-quoted attribute value that holds a single quote. *)
Definition quoted_value_decl : str :=
  lit "<file path=" ++ dq :: lit "a'>b" ++ dq :: lit ">c</file>".

(** A declaration of the file called py, a name without a dot. *)
Definition dotless_decl : str :=
  lit "<file path=" ++ dq :: lit "py" ++ dq :: lit ">x</file>".

(** A record with a given path and content. *)
Definition mkfile (p c : string) : ProjectFile :=
  {| path := lit p; content := lit c; language := lit "text" |}.

(** Two declarations of the path a. *)
Definition decl_a1 : str :=
  lit "<file path=" ++ dq :: lit "a" ++ dq :: lit ">1</file>".

Definition decl_a2 : str :=
  lit "<file path=" ++ dq :: lit "a" ++ dq :: lit ">2</file>".

(** A chunk of text, received with the abort signal raised or not. *)
Definition text_chunk (aborted : bool) (t : str) : Chunk :=
  {| signal_aborted := aborted; chunk_text := Some t;
     chunk_grounding := None; chunk_usage := None; chunk_now := lit "2" |}.

(** The state of a session with nothing in it. *)
Definition empty_state : AppState :=
  {| files := []; nodes := []; edges := []; toolNodeCreated := false |}.

(** The order of the code units, a collation to run the statements on. *)
Fixpoint code_unit_compare (a b : str) : Z :=
  match a, b with
  | [], [] => 0%Z
  | [], _ :: _ => (-1)%Z
  | _ :: _, [] => 1%Z
  | x :: a', y :: b' =>
      match Nat.compare (nat_of_ascii x) (nat_of_ascii y) with
      | Lt => (-1)%Z
      | Gt => 1%Z
      | Eq => code_unit_compare a' b'
      end
  end.

(** A store with the given paths. *)
Definition mktree (l : list str) : list ProjectFile :=
  map (fun p => {| path := p; content := []; language := [] |}) l.

Definition sample_paths : list str :=
  [lit "b.ts"; lit "src/z.ts"; lit "a.ts"; lit "lib/x.ts"; lit "src/a.ts"].

(* ================================================================= *)
(** ** App.tsx: what the user does to the store *)

(** Lines 227-229: [handleFileUpdate]. *)
Definition handleFileUpdate (p newContent : str) (prev : list ProjectFile)
  : list ProjectFile :=
  map (fun f =>
         if str_eqb (path f) p
         then {| path := path f; content := newContent;
                 language := language f |}
         else f)
      prev.

(** Lines 233-234: the language of a file made by hand: the text after the
    last dot as it is written, with ts and tsx named typescript. *)
Definition created_language (p : str) : str :=
  let ext :=
    or_default
      (match pop (split "."%char p) with Some e => e | None => [] end)
      (lit "text") in
  if str_eqb ext (lit "ts") || str_eqb ext (lit "tsx")
  then lit "typescript" else ext.

(** Lines 231-236: [handleFileCreate].  The guard reads [files], the
    files of the render the handler was made in; the updater reads [prev],
    the store as the queue of updates has left it.  The result is the store
    after the call: [prev] itself when the guard refuses. *)
Definition handleFileCreate (files : list ProjectFile) (p : str)
  (prev : list ProjectFile) : list ProjectFile :=
  match find (fun f => str_eqb (path f) p) files with
  | None =>
      prev ++ [ {| path := p; content := [];
                   language := created_language p |} ]
  | Some _ => prev
  end.

(** Lines 238-240: [handleFileDelete]. *)
Definition handleFileDelete (p : str) (prev : list ProjectFile)
  : list ProjectFile :=
  filter (fun f => negb (str_eqb (path f) p)) prev.

(** The store between two events: the files the handlers of the last
    render have closed over, and the store itself, which the updaters of
    [setFiles] read and write. *)
Record FilesState : Type :=
  { rendered_files : list ProjectFile;
    current_files : list ProjectFile }.

(** A store that has just been rendered. *)
Definition rendered (st : list ProjectFile) : FilesState :=
  {| rendered_files := st; current_files := st |}.

(** What happens to the store: the three handlers, the callback of a
    stream, and a render, after which the handlers read the store as it
    is. *)
Inductive StoreOp : Type :=
| FileCreate (p : str)
| FileUpdate (p newContent : str)
| FileDelete (p : str)
| FilesParsed (parsedFiles : list ProjectFile)
| Render.

Definition store_step (s : FilesState) (op : StoreOp) : FilesState :=
  match op with
  | FileCreate p =>
      {| rendered_files := rendered_files s;
         current_files :=
           handleFileCreate (rendered_files s) p (current_files s) |}
  | FileUpdate p c =>
      {| rendered_files := rendered_files s;
         current_files := handleFileUpdate p c (current_files s) |}
  | FileDelete p =>
      {| rendered_files := rendered_files s;
         current_files := handleFileDelete p (current_files s) |}
  | FilesParsed parsed =>
      {| rendered_files := rendered_files s;
         current_files := files_step parsed (current_files s) |}
  | Render => rendered (current_files s)
  end.

(** Every creation of a run of events comes with no creation and no parsed
    batch between the last render and itself; [fresh] tells whether that is
    so at the start. *)
Fixpoint creations_rendered (fresh : bool) (ops : list StoreOp) : bool :=
  match ops with
  | [] => true
  | Render :: ops' => creations_rendered true ops'
  | FileCreate _ :: ops' => fresh && creations_rendered false ops'
  | FilesParsed _ :: ops' => creations_rendered false ops'
  | FileUpdate _ _ :: ops' => creations_rendered fresh ops'
  | FileDelete _ :: ops' => creations_rendered fresh ops'
  end.

(** The file that [handleFileCreate] appends. *)
Definition created_file (p : str) : ProjectFile :=
  {| path := p; content := []; language := created_language p |}.

(* ================================================================= *)
(** ** App.tsx: the files in the prompt *)

(** [arr.join(sep)] *)
Fixpoint join (sep : str) (l : list str) : str :=
  match l with
  | [] => []
  | [a] => a
  | a :: l' => a ++ sep ++ join sep l'
  end.

(** Line 352: the text of one file in the prompt. *)
Definition file_context_entry (f : ProjectFile) : str :=
  lit "<file path=" ++ dq :: path f ++ dq :: lit ">" ++
  nl :: content f ++ nl :: lit "</file>".

(** Line 352: [fileContext]. *)
Definition fileContext (fs : list ProjectFile) : str :=
  join [nl; nl] (map file_context_entry fs).

(** Lines 346-348: the sentence added for a thinking model. *)
Definition THINK_HINT : str :=
  Eval cbv in
    nl :: lit "Please wrap your thought process in <think>...</think>" ++
          lit " tags before providing the final answer.".

(** Line 353: what stands before the files. *)
Definition CONTEXT_HEAD : str :=
  Eval cbv in
    nl :: nl ::
      lit "Current Project Context (The user has these files open," ++
      lit " consider their content when answering):" ++ [nl].

(** Lines 345-354: [effectivePrompt], from the name of the model, the text
    of the user and the files of the store. *)
Definition effectivePrompt (modelName userText : str)
  (fs : list ProjectFile) : str :=
  let effectivePrompt := userText in
  let effectivePrompt :=
    if contains (lit "thinking") modelName
    then effectivePrompt ++ THINK_HINT else effectivePrompt in
  match fs with
  | [] => effectivePrompt
  | _ :: _ => effectivePrompt ++ CONTEXT_HEAD ++ fileContext fs
  end.

(** A file as the parser gives it back from the prompt. *)
Definition read_back (f : ProjectFile) : ProjectFile :=
  {| path := path f; content := content f ++ [nl];
     language := language_of (path f) |}.

(** The declaration that [file_context_entry] writes, after [pre]. *)
Definition context_decl (pre : str) (f : ProjectFile) : Decl :=
  {| d_pre := pre; d_ws1 := lit " "; d_q1 := dq; d_path := path f;
     d_q2 := dq; d_ws2 := []; d_body := nl :: content f ++ [nl] |}.

(* ================================================================= *)
(** ** The AgentCanvas component: the edges that are drawn *)




(* ================================================================= *)
(** ** Markdown.tsx and the project panel: text shown as HTML *)

(** [s.replace(/c/g, by)] for a pattern of one character and a replacement
    without dollar sign. *)
Definition replace_all (c : ascii) (by_ : str) (s : str) : str :=
  flat_map (fun a => if Ascii.eqb a c then by_ else [a]) s.

(** Markdown.tsx line 122 and line 143 of the project panel. *)
Definition escape_html (code : str) : str :=
  replace_all ">"%char (lit "&gt;")
    (replace_all "<"%char (lit "&lt;")
       (replace_all "&"%char (lit "&amp;") code)).

(** What stands for one character in escaped text. *)
Definition entity_of (c : ascii) : str :=
  if Ascii.eqb c "&"%char then lit "&amp;"
  else if Ascii.eqb c "<"%char then lit "&lt;"
  else if Ascii.eqb c ">"%char then lit "&gt;"
  else [c].

(* ================================================================= *)
(** ** Vocabulary of the statements on the graph and the stream *)

(** *** The store *)

(** [files.find(f => f.path === p)] *)
Definition lookup (p : str) (l : list ProjectFile) : option ProjectFile :=
  find (fun f => str_eqb (path f) p) l.

(** *** The graph *)

(** Every edge runs between two nodes of the graph. *)
Definition edges_closed (ns : list GraphNode) (es : list GraphEdge)
  : Prop :=
  forall e, In e es ->
    In (source e) (map id ns) /\ In (target e) (map id ns).

Definition is_tool (n : GraphNode) : bool :=
  match type n with tool => true | _ => false end.


(** The tool nodes are those there were and at most one more, which is
    there once the flag is raised. *)
Definition tools_ok (base : nat) (st : AppState) : Prop :=
  length (filter is_tool (nodes st))
  + (if toolNodeCreated st then 0 else 1) <= S base.

(** [n] values from [b] on, 150 apart. *)
Fixpoint stack (b : Z) (n : nat) : list Z :=
  match n with
  | O => []
  | S n' => b :: stack (b + 150)%Z n'
  end.


(** *** The texts of a stream *)

(** A callback that keeps the texts it is given. *)
Definition record_text (u : StreamUpdate) (log : list str)
  : option (list str) :=
  Some (log ++ [text u]).

Definition is_prefix (a b : str) : Prop := exists d, b = a ++ d.

(** The text of a chunk as the loop adds it. *)
Definition item_text (i : StreamItem) : str :=
  match i with
  | Yield c => match chunk_text c with Some t => t | None => [] end
  | Throw _ => []
  end.

(** A chunk that arrives while the signal is not raised. *)
Definition arrives (i : StreamItem) : Prop :=
  match i with
  | Yield c => signal_aborted c = false
  | Throw _ => False
  end.

(** *** Inputs *)

(** A chunk of text that carries grounding metadata. *)
Definition grounded_chunk (t : str) : Chunk :=
  {| signal_aborted := false; chunk_text := Some t;
     chunk_grounding :=
       Some {| sources_preview := lit "1 source"; json_text := lit "{}" |};
     chunk_usage := None; chunk_now := lit "3" |}.


(* ================================================================= *)
(** ** Markdown.tsx: thinking blocks and code blocks *)

(** A pattern as a function: the capture groups and the text left when it
    matches at the head of a text. *)
Definition Matcher : Type := str -> option (list str * str).

(** Leftmost match in [s], the text from index [i] on. *)
Fixpoint search_with (m : Matcher) (s : str) (i : nat) : option Match :=
  match m s with
  | Some (caps, rest) =>
      Some {| index := i; groups := caps;
              endIndex := i + (length s - length rest) |}
  | None =>
      match s with
      | [] => None
      | _ :: s' => search_with m s' (S i)
      end
  end.

(** [re.exec(text)] for a global regular expression. *)
Definition exec_with (m : Matcher) (re : RegExp) (text : str)
  : option Match * RegExp :=
  match search_with m (skipn (lastIndex re) text) (lastIndex re) with
  | Some mt => (Some mt, {| lastIndex := endIndex mt |})
  | None => (None, {| lastIndex := 0 |})
  end.

(** [s.substring(a, b)] for [a <= b]. *)
Definition substring (a b : nat) (s : str) : str :=
  firstn (b - a) (skipn a s).

Definition THINK_OPEN : str := Eval cbv in lit "<think>".
Definition THINK_CLOSE : str := Eval cbv in lit "</think>".

(** The end of the pattern of line 25, [(?:<\/think>|$)], after the lazy
    group has taken [taken]: the closing tag is tried first, then the end
    of the text. *)
Definition think_end (taken rest : str) : option (list str * str) :=
  match strip_prefix THINK_CLOSE rest with
  | Some r => Some ([taken], r)
  | None =>
      match rest with
      | [] => Some ([taken], [])
      | _ :: _ => None
      end
  end.

(** Line 25, the pattern [<think>([\s\S]*?)(?:<\/think>|$)]. *)
Definition thinkRegex : Matcher :=
  fun s =>
    match strip_prefix THINK_OPEN s with
    | Some s1 => lazy any_char think_end s1 []
    | None => None
    end.

(** [\w] *)
Definition is_word (c : ascii) : bool :=
  let n := nat_of_ascii c in
  ((48 <=? n) && (n <=? 57)) || ((65 <=? n) && (n <=? 90)) ||
  (n =? 95) || ((97 <=? n) && (n <=? 122)).

Definition FENCE : str := Eval cbv in lit "```".

(** Line 59, the pattern of a code block: the fence, [(\w+)?], a line
    feed, [([\s\S]*?)], the fence.  The optional group is written as a
    greedy run that may be empty: the order of the attempts is the same,
    and a group that did not take part reads as the empty string, which
    line 70 treats like [undefined]. *)
Definition codeBlockRegex : Matcher :=
  fun s =>
    run [ Lit FENCE; Greedy 0 is_word true; Lit [nl];
          Lazy any_char true; Lit FENCE ] s [].

Section PartsLoop.
(** The loops of [Markdown] (lines 31-52) and of [ContentParser] (lines
    64-82) are the same loop over two patterns and two pairs of elements:
    [between] is the element for the text from [lastIndex] to a match or
    to the end, with the index in its key, and [hit] the element for a
    match. *)
Variable Part : Type.
Variable regex : Matcher.
Variable between : nat -> str -> Part.
Variable hit : Match -> Part.

(** The [while ((match = regex.exec(content)) !== null)] loop; [None] is a
    loop that has not ended within [fuel] iterations.  [match[0].length] is
    [endIndex - index]. *)
Fixpoint parts_loop (fuel : nat) (re : RegExp) (content : str)
  (parts : list Part) (lastIndex_ : nat) : option (list Part * nat) :=
  match fuel with
  | O => None
  | S fuel' =>
      match exec_with regex re content with
      | (Some mt, re') =>
          let parts :=
            if lastIndex_ <? index mt
            then parts ++
                   [between lastIndex_
                      (substring lastIndex_ (index mt) content)]
            else parts in
          let parts := parts ++ [hit mt] in
          parts_loop fuel' re' content parts
                     (index mt + (endIndex mt - index mt))
      | (None, _) => Some (parts, lastIndex_)
      end
  end.

(** The loop and the text that remains after it. *)
Definition parts_of (content : str) : option (list Part) :=
  match parts_loop (S (length content)) fresh_regex content [] 0 with
  | Some (parts, lastIndex_) =>
      Some (if lastIndex_ <? length content
            then parts ++ [between lastIndex_ (skipn lastIndex_ content)]
            else parts)
  | None => None
  end.

(** The element for a text, if it is not empty. *)
Definition text_part (i : nat) (t : str) : list Part :=
  match t with
  | [] => []
  | _ :: _ => [between i t]
  end.

(** The pattern matches at no place of [pre] when [rest] follows. *)
Definition no_match_before (pre rest : str) : Prop :=
  forall a b, pre = a ++ b -> b <> [] -> regex (b ++ rest) = None.

(** The pattern matches at no place of [s], its end included. *)
Definition no_match (s : str) : Prop :=
  forall a b, s = a ++ b -> regex b = None.

(** [splits i s ps]: the text [s], which starts at index [i], is cut at
    the leftmost matches, one after the other, and [ps] are the elements
    of the texts between them and of the matches. *)
Inductive splits : nat -> str -> list Part -> Prop :=
| splits_end (i : nat) (s : str) :
    no_match s -> splits i s (text_part i s)
| splits_hit (i : nat) (pre mm : str) (caps : list str) (post : str)
    (ps : list Part) :
    no_match_before pre (mm ++ post) ->
    mm <> [] ->
    regex (mm ++ post) = Some (caps, post) ->
    splits (i + length pre + length mm) post ps ->
    splits i (pre ++ mm ++ post)
      (text_part i pre ++
       hit {| index := i + length pre; groups := caps;
              endIndex := i + length pre + length mm |} :: ps).

(** A match is never empty and ends where the text left begins. *)
Definition consuming : Prop :=
  forall s caps rest,
    regex s = Some (caps, rest) -> exists mm, mm <> [] /\ s = mm ++ rest.
End PartsLoop.

(** The children of the element that [Markdown] returns. *)
Inductive MarkdownPart : Type :=
| ContentParser_ (key : nat) (content : str)
| ThinkingBlock_ (key : nat) (thought : str).

(** What a component returns: [null] or an element with children. *)
Inductive Rendered (Part : Type) : Type :=
| null
| element (parts : list Part).
Arguments null {Part}.
Arguments element {Part} parts.

(** Lines 41-43: the element of a match. *)
Definition think_hit (mt : Match) : MarkdownPart :=
  ThinkingBlock_ (index mt) (nth 0 (groups mt) []).

(** Lines 24-52: the children. *)
Definition Markdown_parts (content : str) : option (list MarkdownPart) :=
  parts_of _ thinkRegex ContentParser_ think_hit content.

(** Lines 20-55: [Markdown]. *)
Definition Markdown (content : str) : option (Rendered MarkdownPart) :=
  match content with
  | [] => Some null
  | _ :: _ => option_map element (Markdown_parts content)
  end.

(** The children of the fragment that [ContentParser] returns. *)
Inductive ContentPart : Type :=
| TextSegment_ (key : nat) (text : str)
| CodeBlock_ (key : nat) (language code : str).

(** Lines 70-74: the element of a match. *)
Definition code_hit (mt : Match) : ContentPart :=
  let language := or_default (nth 0 (groups mt) []) (lit "text") in
  let code := nth 1 (groups mt) [] in
  CodeBlock_ (index mt) language code.

(** Lines 58-85: [ContentParser]. *)
Definition ContentParser (content : str) : option (list ContentPart) :=
  parts_of _ codeBlockRegex TextSegment_ code_hit content.

(** *** Thinking blocks *)

(** The text that the children of [Markdown] stand for: a thinking block
    is written with its tags, the last one without the closing tag when
    [closed] is false. *)
Fixpoint reassemble (closed : bool) (parts : list MarkdownPart) : str :=
  match parts with
  | [] => []
  | ContentParser_ _ t :: parts' => t ++ reassemble closed parts'
  | [ThinkingBlock_ _ th] =>
      THINK_OPEN ++ th ++ (if closed then THINK_CLOSE else [])
  | ThinkingBlock_ _ th :: parts' =>
      THINK_OPEN ++ th ++ THINK_CLOSE ++ reassemble closed parts'
  end.

(** What holds of a child of [Markdown content]: a text is not empty,
    holds no opening tag, and stands in the content at the index of its
    key; a thought holds no closing tag, and its opening tag stands in the
    content at the index of its key. *)
Definition part_ok (content : str) (p : MarkdownPart) : Prop :=
  match p with
  | ContentParser_ k t =>
      t <> [] /\ contains THINK_OPEN t = false /\
      startsWith t (skipn k content) = true
  | ThinkingBlock_ k th =>
      contains THINK_CLOSE th = false /\
      startsWith (THINK_OPEN ++ th) (skipn k content) = true
  end.

(** A child moved [n] characters to the right. *)
Definition shift_part (n : nat) (p : MarkdownPart) : MarkdownPart :=
  match p with
  | ContentParser_ k t => ContentParser_ (n + k) t
  | ThinkingBlock_ k th => ThinkingBlock_ (n + k) th
  end.

Definition part_key (p : MarkdownPart) : nat :=
  match p with
  | ContentParser_ k _ => k
  | ThinkingBlock_ k _ => k
  end.

(** *** Code blocks *)

Definition backtick : ascii := "`"%char.

(** The text holds no fence and does not end in a backtick: followed by a
    fence, its first fence is the one that follows. *)
Definition fence_free (s : str) : Prop :=
  contains FENCE (s ++ [backtick; backtick]) = false.

(** What holds of a child of [ContentParser content]: a text is not empty
    and stands in the content at the index of its key; a code block has a
    language that is a non-empty word and a code without fence, and its
    opening fence stands in the content at the index of its key. *)
Definition code_part_ok (content : str) (p : ContentPart) : Prop :=
  match p with
  | TextSegment_ k t =>
      t <> [] /\ startsWith t (skipn k content) = true
  | CodeBlock_ k language code =>
      language <> [] /\ forallb is_word language = true /\
      contains FENCE code = false /\
      startsWith FENCE (skipn k content) = true
  end.

Definition shift_content_part (n : nat) (p : ContentPart) : ContentPart :=
  match p with
  | TextSegment_ k t => TextSegment_ (n + k) t
  | CodeBlock_ k l c => CodeBlock_ (n + k) l c
  end.

Definition content_part_key (p : ContentPart) : nat :=
  match p with
  | TextSegment_ k _ => k
  | CodeBlock_ k _ _ => k
  end.

(** How often a character stands in a text. *)
Definition count_char (c : ascii) (s : str) : nat :=
  length (filter (Ascii.eqb c) s).

(** The continuation of the lazy group of [codeBlockRegex]. *)
Definition fence_end_of (lang : str) (taken rest : str)
  : option (list str * str) :=
  run [Lit FENCE] rest (push_capture true [lang] taken).

(* ================================================================= *)
(** ** Markdown.tsx: parseInline *)

(** [s.split(re)] for a pattern [re] whose matches are never empty and
    whose one capture group is the whole match: the texts between the
    matches, with the groups of each match after the text before it.  The
    pattern is tried at each index that is not inside the match before;
    [skip] characters are still inside it, and [cur] is the text since. *)
Fixpoint split_re (m : Matcher) (skip : nat) (s : str) (cur : str)
  : list str :=
  match s with
  | [] => [cur]
  | c :: s' =>
      match skip with
      | S skip' => split_re m skip' s' cur
      | O =>
          match m s with
          | Some (caps, rest) =>
              cur :: caps ++ split_re m (length s' - length rest) s' []
          | None => split_re m 0 s' (cur ++ [c])
          end
      end
  end.

(** The whole match as the one group of a pattern. *)
Definition whole_match (p : pattern) : Matcher :=
  fun s =>
    match run p s [] with
    | Some (_, rest) => Some ([firstn (length s - length rest) s], rest)
    | None => None
    end.

Definition star : ascii := "*"%char.

Definition not_backtick (c : ascii) : bool := negb (Ascii.eqb c backtick).
Definition not_star (c : ascii) : bool := negb (Ascii.eqb c star).

(** Line 212: a backtick, [[^`]+], a backtick, all in one group. *)
Definition code_span : Matcher :=
  whole_match [Lit [backtick]; Greedy 1 not_backtick false; Lit [backtick]].

(** Line 218: two stars, [[^*]+], two stars, all in one group. *)
Definition bold_span : Matcher :=
  whole_match [Lit [star; star]; Greedy 1 not_star false; Lit [star; star]].

(** [s.endsWith(p)] *)
Definition endsWith (p s : str) : bool := startsWith (rev p) (rev s).

(** [s.slice(a, -b)] *)
Definition slice (a b : nat) (s : str) : str :=
  firstn (length s - b - a) (skipn a s).

(** [arr.map((x, index) => f(x, index))], from index [i] on. *)
Fixpoint mapi (A B : Type) (f : A -> nat -> B) (l : list A) (i : nat)
  : list B :=
  match l with
  | [] => []
  | a :: l' => f a i :: mapi A B f l' (S i)
  end.

(** The children of the fragment of lines 220-227. *)
Inductive BoldItem : Type :=
| strong_ (key : nat) (children : str)
| string_ (text : str).

(** The nodes that [parseInline] returns. *)
Inductive InlineNode : Type :=
| code_ (key : nat) (children : str)
| Fragment_ (key : nat) (children : list BoldItem).

(** Lines 218-226: the children of the fragment of one part. *)
Definition bold_items (part : str) : list BoldItem :=
  let boldParts := split_re bold_span 0 part [] in
  mapi _ _
    (fun subPart subIndex =>
       if startsWith [star; star] subPart && endsWith [star; star] subPart
       then strong_ subIndex (slice 2 2 subPart)
       else string_ subPart)
    boldParts 0.

(** Lines 211-230: [parseInline]. *)
Definition parseInline (text : str) : list InlineNode :=
  let parts := split_re code_span 0 text [] in
  mapi _ _
    (fun part index =>
       if startsWith [backtick] part && endsWith [backtick] part
       then code_ index (slice 1 1 part)
       else Fragment_ index (bold_items part))
    parts 0.

(** *** What is shown *)

Definition bold_item_text (b : BoldItem) : str :=
  match b with
  | strong_ _ c => c
  | string_ c => c
  end.

Definition inline_text (n : InlineNode) : str :=
  match n with
  | code_ _ c => c
  | Fragment_ _ items => concat (map bold_item_text items)
  end.

(** The characters on the screen, in order. *)
Definition shown (l : list InlineNode) : str := concat (map inline_text l).

(** Not one of the two marks. *)
Definition unmarked (c : ascii) : bool :=
  negb (Ascii.eqb c backtick || Ascii.eqb c star).

Definition shift_bold (n : nat) (b : BoldItem) : BoldItem :=
  match b with
  | strong_ k c => strong_ (n + k) c
  | string_ c => string_ c
  end.

Definition shift_inline (n : nat) (x : InlineNode) : InlineNode :=
  match x with
  | code_ k c => code_ (n + k) c
  | Fragment_ k items => Fragment_ (n + k) items
  end.

(** Any character but [c]. *)
Definition other_than (c x : ascii) : bool := negb (Ascii.eqb x c).

(** The pattern of a span: the delimiter [d], one character or more that
    are not [c], the delimiter, all in one group. *)
Definition span_of (d : str) (c : ascii) : Matcher :=
  whole_match [Lit d; Greedy 1 (other_than c) false; Lit d].

(** A match is not empty, ends where the text left begins, and is the one
    group. *)
Definition whole (m : Matcher) : Prop :=
  forall s caps rest,
    m s = Some (caps, rest) ->
    exists mm, mm <> [] /\ s = mm ++ rest /\ caps = [mm].

(* ================================================================= *)
(** ** The project panel: the file that is opened first *)

(** [f?.path] read where a string is expected: [undefined] and the empty
    string are both falsy. *)
Definition path_or_undefined (f : option ProjectFile) : str :=
  match f with
  | Some f => path f
  | None => []
  end.

Definition is_readme (f : ProjectFile) : bool :=
  contains (lit "readme") (toLowerCase (path f)).

Definition is_index (f : ProjectFile) : bool :=
  contains (lit "index") (toLowerCase (path f)) ||
  contains (lit "app") (toLowerCase (path f)).

(** Lines 257-264 of the project panel: the path that the effect sets when
    no path is active; [None] when it sets none. *)
Definition initial_active_path (files : list ProjectFile) : option str :=
  match files with
  | [] => None
  | first :: _ =>
      let readme := find is_readme files in
      let index := find is_index files in
      Some (or_default
              (or_default (path_or_undefined readme)
                          (path_or_undefined index))
              (path first))
  end.

(* ================================================================= *)
(** ** fileParser.ts: the pattern as a function *)

(** [fileRegex] at the head of a text. *)
Definition fileMatcher : Matcher := fun s => run fileRegex s [].


(* ================================================================= *)
(** ** Strings: lemmas *)

Lemma str_eqb_eq (a b : str) : str_eqb a b = true <-> a = b.
Proof.
  revert b; induction a as [|x a IH]; intros [|y b]; simpl;
    try (split; [discriminate | discriminate]); [tauto|].
  rewrite andb_true_iff, Ascii.eqb_eq, IH.
  split; [intros [-> ->]; reflexivity | intros H; inversion H; auto].
Qed.

Lemma str_eqb_refl (a : str) : str_eqb a a = true.
Proof. apply str_eqb_eq; reflexivity. Qed.

Lemma str_eqb_neq (a b : str) : str_eqb a b = false <-> a <> b.
Proof.
  rewrite <- str_eqb_eq. destruct (str_eqb a b); split; congruence.
Qed.

Lemma str_eqb_sym (a b : str) : str_eqb a b = str_eqb b a.
Proof.
  destruct (str_eqb a b) eqn:E.
  - apply str_eqb_eq in E; subst; symmetry; apply str_eqb_refl.
  - symmetry; apply str_eqb_neq; apply str_eqb_neq in E; congruence.
Qed.

Lemma strip_prefix_Some (p s r : str) :
  strip_prefix p s = Some r <-> s = p ++ r.
Proof.
  revert s; induction p as [|x p IH]; intros s; simpl.
  - split; congruence.
  - destruct s as [|y s]; [split; discriminate|].
    destruct (Ascii.eqb_spec x y) as [->|N].
    + rewrite IH; split; [intros ->; reflexivity | intros H; inversion H; auto].
    + split; [discriminate | intros H; inversion H; congruence].
Qed.

Lemma strip_prefix_app (p r : str) : strip_prefix p (p ++ r) = Some r.
Proof. apply strip_prefix_Some; reflexivity. Qed.

Lemma strip_prefix_startsWith (p s : str) :
  startsWith p s = false <-> strip_prefix p s = None.
Proof.
  revert s; induction p as [|x p IH]; intros s; simpl.
  - split; discriminate.
  - destruct s as [|y s]; [tauto|].
    destruct (Ascii.eqb x y); simpl; [apply IH | tauto].
Qed.

Lemma startsWith_app (p r : str) : startsWith p (p ++ r) = true.
Proof.
  destruct (startsWith p (p ++ r)) eqn:E; [reflexivity|].
  apply strip_prefix_startsWith in E.
  rewrite strip_prefix_app in E; discriminate.
Qed.

Lemma contains_app_r (p a b : str) :
  contains p (a ++ b) = false -> contains p b = false.
Proof.
  induction a as [|c a IH]; simpl; [auto|].
  intros H; apply orb_false_iff in H; destruct H as [_ H]; auto.
Qed.

Lemma contains_startsWith (p s : str) :
  contains p s = false -> startsWith p s = false.
Proof.
  destruct s; simpl; intros H; apply orb_false_iff in H; tauto.
Qed.

Lemma startsWith_app_l (p a b : str) :
  startsWith p a = true -> startsWith p (a ++ b) = true.
Proof.
  revert a; induction p as [|x p IH]; intros [|y a]; simpl; auto;
    [discriminate|].
  rewrite !andb_true_iff; intros [? ?]; auto.
Qed.

Lemma contains_app_l (p a b : str) :
  contains p (a ++ b) = false -> contains p a = false.
Proof.
  induction a as [|c a IH]; simpl.
  - intros H. destruct p; [|reflexivity].
    destruct b; simpl in H; discriminate.
  - intros H; apply orb_false_iff in H; destruct H as [H1 H2].
    apply orb_false_iff; split; [|auto].
    destruct (Ascii.eqb_spec c c) as [_|N]; [|contradiction].
    destruct (startsWith p (c :: a)) eqn:E; [|reflexivity].
    apply startsWith_app_l with (b := b) in E. simpl app in E. congruence.
Qed.

Lemma takeWhile_dropWhile (cls : ascii -> bool) (s : str) :
  takeWhile cls s ++ dropWhile cls s = s.
Proof.
  induction s as [|c s IH]; simpl; [reflexivity|].
  destruct (cls c); simpl; congruence.
Qed.

Lemma takeWhile_all (cls : ascii -> bool) (s : str) :
  forallb cls (takeWhile cls s) = true.
Proof.
  induction s as [|c s IH]; simpl; [reflexivity|].
  destruct (cls c) eqn:E; simpl; [rewrite E; auto | reflexivity].
Qed.

Lemma dropWhile_head (cls : ascii -> bool) (s : str) c r :
  dropWhile cls s = c :: r -> cls c = false.
Proof.
  induction s as [|d s IH]; simpl; [discriminate|].
  destruct (cls d) eqn:E; [auto | congruence].
Qed.

(** A run of class characters followed by a character outside the class (or
    by nothing) is what [takeWhile] takes. *)
Lemma span_app (cls : ascii -> bool) (w r : str) :
  forallb cls w = true ->
  match r with c :: _ => cls c = false | [] => True end ->
  takeWhile cls (w ++ r) = w /\ dropWhile cls (w ++ r) = r.
Proof.
  intros Hw Hr; induction w as [|c w IH]; simpl in *.
  - destruct r as [|c r]; simpl; [auto|]. rewrite Hr; auto.
  - apply andb_true_iff in Hw; destruct Hw as [Hc Hw].
    rewrite Hc. destruct (IH Hw) as [-> ->]; auto.
Qed.

(* ================================================================= *)
(** ** The pattern matches without backtracking *)

Lemma greedy_blocked (R : Type) (cls : ascii -> bool)
  (k : str -> str -> option R) :
  (forall a c r, cls c = true -> k a (c :: r) = None) ->
  forall s acc,
    greedy cls k s acc = k (acc ++ takeWhile cls s) (dropWhile cls s).
Proof.
  intros Hk; induction s as [|c s IH]; intros acc; simpl.
  - now rewrite app_nil_r.
  - destruct (cls c) eqn:E.
    + rewrite IH, <- app_assoc; simpl.
      rewrite (Hk acc c s E).
      now destruct (k (acc ++ c :: takeWhile cls s) (dropWhile cls s)).
    + now rewrite app_nil_r.
Qed.

Lemma lazy_close (caps : list str) (s acc : str) :
  lazy any_char
    (fun taken rest => run [Lit CLOSE_FILE] rest (push_capture true caps taken))
    s acc
  = option_map (fun br => (caps ++ [fst br], snd br)) (split_at_close s acc).
Proof.
  revert acc; induction s as [|c s IH]; intros acc.
  - cbn [lazy run split_at_close push_capture].
    now destruct (strip_prefix CLOSE_FILE []).
  - cbn [lazy run split_at_close push_capture any_char].
    destruct (strip_prefix CLOSE_FILE (c :: s)); [reflexivity|].
    apply IH.
Qed.

Lemma space_not_p (c : ascii) : is_space c = true -> Ascii.eqb "p" c = false.
Proof.
  destruct (Ascii.eqb_spec "p" c) as [<-|]; [discriminate | reflexivity].
Qed.

Lemma space_not_gt (c : ascii) : is_space c = true -> Ascii.eqb ">" c = false.
Proof.
  destruct (Ascii.eqb_spec ">" c) as [<-|]; [discriminate | reflexivity].
Qed.

Lemma run_fileRegex (s : str) :
  run fileRegex s [] =
  match match_tag s with
  | Some (p, s8) =>
      match split_at_close s8 [] with
      | Some (b, r) => Some ([p; b], r)
      | None => None
      end
  | None => None
  end.
Proof.
  unfold fileRegex, match_tag. cbn [run].
  destruct (strip_prefix OPEN_FILE s) as [s1|]; [|reflexivity].
  rewrite greedy_blocked.
  2:{ intros a c r Hc. destruct (1 <=? length a); [|reflexivity].
      unfold PATH_EQ; cbn [strip_prefix]. now rewrite (space_not_p _ Hc). }
  cbn [app].
  destruct (1 <=? length (takeWhile is_space s1)); [|reflexivity].
  destruct (strip_prefix PATH_EQ (dropWhile is_space s1)) as [[|q1 s4]|];
    try reflexivity.
  destruct (is_quote q1); [|reflexivity].
  rewrite greedy_blocked.
  2:{ intros a c r Hc. destruct (1 <=? length a); [|reflexivity].
      unfold not_quote in Hc. apply negb_true_iff in Hc. now rewrite Hc. }
  cbn [app].
  destruct (1 <=? length (takeWhile not_quote s4)); [|reflexivity].
  destruct (dropWhile not_quote s4) as [|q2 s6]; [reflexivity|].
  destruct (is_quote q2); [|reflexivity].
  rewrite greedy_blocked.
  2:{ intros a c r Hc. cbn [Nat.leb].
      unfold GT; cbn [strip_prefix]. now rewrite (space_not_gt _ Hc). }
  cbn [app Nat.leb].
  destruct (strip_prefix GT (dropWhile is_space s6)) as [s8|]; [|reflexivity].
  cbn [push_capture app].
  pose proof (lazy_close [takeWhile not_quote s4] s8 []) as L.
  cbn [run push_capture app] in L. rewrite L.
  destruct (split_at_close s8 []) as [[b r]|]; reflexivity.
Qed.

Lemma leb1_length (A : Type) (l : list A) :
  (1 <=? length l) = true <-> l <> [].
Proof. destruct l; simpl; split; congruence. Qed.

Lemma match_tag_open ws1 q1 p q2 ws2 (rest : str) :
  tag_ok ws1 q1 p q2 ws2 ->
  match_tag (open_tag ws1 q1 p q2 ws2 ++ rest) = Some (p, rest).
Proof.
  intros [H1 H2 H3 H4 H5 H6 H7].
  unfold match_tag, open_tag.
  repeat (rewrite <- app_assoc || rewrite <- app_comm_cons).
  rewrite strip_prefix_app.
  destruct (span_app is_space ws1
              (PATH_EQ ++ q1 :: p ++ q2 :: ws2 ++ GT ++ rest))
    as [-> ->]; [assumption | reflexivity |].
  apply leb1_length in H1; rewrite H1.
  rewrite strip_prefix_app, H3.
  destruct (span_app not_quote p (q2 :: ws2 ++ GT ++ rest)) as [-> ->];
    [assumption | unfold not_quote; now rewrite H6 |].
  apply leb1_length in H4; rewrite H4, H6.
  destruct (span_app is_space ws2 (GT ++ rest)) as [_ ->];
    [assumption | reflexivity |].
  now rewrite strip_prefix_app.
Qed.

Lemma match_tag_sound (s p r : str) :
  match_tag s = Some (p, r) ->
  exists ws1 q1 q2 ws2,
    tag_ok ws1 q1 p q2 ws2 /\ s = open_tag ws1 q1 p q2 ws2 ++ r.
Proof.
  unfold match_tag.
  destruct (strip_prefix OPEN_FILE s) as [s1|] eqn:E1; [|discriminate].
  destruct (1 <=? length (takeWhile is_space s1)) eqn:L1; [|discriminate].
  destruct (strip_prefix PATH_EQ (dropWhile is_space s1)) as [[|q1 s4]|] eqn:E2;
    try discriminate.
  destruct (is_quote q1) eqn:Q1; [|discriminate].
  destruct (1 <=? length (takeWhile not_quote s4)) eqn:L2; [|discriminate].
  destruct (dropWhile not_quote s4) as [|q2 s6] eqn:E3; [discriminate|].
  destruct (is_quote q2) eqn:Q2; [|discriminate].
  destruct (strip_prefix GT (dropWhile is_space s6)) as [s8|] eqn:E4;
    [|discriminate].
  intros H; inversion H; subst p r; clear H.
  exists (takeWhile is_space s1), q1, q2, (takeWhile is_space s6).
  split.
  - constructor; auto using takeWhile_all; now apply leb1_length.
  - apply strip_prefix_Some in E1, E2, E4.
    unfold open_tag.
    repeat (rewrite <- app_assoc || rewrite <- app_comm_cons).
    rewrite <- E4, takeWhile_dropWhile, <- E3, takeWhile_dropWhile.
    now rewrite <- E2, takeWhile_dropWhile.
Qed.

(** ** The first closing tag *)

Lemma split_at_close_acc (s acc : str) :
  split_at_close s acc =
  option_map (fun br => (acc ++ fst br, snd br)) (split_at_close s []).
Proof.
  revert acc; induction s as [|c s IH]; intros acc;
    cbn [split_at_close].
  - destruct (strip_prefix CLOSE_FILE []); simpl; [now rewrite app_nil_r|auto].
  - destruct (strip_prefix CLOSE_FILE (c :: s)); simpl;
      [now rewrite app_nil_r|].
    rewrite IH, (IH [c]).
    destruct (split_at_close s []) as [[b r]|]; simpl; [|reflexivity].
    now rewrite <- app_assoc.
Qed.

Lemma split_at_close_sound (s b r : str) :
  split_at_close s [] = Some (b, r) ->
  s = b ++ CLOSE_FILE ++ r /\ contains CLOSE_FILE b = false.
Proof.
  revert b; induction s as [|c s IH]; intros b; cbn [split_at_close].
  - discriminate.
  - destruct (strip_prefix CLOSE_FILE (c :: s)) as [r'|] eqn:E.
    + intros H; inversion H; subst. apply strip_prefix_Some in E.
      split; [exact E | reflexivity].
    + rewrite split_at_close_acc.
      destruct (split_at_close s []) as [[b' r']|]; [|discriminate].
      simpl. intros H; inversion H; subst.
      destruct (IH b' eq_refl) as [-> Hb']. split; [reflexivity|].
      cbn [contains]. rewrite Hb', orb_false_r.
      destruct (startsWith CLOSE_FILE (c :: b')) eqn:S; [|reflexivity].
      apply startsWith_app_l with (b := CLOSE_FILE ++ r) in S.
      apply strip_prefix_startsWith in E. simpl app in *. congruence.
Qed.

Ltac clash H :=
  repeat (apply andb_true_iff in H; let H' := fresh in destruct H as [H' H]);
  repeat match goal with
    | X : Ascii.eqb ?a ?b = true |- _ =>
        first [ assert (Ascii.eqb a b = false) by reflexivity; congruence
              | clear X ]
    end.

(** The closing tag does not overlap itself: a closing tag that starts
    inside [b] in [b ++ CLOSE_FILE ++ r] lies within [b]. *)
Lemma close_no_border (b r : str) :
  startsWith CLOSE_FILE (b ++ CLOSE_FILE ++ r) = true ->
  b = [] \/ startsWith CLOSE_FILE b = true.
Proof.
  intros H.
  destruct b as [|c1 b]; [now left|]. right.
  do 6 (destruct b as [|? b];
        [exfalso; unfold CLOSE_FILE in H; cbn [startsWith app] in H; clash H|]).
  unfold CLOSE_FILE in *; cbn [startsWith app] in *.
  repeat (apply andb_true_iff in H; let H' := fresh in destruct H as [H' H]).
  repeat (apply andb_true_iff; split); auto.
Qed.

Lemma split_at_close_first (b r : str) :
  contains CLOSE_FILE b = false ->
  split_at_close (b ++ CLOSE_FILE ++ r) [] = Some (b, r).
Proof.
  induction b as [|c b IH]; intros Hb.
  - destruct r; reflexivity.
  - assert (E : strip_prefix CLOSE_FILE ((c :: b) ++ CLOSE_FILE ++ r) = None).
    { apply strip_prefix_startsWith.
      destruct (startsWith CLOSE_FILE ((c :: b) ++ CLOSE_FILE ++ r)) eqn:S;
        [|reflexivity].
      apply close_no_border in S. destruct S as [S|S]; [discriminate|].
      apply contains_startsWith in Hb. congruence. }
    change ((c :: b) ++ CLOSE_FILE ++ r)
      with (c :: (b ++ CLOSE_FILE ++ r)) in *.
    cbn [split_at_close]. rewrite E, split_at_close_acc, IH.
    + reflexivity.
    + simpl in Hb. apply orb_false_iff in Hb. tauto.
Qed.

Lemma contains_intro (p a b : str) : contains p (a ++ p ++ b) = true.
Proof.
  induction a as [|c a IH]; simpl.
  - destruct (p ++ b) eqn:E; simpl; rewrite <- E, startsWith_app; reflexivity.
  - rewrite IH; apply orb_true_r.
Qed.

(** ** One match of the pattern *)

Lemma run_decl ws1 q1 p q2 ws2 (body post : str) :
  tag_ok ws1 q1 p q2 ws2 ->
  contains CLOSE_FILE body = false ->
  run fileRegex (open_tag ws1 q1 p q2 ws2 ++ body ++ CLOSE_FILE ++ post) []
  = Some ([p; body], post).
Proof.
  intros Ht Hb.
  rewrite run_fileRegex.
  rewrite match_tag_open by exact Ht.
  now rewrite split_at_close_first by exact Hb.
Qed.

Lemma run_sound (s : str) caps (rest : str) :
  run fileRegex s [] = Some (caps, rest) ->
  exists ws1 q1 p q2 ws2 body,
    tag_ok ws1 q1 p q2 ws2 /\ contains CLOSE_FILE body = false /\
    caps = [p; body] /\
    s = open_tag ws1 q1 p q2 ws2 ++ body ++ CLOSE_FILE ++ rest.
Proof.
  rewrite run_fileRegex.
  destruct (match_tag s) as [[p s8]|] eqn:Et; [|discriminate].
  destruct (split_at_close s8 []) as [[b r]|] eqn:Ec; [|discriminate].
  intros H; inversion H; subst.
  apply match_tag_sound in Et. destruct Et as (ws1 & q1 & q2 & ws2 & Ht & ->).
  apply split_at_close_sound in Ec. destruct Ec as [-> Hb].
  now exists ws1, q1, p, q2, ws2, b.
Qed.

Lemma run_no_open (s : str) :
  startsWith OPEN_FILE s = false -> run fileRegex s [] = None.
Proof.
  intros H. rewrite run_fileRegex. unfold match_tag.
  apply strip_prefix_startsWith in H. now rewrite H.
Qed.

Lemma run_no_close (s : str) :
  contains CLOSE_FILE s = false -> run fileRegex s [] = None.
Proof.
  intros H. destruct (run fileRegex s []) as [[caps rest]|] eqn:E;
    [|reflexivity].
  apply run_sound in E.
  destruct E as (ws1 & q1 & p & q2 & ws2 & body & _ & _ & _ & ->).
  rewrite app_assoc, contains_intro in H. discriminate.
Qed.

Lemma open_tag_nonempty ws1 q1 p q2 ws2 : open_tag ws1 q1 p q2 ws2 <> [].
Proof. discriminate. Qed.

(** ** The loop, by recursion on the text *)

Lemma scan_skip (a b : str) : scan (length a) (a ++ b) = scan 0 b.
Proof. induction a as [|c a IH]; simpl; auto. Qed.

Lemma scan_hit (m rest : str) caps :
  m <> [] ->
  run fileRegex (m ++ rest) [] = Some (caps, rest) ->
  scan 0 (m ++ rest) =
  file_of_match {| index := 0; groups := caps; endIndex := 0 |}
    :: scan 0 rest.
Proof.
  destruct m as [|c m]; [congruence|]. intros _ H.
  change ((c :: m) ++ rest) with (c :: (m ++ rest)) in *.
  cbn [scan]. rewrite H. f_equal.
  rewrite length_app, Nat.add_sub. apply scan_skip.
Qed.

Lemma scan_decl ws1 q1 p q2 ws2 (body post : str) :
  tag_ok ws1 q1 p q2 ws2 ->
  contains CLOSE_FILE body = false ->
  scan 0 (open_tag ws1 q1 p q2 ws2 ++ body ++ CLOSE_FILE ++ post)
  = artifact p body :: scan 0 post.
Proof.
  intros Ht Hb.
  pose proof (@run_decl ws1 q1 p q2 ws2 body post Ht Hb) as H.
  replace (open_tag ws1 q1 p q2 ws2 ++ body ++ CLOSE_FILE ++ post)
    with ((open_tag ws1 q1 p q2 ws2 ++ body ++ CLOSE_FILE) ++ post) in *
    by now rewrite <- !app_assoc.
  rewrite (@scan_hit _ post [p; body]); [reflexivity| |exact H].
  intros E. apply app_eq_nil in E. destruct E as [E _].
  now apply open_tag_nonempty in E.
Qed.


Lemma open_no_straddle (b s : str) :
  startsWith OPEN_FILE (b ++ "<"%char :: s) = true ->
  b = [] \/ startsWith OPEN_FILE b = true.
Proof.
  intros H.
  destruct b as [|c1 b]; [now left|]. right.
  do 4 (destruct b as [|? b];
        [exfalso; unfold OPEN_FILE in H; cbn [startsWith app] in H; clash H|]).
  unfold OPEN_FILE in *; cbn [startsWith app] in *.
  repeat (apply andb_true_iff in H; let H' := fresh in destruct H as [H' H]).
  repeat (apply andb_true_iff; split); auto.
Qed.

(** Text without [<file] before a [<] starts no match. *)
Lemma scan_no_open (pre s : str) :
  contains OPEN_FILE pre = false ->
  scan 0 (pre ++ "<"%char :: s) = scan 0 ("<"%char :: s).
Proof.
  induction pre as [|c pre IH]; intros H; [reflexivity|].
  assert (Hp : contains OPEN_FILE pre = false).
  { simpl in H. apply orb_false_iff in H. tauto. }
  change ((c :: pre) ++ "<"%char :: s) with (c :: (pre ++ "<"%char :: s)).
  cbn [scan]. rewrite run_no_open; [auto|].
  destruct (startsWith OPEN_FILE (c :: pre ++ "<"%char :: s)) eqn:E;
    [|reflexivity].
  apply (open_no_straddle (c :: pre)) in E. destruct E as [E|E];
    [discriminate|].
  apply contains_startsWith in H. congruence.
Qed.

Lemma scan_sound (s : str) (k : nat) (f : ProjectFile) :
  In f (scan k s) ->
  exists pre ws1 q1 p q2 ws2 body post,
    s = pre ++ open_tag ws1 q1 p q2 ws2 ++ body ++ CLOSE_FILE ++ post /\
    tag_ok ws1 q1 p q2 ws2 /\ contains CLOSE_FILE body = false /\
    f = artifact p body.
Proof.
  revert k; induction s as [|c s IH]; intros k; [intros []|].
  cbn [scan].
  assert (Step : forall k', In f (scan k' s) ->
    exists pre ws1 q1 p q2 ws2 body post,
      c :: s = pre ++ open_tag ws1 q1 p q2 ws2 ++ body ++ CLOSE_FILE ++ post /\
      tag_ok ws1 q1 p q2 ws2 /\ contains CLOSE_FILE body = false /\
      f = artifact p body).
  { intros k' H. apply IH in H.
    destruct H as (pre & ws1 & q1 & p & q2 & ws2 & body & post & -> & H).
    now exists (c :: pre), ws1, q1, p, q2, ws2, body, post. }
  destruct k as [|k]; [|apply Step].
  destruct (run fileRegex (c :: s) []) as [[caps rest]|] eqn:E; [|apply Step].
  intros [<-|H]; [|now apply Step in H].
  apply run_sound in E.
  destruct E as (ws1 & q1 & p & q2 & ws2 & body & Ht & Hb & -> & E).
  exists [], ws1, q1, p, q2, ws2, body, rest. now rewrite E.
Qed.

(** ** The loop on the regular expression object *)

Lemma search_eq (p : pattern) (s : str) (i : nat) :
  search p s i =
  match run p s [] with
  | Some (caps, rest) =>
      Some {| index := i; groups := caps;
              endIndex := i + (length s - length rest) |}
  | None =>
      match s with
      | [] => None
      | _ :: s' => search p s' (S i)
      end
  end.
Proof. destruct s; reflexivity. Qed.

Lemma search_miss (s : str) (i : nat) :
  search fileRegex s i = None -> scan 0 s = [].
Proof.
  revert i; induction s as [|c s IH]; intros i; [reflexivity|].
  cbn [search scan].
  destruct (run fileRegex (c :: s) []) as [[caps rest]|]; [discriminate|].
  apply IH.
Qed.

Lemma search_hit (s : str) (i : nat) (m : Match) :
  search fileRegex s i = Some m ->
  i < endIndex m /\ endIndex m <= i + length s /\
  scan 0 s = file_of_match m :: scan 0 (skipn (endIndex m - i) s).
Proof.
  revert i m; induction s as [|c s IH]; intros i m.
  - rewrite search_eq, run_no_close by reflexivity. discriminate.
  - rewrite search_eq.
    destruct (run fileRegex (c :: s) []) as [[caps rest]|] eqn:E.
    + remember (length (c :: s) - length rest) as n eqn:En.
      intros [= <-]. cbn [endIndex].
      pose proof E as E'. apply run_sound in E'.
      destruct E' as (ws1 & q1 & p & q2 & ws2 & body & _ & _ & _ & E').
      set (mm := open_tag ws1 q1 p q2 ws2 ++ body ++ CLOSE_FILE).
      assert (Es : c :: s = mm ++ rest)
        by (unfold mm; now rewrite <- !app_assoc).
      assert (Hm : mm <> []).
      { unfold mm; intros N; apply app_eq_nil in N; destruct N as [N _].
        now apply open_tag_nonempty in N. }
      assert (Hl : 0 < length mm) by (destruct mm; [congruence | simpl; lia]).
      rewrite Es in E, En |- *. rewrite length_app in *.
      replace (i + n - i) with (length mm) by lia.
      rewrite skipn_app, skipn_all, Nat.sub_diag. cbn [skipn app].
      repeat split; try lia.
      now apply scan_hit.
    + intros H. apply IH in H. destruct H as (H1 & H2 & H3).
      cbn [length scan]. rewrite E.
      replace (endIndex m - i) with (S (endIndex m - S i)) by lia.
      cbn [skipn]. repeat split; try lia. exact H3.
Qed.

Lemma exec_loop_scan (fuel i : nat) (text : str) (fs : list ProjectFile) :
  i <= length text -> length text - i < fuel ->
  exec_loop fuel {| lastIndex := i |} text fs
  = Some (fs ++ scan 0 (skipn i text), fresh_regex).
Proof.
  revert i fs; induction fuel as [|fuel IH]; intros i fs Hi Hf; [lia|].
  cbn [exec_loop]. unfold exec. cbn [lastIndex].
  destruct (search fileRegex (skipn i text) i) as [m|] eqn:E.
  - apply search_hit in E. destruct E as (H1 & H2 & H3).
    rewrite length_skipn in H2.
    rewrite IH by lia. rewrite H3, skipn_skipn, <- app_assoc.
    now replace (endIndex m - i + i) with (endIndex m) by lia.
  - apply search_miss in E. now rewrite E, app_nil_r.
Qed.

(** The loop ends, and its files are those of [scan]. *)
Lemma parse_scan (text : str) :
  parseFilesFromResponse text = Some (scan 0 text).
Proof.
  unfold parseFilesFromResponse, fresh_regex.
  rewrite exec_loop_scan by lia. reflexivity.
Qed.

(* ================================================================= *)
(** ** fileParser.ts: the statements *)




(** A declaration with nothing of a tag before it gives its record, and
    then the records of the text after it. *)
Lemma parse_decl (pre ws1 : str) q1 (p : str) q2 (ws2 body post : str) :
  tag_ok ws1 q1 p q2 ws2 ->
  contains OPEN_FILE pre = false ->
  contains CLOSE_FILE body = false ->
  scan 0 (pre ++ open_tag ws1 q1 p q2 ws2 ++ body ++ CLOSE_FILE ++ post)
  = artifact p body :: scan 0 post.
Proof.
  intros Ht Hpre Hb.
  pose proof (@scan_decl ws1 q1 p q2 ws2 body post Ht Hb) as H.
  unfold open_tag, OPEN_FILE in *. cbn [app] in *.
  rewrite scan_no_open by exact Hpre. exact H.
Qed.

(** Settled declarations give their records, one each and in order, and
    then the records of the text after them. *)
Lemma scan_settled (ds : list Decl) (rest : str) :
  Forall decl_ok ds ->
  scan 0 (render_all ds ++ rest) = map artifact_of ds ++ scan 0 rest.
Proof.
  induction 1 as [|d ds (Hpre & Ht & Hb) _ IH]; [reflexivity|].
  unfold render_all in *. cbn [map concat app].
  unfold render at 1, d_tag. rewrite <- !app_assoc.
  rewrite parse_decl by assumption. now rewrite IH.
Qed.





(** Every record of the result comes from a declaration of the text. *)
Lemma emitted_artifact_shape (text : str) files (f : ProjectFile) :
  parseFilesFromResponse text = Some files -> In f files ->
  exists pre ws1 q1 q2 ws2 body post,
    text = pre ++ open_tag ws1 q1 (path f) q2 ws2 ++ body ++ CLOSE_FILE ++ post
    /\ tag_ok ws1 q1 (path f) q2 ws2
    /\ contains CLOSE_FILE body = false
    /\ content f = strip_newline body
    /\ language f = language_of (path f).
Proof.
  rewrite parse_scan. intros [= <-] H. apply scan_sound in H.
  destruct H
    as (pre & ws1 & q1 & p & q2 & ws2 & body & post & E & Ht & Hb & ->).
  now exists pre, ws1, q1, q2, ws2, body, post.
Qed.

Lemma strip_newline_spec (body : str) :
  strip_newline body = without_leading_newline body.
Proof.
  destruct body as [|c b]; [reflexivity|].
  unfold strip_newline, without_leading_newline. cbn [startsWith skipn].
  rewrite Ascii.eqb_sym. now destruct (Ascii.eqb c nl).
Qed.

(** C9: for a complete declaration that follows settled ones, the content
    of its record is the text between its opening tag and the first closing
    tag after it, as it stands, less one line feed at its head when there
    is one; the records of the text after it follow. *)
Theorem content_is_verbatim (ds : list Decl)
  (pre ws1 : str) (q1 : ascii) (p : str) (q2 : ascii) (ws2 body post : str) :
  Forall decl_ok ds ->
  tag_ok ws1 q1 p q2 ws2 ->
  contains OPEN_FILE pre = false ->
  contains CLOSE_FILE body = false ->
  exists later,
    parseFilesFromResponse post = Some later /\
    parseFilesFromResponse
      (render_all ds ++
       pre ++ open_tag ws1 q1 p q2 ws2 ++ body ++ CLOSE_FILE ++ post)
    = Some (map artifact_of ds ++
            {| path := p;
               content := without_leading_newline body;
               language := language_of p |} :: later).
Proof.
  intros Hds Ht Hpre Hb. exists (scan 0 post).
  rewrite !parse_scan, scan_settled, parse_decl by assumption.
  unfold artifact. now rewrite strip_newline_spec.
Qed.

Lemma content_is_verbatim_witness :
  tag_ok (lit " ") sq (lit "a/b.js") sq [] /\
  parseFilesFromResponse
    (lit "Intro " ++ open_tag (lit " ") sq (lit "a/b.js") sq [] ++
     (nl :: nl :: lit " <b> x ") ++ CLOSE_FILE ++ lit " done")
  = Some [ {| path := lit "a/b.js"; content := nl :: lit " <b> x ";
              language := lit "javascript" |} ].
Proof.
  assert (Ht : tag_ok (lit " ") sq (lit "a/b.js") sq []).
  { constructor; try reflexivity; discriminate. }
  split; [exact Ht|].
  destruct (content_is_verbatim [] (lit "Intro ") (lit " ") sq (lit "a/b.js")
              sq [] (nl :: nl :: lit " <b> x ") (lit " done")
              (Forall_nil _) Ht eq_refl eq_refl)
    as (later & H1 & H2).
  vm_compute in H1. injection H1 as <-.
  refine (eq_trans H2 _). reflexivity.
Defined.

(* ----------------------------------------------------------------- *)

(** C10, as stated, fails: the attribute value between the double quotes
    holds a single quote, and the declaration is matched all the same, with
    the value cut at that quote. *)
Lemma quoted_value_is_matched :
  parseFilesFromResponse quoted_value_decl
  = Some [ {| path := lit "a"; content := lit "b" ++ dq :: lit ">c";
              language := lit "text" |} ].
Proof. reflexivity. Qed.

Lemma not_quote_not_In (p : str) :
  forallb not_quote p = true -> ~ In dq p /\ ~ In sq p.
Proof.
  induction p as [|c p IH]; simpl; [tauto|].
  intros H; apply andb_true_iff in H; destruct H as [Hc H].
  destruct (IH H) as [I1 I2].
  split; (intros [E|N]; [subst c; discriminate Hc | auto]).
Qed.

(** C10, amended: every record of the result has a path that is not empty
    and holds no quote character; an opening tag with an empty attribute
    value starts no match; an attribute value is read up to its first quote
    character, so that a tag whose value holds one starts a match only if
    white space and [>] follow that quote, and then with the part before
    the quote as the path. *)
Theorem emitted_path_wellformed :
  (forall text files f,
     parseFilesFromResponse text = Some files -> In f files ->
     path f <> [] /\ ~ In dq (path f) /\ ~ In sq (path f)) /\
  (forall ws1 q1 q2 rest,
     forallb is_space ws1 = true -> is_quote q2 = true ->
     run fileRegex (OPEN_FILE ++ ws1 ++ PATH_EQ ++ q1 :: q2 :: rest) []
     = None) /\
  (forall ws1 q1 v1 q rest caps r,
     forallb is_space ws1 = true ->
     forallb not_quote v1 = true -> is_quote q = true ->
     run fileRegex (OPEN_FILE ++ ws1 ++ PATH_EQ ++ q1 :: v1 ++ q :: rest) []
     = Some (caps, r) ->
     nth 0 caps [] = v1 /\ startsWith GT (dropWhile is_space rest) = true).
Proof.
  split; [|split].
  - intros text files f Hp Hf.
    destruct (@emitted_artifact_shape text files f Hp Hf)
      as (pre & ws1 & q1 & q2 & ws2 & body & post & _ & Ht & _).
    destruct Ht as [_ _ _ Hne Hnq _ _].
    split; [exact Hne | now apply not_quote_not_In].
  - intros ws1 q1 q2 rest Hws Hq2.
    rewrite run_fileRegex. unfold match_tag.
    rewrite strip_prefix_app.
    destruct (span_app is_space ws1 (PATH_EQ ++ q1 :: q2 :: rest))
      as [-> ->]; [assumption | reflexivity |].
    destruct (1 <=? length ws1); [|reflexivity].
    rewrite strip_prefix_app.
    destruct (is_quote q1); [|reflexivity].
    cbn [takeWhile]. unfold not_quote at 1. rewrite Hq2. reflexivity.
  - intros ws1 q1 v1 q rest caps r Hws Hv Hq.
    rewrite run_fileRegex. unfold match_tag.
    rewrite strip_prefix_app.
    destruct (span_app is_space ws1 (PATH_EQ ++ q1 :: v1 ++ q :: rest))
      as [-> ->]; [assumption | reflexivity |].
    destruct (1 <=? length ws1); [|discriminate].
    rewrite strip_prefix_app.
    destruct (is_quote q1); [|discriminate].
    destruct (span_app not_quote v1 (q :: rest)) as [-> ->];
      [assumption | unfold not_quote; now rewrite Hq |].
    destruct (1 <=? length v1); [|discriminate].
    rewrite Hq.
    destruct (strip_prefix GT (dropWhile is_space rest)) as [s8|] eqn:E;
      [|discriminate].
    destruct (split_at_close s8 []) as [[b r']|]; [|discriminate].
    intros [= <- <-]. split; [reflexivity|].
    apply strip_prefix_Some in E. rewrite E. apply startsWith_app.
Qed.

Lemma emitted_path_wellformed_witness :
  (forall f, In f [ {| path := lit "a"; content := lit "b" ++ dq :: lit ">c";
                       language := lit "text" |} ] ->
             path f <> [] /\ ~ In dq (path f) /\ ~ In sq (path f)) /\
  run fileRegex (OPEN_FILE ++ lit " " ++ PATH_EQ ++ dq :: dq :: lit ">x</file>")
      [] = None.
Proof.
  destruct emitted_path_wellformed as (H1 & H2 & _). split.
  - intros f Hf. exact (H1 quoted_value_decl _ f eq_refl Hf).
  - apply H2; reflexivity.
Defined.

(* ----------------------------------------------------------------- *)

(** ** The language of a path *)

Lemma pop_last (A : Type) (l : list A) (a : A) : pop (l ++ [a]) = Some a.
Proof. unfold pop. now rewrite rev_app_distr. Qed.

Lemma split_no_sep (sep : ascii) (s : str) :
  ~ In sep s -> split sep s = [s].
Proof.
  induction s as [|c s IH]; intros H; [reflexivity|].
  cbn [split]. destruct (Ascii.eqb_spec c sep) as [->|N].
  - exfalso; apply H; now left.
  - rewrite IH; [reflexivity|]. intros I; apply H; now right.
Qed.

Lemma split_last (sep : ascii) (stem ext : str) :
  ~ In sep ext ->
  exists h init, split sep (stem ++ sep :: ext) = h :: init ++ [ext].
Proof.
  intros H. induction stem as [|c stem (h & init & IH)].
  - exists [], []. cbn [app split]. rewrite Ascii.eqb_refl.
    now rewrite split_no_sep.
  - change ((c :: stem) ++ sep :: ext) with (c :: (stem ++ sep :: ext)).
    cbn [split]. rewrite IH. destruct (Ascii.eqb c sep).
    + now exists [], (h :: init).
    + now exists (c :: h), init.
Qed.

Lemma language_by_table (e : str) :
  (if includes JS_EXTS (or_default e (lit "text")) then lit "javascript"
   else if includes [lit "html"] (or_default e (lit "text")) then lit "html"
   else if includes [lit "css"] (or_default e (lit "text")) then lit "css"
   else if includes [lit "json"] (or_default e (lit "text")) then lit "json"
   else if includes [lit "py"] (or_default e (lit "text")) then lit "python"
   else lit "text") = language_table e.
Proof.
  destruct e as [|c e]; [reflexivity|].
  unfold language_table, includes, JS_EXTS, or_default. cbn [existsb].
  now rewrite !orb_false_r, !orb_assoc.
Qed.

(** With a dot in the path, the language is read in the table at the
    lowercased text after the last dot. *)
Lemma language_of_dotted (stem ext : str) :
  ~ In "."%char ext ->
  language_of (stem ++ "."%char :: ext) = language_table (toLowerCase ext).
Proof.
  intros H. unfold language_of.
  destruct (split_last "."%char stem ext H) as (h & init & ->).
  rewrite app_comm_cons, pop_last. apply language_by_table.
Qed.

(** Without a dot, the whole path is read in the table. *)
Lemma language_of_dotless (p : str) :
  ~ In "."%char p -> language_of p = language_table (toLowerCase p).
Proof.
  intros H. unfold language_of. rewrite split_no_sep by exact H.
  apply language_by_table.
Qed.

(** C8 at a path without a dot: the whole name is taken for the extension,
    and the file called py gets the language python where the table of the
    claim gives text. *)
Theorem dotless_path_language :
  contains (lit ".") (lit "py") = false /\
  parseFilesFromResponse dotless_decl
  = Some [ {| path := lit "py"; content := lit "x";
              language := lit "python" |} ].
Proof. split; reflexivity. Qed.

(* ================================================================= *)
(** ** App.tsx: the file store, statements *)

Lemma mem_In (k : str) (ks : list str) : mem k ks = true <-> In k ks.
Proof.
  unfold mem. rewrite existsb_exists. split.
  - intros (x & Hx & E). apply str_eqb_eq in E. now subst.
  - intros H. exists k. split; [assumption | apply str_eqb_refl].
Qed.

Lemma mem_not_In (k : str) (ks : list str) : mem k ks = false <-> ~ In k ks.
Proof.
  rewrite <- mem_In. destruct (mem k ks); split; congruence.
Qed.

Lemma setFiles_put_all (b st : list ProjectFile) :
  setFiles_update b st = map snd (put_all (st ++ b) []).
Proof.
  unfold setFiles_update, new_Map, map_values, put_all.
  rewrite fold_left_app. f_equal. f_equal.
  generalize (@nil (str * ProjectFile)).
  induction st as [|f st IH]; intros m; simpl; auto.
Qed.

Lemma keys_map_set (k : str) (v : ProjectFile) (m : JSMap ProjectFile) :
  map fst (map_set k v m) =
  if mem k (map fst m) then map fst m else map fst m ++ [k].
Proof.
  induction m as [|[k' v'] m IH]; [reflexivity|].
  cbn [map_set map fst mem existsb]. fold (mem k (map fst m)).
  rewrite (str_eqb_sym k k').
  destruct (str_eqb k' k) eqn:E; cbn [orb map fst].
  - apply str_eqb_eq in E. now subst.
  - rewrite IH. now destruct (mem k (map fst m)).
Qed.

Lemma get_map_set (k k' : str) (v : ProjectFile) (m : JSMap ProjectFile) :
  map_get k (map_set k' v m) =
  if str_eqb k' k then Some v else map_get k m.
Proof.
  induction m as [|[k0 v0] m IH]; cbn [map_set map_get].
  - reflexivity.
  - destruct (str_eqb k0 k') eqn:E0; cbn [map_get].
    + apply str_eqb_eq in E0; subst k0.
      now destruct (str_eqb k' k).
    + rewrite IH. destruct (str_eqb k0 k) eqn:E1; [|reflexivity].
      apply str_eqb_eq in E1; subst k0. now rewrite str_eqb_sym, E0.
Qed.

Lemma well_keyed_set (f : ProjectFile) (m : JSMap ProjectFile) :
  well_keyed m -> well_keyed (map_set (path f) f m).
Proof.
  intros [Hn Hk]. split.
  - rewrite keys_map_set. destruct (mem (path f) (map fst m)) eqn:E; auto.
    apply mem_not_In in E.
    apply NoDup_app; auto; [repeat constructor; auto|].
    intros x Hx [<-|[]]; contradiction.
  - clear Hn. induction m as [|[k v] m IH]; cbn [map_set].
    + repeat constructor.
    + inversion Hk; subst. destruct (str_eqb k (path f)).
      * constructor; auto.
      * constructor; auto.
Qed.

Lemma well_keyed_put_all (l : list ProjectFile) (m : JSMap ProjectFile) :
  well_keyed m -> well_keyed (put_all l m).
Proof.
  revert m; induction l as [|f l IH]; intros m H; [exact H|].
  apply IH, well_keyed_set, H.
Qed.

Lemma well_keyed_nil : well_keyed [].
Proof. split; constructor. Qed.

Lemma map_set_fresh (k : str) (v : ProjectFile) (m : JSMap ProjectFile) :
  ~ In k (map fst m) -> map_set k v m = m ++ [(k, v)].
Proof.
  induction m as [|[k' v'] m IH]; intros H; [reflexivity|].
  cbn [map_set]. destruct (str_eqb k' k) eqn:E.
  - apply str_eqb_eq in E. exfalso; apply H; now left.
  - rewrite IH; [reflexivity|]. intros I; apply H; now right.
Qed.

(** Reading the values of a well-keyed map back into a map gives it. *)
Lemma put_all_values (m2 m1 : JSMap ProjectFile) :
  well_keyed (m1 ++ m2) -> put_all (map snd m2) m1 = m1 ++ m2.
Proof.
  revert m1; induction m2 as [|[k v] m2 IH]; intros m1 [Hn Hk].
  - now rewrite app_nil_r.
  - cbn [map snd put_all fold_left].
    assert (Ek : k = path v).
    { apply Forall_app in Hk. destruct Hk as [_ Hk]. now inversion Hk. }
    rewrite <- Ek. rewrite map_set_fresh.
    + fold (put_all (map snd m2) (m1 ++ [(k, v)])).
      rewrite IH.
      * now rewrite <- app_assoc.
      * rewrite <- app_assoc. split; [exact Hn | exact Hk].
    + rewrite map_app in Hn. apply NoDup_remove_2 in Hn.
      intros I; apply Hn. apply in_or_app; now left.
Qed.

Lemma put_all_app (a b : list ProjectFile) (m : JSMap ProjectFile) :
  put_all (a ++ b) m = put_all b (put_all a m).
Proof. apply fold_left_app. Qed.

Lemma setFiles_twice (b1 b2 st : list ProjectFile) :
  setFiles_update b2 (setFiles_update b1 st) = setFiles_update (b1 ++ b2) st.
Proof.
  rewrite !setFiles_put_all. f_equal.
  rewrite put_all_app, (put_all_values _ []).
  - cbn [app]. now rewrite app_assoc, <- put_all_app.
  - apply well_keyed_put_all, well_keyed_nil.
Qed.

Lemma store_after_concat (batches : list (list ProjectFile))
  (st : list ProjectFile) :
  store_after batches st =
  match concat batches with
  | [] => st
  | _ :: _ => setFiles_update (concat batches) st
  end.
Proof.
  revert st; induction batches as [|b bs IH]; intros st; [reflexivity|].
  cbn [store_after fold_left concat]. fold (store_after bs (files_step b st)).
  rewrite IH. destruct b as [|f b]; [reflexivity|].
  cbn [files_step app]. destruct (concat bs) as [|g l] eqn:E.
  - now rewrite app_nil_r.
  - now rewrite setFiles_twice.
Qed.

(** ** Order of the keys *)

Lemma filter_all (A : Type) (g : A -> bool) (l : list A) :
  (forall x, In x l -> g x = true) -> filter g l = l.
Proof.
  induction l as [|a l IH]; intros H; [reflexivity|].
  cbn [filter]. rewrite (H a (or_introl eq_refl)), IH; auto.
  intros x Hx; apply H; now right.
Qed.

Lemma filter_comm (A : Type) (g h : A -> bool) (l : list A) :
  filter g (filter h l) = filter h (filter g l).
Proof.
  induction l as [|a l IH]; [reflexivity|].
  cbn [filter]. destruct (h a) eqn:Eh, (g a) eqn:Eg; cbn [filter];
    rewrite ?Eh, ?Eg, IH; reflexivity.
Qed.

Lemma first_occurrences_In (l : list str) (k : str) :
  In k (first_occurrences l) <-> In k l.
Proof.
  induction l as [|x l IH]; [reflexivity|].
  cbn [first_occurrences In]. rewrite filter_In, IH, negb_true_iff.
  split.
  - tauto.
  - intros [->|H]; [now left|].
    destruct (str_eqb k x) eqn:E; [left; symmetry; now apply str_eqb_eq|].
    now right.
Qed.

Lemma first_occurrences_filter (g : str -> bool) (l : list str) :
  filter g (first_occurrences l) = first_occurrences (filter g l).
Proof.
  induction l as [|x l IH]; [reflexivity|].
  cbn [first_occurrences filter].
  rewrite filter_comm, IH.
  destruct (g x) eqn:E; [reflexivity|].
  apply filter_all. intros y Hy.
  apply first_occurrences_In, filter_In in Hy. destruct Hy as [_ Hy].
  apply negb_true_iff, str_eqb_neq. congruence.
Qed.

Lemma first_occurrences_NoDup (l : list str) : NoDup (first_occurrences l).
Proof.
  induction l as [|x l IH]; [constructor|].
  cbn [first_occurrences]. constructor.
  - rewrite filter_In, negb_true_iff, str_eqb_neq. tauto.
  - now apply NoDup_filter.
Qed.

Lemma keys_put_all (l : list ProjectFile) (m : JSMap ProjectFile) :
  map fst (put_all l m) =
  map fst m ++
    first_occurrences (filter (fun k => negb (mem k (map fst m)))
                              (map path l)).
Proof.
  revert m; induction l as [|f l IH]; intros m.
  - cbn. now rewrite app_nil_r.
  - cbn [put_all fold_left]. fold (put_all l (map_set (path f) f m)).
    rewrite IH, keys_map_set. cbn [map filter].
    destruct (mem (path f) (map fst m)) eqn:E; cbn [negb]; [reflexivity|].
    rewrite <- app_assoc. f_equal. cbn [app first_occurrences]. f_equal.
    rewrite first_occurrences_filter, filter_comm.
    f_equal. rewrite <- (filter_comm _ (fun k' => negb (str_eqb k' (path f)))).
    clear. induction (map path l) as [|k ks IH]; [reflexivity|].
    cbn [filter]. unfold mem at 1. rewrite existsb_app. cbn [existsb].
    fold (mem k (map fst m)). rewrite orb_false_r.
    destruct (mem k (map fst m)); cbn [orb negb filter]; [exact IH|].
    destruct (str_eqb k (path f)); cbn [negb filter]; now rewrite IH.
Qed.

Lemma keys_from_empty (l : list ProjectFile) :
  map fst (put_all l []) = first_occurrences (map path l).
Proof.
  rewrite keys_put_all. cbn [map app]. f_equal.
  apply filter_all. reflexivity.
Qed.

(** ** The values *)

Lemma find_last (A : Type) (g : A -> bool) (l : list A) (a : A) :
  find g (l ++ [a]) =
  match find g l with
  | Some b => Some b
  | None => if g a then Some a else None
  end.
Proof.
  induction l as [|b l IH]; [reflexivity|].
  cbn [app find]. now destruct (g b).
Qed.

Lemma last_with_path_app (p : str) (a b : list ProjectFile) :
  last_with_path p (a ++ b) =
  match last_with_path p b with
  | Some f => Some f
  | None => last_with_path p a
  end.
Proof.
  unfold last_with_path. rewrite rev_app_distr.
  induction (rev b) as [|x l IH]; [reflexivity|].
  cbn [app find]. now destruct (str_eqb (path x) p).
Qed.

Lemma last_with_path_Some (p : str) (l : list ProjectFile) :
  In p (map path l) -> exists f, last_with_path p l = Some f.
Proof.
  intros H. unfold last_with_path.
  destruct (find (fun f => str_eqb (path f) p) (rev l)) as [f|] eqn:E;
    [now exists f|].
  apply in_map_iff in H. destruct H as (f & <- & Hf).
  apply in_rev in Hf. apply (find_none _ _ E) in Hf.
  now rewrite str_eqb_refl in Hf.
Qed.

Lemma last_with_path_None (p : str) (l : list ProjectFile) :
  ~ In p (map path l) -> last_with_path p l = None.
Proof.
  intros H. unfold last_with_path.
  destruct (find (fun f => str_eqb (path f) p) (rev l)) as [f|] eqn:E;
    [|reflexivity].
  apply find_some in E. destruct E as [Hf E].
  apply str_eqb_eq in E. exfalso; apply H.
  rewrite <- E. apply in_map. now apply in_rev.
Qed.

Lemma get_put_all (k : str) (l : list ProjectFile) (m : JSMap ProjectFile) :
  map_get k (put_all l m) =
  match last_with_path k l with
  | Some f => Some f
  | None => map_get k m
  end.
Proof.
  revert m; induction l as [|f l IH]; intros m; [reflexivity|].
  cbn [put_all fold_left]. fold (put_all l (map_set (path f) f m)).
  rewrite IH, get_map_set.
  change (f :: l) with ([f] ++ l). rewrite last_with_path_app.
  destruct (last_with_path k l); [reflexivity|].
  unfold last_with_path. cbn [rev app find].
  now destruct (str_eqb (path f) k).
Qed.

Lemma find_values (k : str) (m : JSMap ProjectFile) :
  Forall (fun kv => fst kv = path (snd kv)) m ->
  find (fun f => str_eqb (path f) k) (map snd m) = map_get k m.
Proof.
  induction 1 as [|[k' v] m E _ IH]; [reflexivity|].
  cbn [map snd find map_get]. cbn [fst snd] in E. rewrite <- E.
  destruct (str_eqb k' k); [reflexivity | exact IH].
Qed.

Lemma paths_values (m : JSMap ProjectFile) :
  Forall (fun kv => fst kv = path (snd kv)) m ->
  map path (map snd m) = map fst m.
Proof.
  induction 1 as [|[k' v] m E _ IH]; [reflexivity|].
  cbn [map fst snd] in *. now rewrite IH, E.
Qed.

Lemma one_of_NoDup (p : str) (l : list ProjectFile) :
  NoDup (map path l) -> In p (map path l) ->
  length (filter (fun f => str_eqb (path f) p) l) = 1.
Proof.
  induction l as [|f l IH]; intros Hn Hi; [destruct Hi|].
  cbn [map] in Hn. inversion Hn as [|? ? Hf Hn']; subst.
  cbn [filter]. destruct (str_eqb (path f) p) eqn:E.
  - apply str_eqb_eq in E. cbn [length]. f_equal.
    rewrite (proj2 (length_zero_iff_nil _)); [reflexivity|].
    destruct (filter (fun f0 => str_eqb (path f0) p) l) as [|g r] eqn:F;
      [reflexivity|].
    assert (G : In g (filter (fun f0 => str_eqb (path f0) p) l))
      by (rewrite F; now left).
    apply filter_In in G. destruct G as [G1 G2]. apply str_eqb_eq in G2.
    exfalso; apply Hf. rewrite E, <- G2. now apply in_map.
  - apply IH; auto. destruct Hi as [Hi|Hi]; [|exact Hi].
    cbn in Hi. rewrite Hi, str_eqb_refl in E. discriminate.
Qed.

(** C2: after the parsed files of a turn have gone into the store, a path
    that was parsed at least once has exactly one entry, that entry is the
    last record parsed for it, and the paths of the store are those of the
    store before followed by the parsed ones, each at its first occurrence;
    an entry whose path was not parsed is the one the store had. *)
Theorem upsert_keeps_position
  (batches : list (list ProjectFile)) (st : list ProjectFile) (p : str) :
  In p (map path (concat batches)) ->
  let final := store_after batches st in
  length (filter (fun f => str_eqb (path f) p) final) = 1 /\
  find (fun f => str_eqb (path f) p) final
    = last_with_path p (concat batches) /\
  map path final
    = first_occurrences (map path st ++ map path (concat batches)) /\
  (forall q, ~ In q (map path (concat batches)) ->
     find (fun f => str_eqb (path f) q) final = last_with_path q st).
Proof.
  intros Hp final. unfold final.
  rewrite store_after_concat.
  destruct (concat batches) as [|g l] eqn:E; [destruct Hp|].
  rewrite <- E in *. clear E g l.
  rewrite setFiles_put_all.
  set (M := put_all (st ++ concat batches) []).
  assert (W : well_keyed M) by apply well_keyed_put_all, well_keyed_nil.
  destruct W as [Wn Wk].
  assert (K : map path (map snd M)
              = first_occurrences (map path st ++ map path (concat batches))).
  { rewrite paths_values by exact Wk. unfold M.
    now rewrite keys_from_empty, map_app. }
  assert (G : forall k, find (fun f => str_eqb (path f) k) (map snd M) =
      match last_with_path k (concat batches) with
      | Some f => Some f
      | None => last_with_path k st
      end).
  { intros k. rewrite find_values by exact Wk. unfold M.
    rewrite get_put_all, last_with_path_app.
    destruct (last_with_path k (concat batches)); [reflexivity|].
    now destruct (last_with_path k st). }
  split; [|split; [|split]].
  - apply one_of_NoDup.
    + rewrite K. apply first_occurrences_NoDup.
    + rewrite K. apply first_occurrences_In, in_or_app. now right.
  - rewrite G. now destruct (last_with_path_Some _ _ Hp) as [f ->].
  - exact K.
  - intros q Hq. now rewrite G, (last_with_path_None _ _ Hq).
Qed.

Lemma upsert_keeps_position_witness :
  In (lit "a") (map path (concat [[mkfile "b" "1"; mkfile "a" "1"]; [];
                                  [mkfile "a" "2"; mkfile "c" "1"]])) /\
  store_after [[mkfile "b" "1"; mkfile "a" "1"]; [];
               [mkfile "a" "2"; mkfile "c" "1"]]
              [mkfile "z" "0"]
  = [mkfile "z" "0"; mkfile "b" "1"; mkfile "a" "2"; mkfile "c" "1"] /\
  find (fun f => str_eqb (path f) (lit "a"))
       (store_after [[mkfile "b" "1"; mkfile "a" "1"]; [];
                     [mkfile "a" "2"; mkfile "c" "1"]]
                    [mkfile "z" "0"])
  = Some (mkfile "a" "2").
Proof.
  assert (H : In (lit "a")
                (map path (concat [[mkfile "b" "1"; mkfile "a" "1"]; [];
                                   [mkfile "a" "2"; mkfile "c" "1"]])))
    by (right; left; reflexivity).
  split; [exact H|]. split; [reflexivity|].
  destruct (upsert_keeps_position _ [mkfile "z" "0"] _ H) as (_ & H2 & _).
  rewrite H2. reflexivity.
Defined.

(* ================================================================= *)
(** ** App.tsx: the flow graph, statements *)


Lemma find_id_None (k : str) (ns : list GraphNode) :
  find (fun n => str_eqb (id n) k) ns = None <-> ~ In k (map id ns).
Proof.
  induction ns as [|n ns IH]; cbn [find map In]; [tauto|].
  destruct (str_eqb (id n) k) eqn:E.
  - apply str_eqb_eq in E. split; [discriminate | tauto].
  - apply str_eqb_neq in E. rewrite IH. tauto.
Qed.

(** A parsed file whose node exists leaves nodes, offset and edges as they
    are: nothing is added, and the content of the node is not replaced. *)
Lemma known_path_changes_nothing (m : str) (y off : Z)
  (ns : list GraphNode) (es : list GraphEdge) (f : ProjectFile) :
  In (fileNodeId m (path f)) (map id ns) ->
  file_node_step m y (ns, off, es) f = (ns, off, es).
Proof.
  intros H. unfold file_node_step.
  destruct (find (fun n => str_eqb (id n) (fileNodeId m (path f))) ns) eqn:E;
    [reflexivity|].
  apply find_id_None in E. contradiction.
Qed.

Lemma known_paths_change_nothing (m : str) (y off : Z)
  (parsed : list ProjectFile) (ns : list GraphNode) (es : list GraphEdge) :
  (forall f, In f parsed -> In (fileNodeId m (path f)) (map id ns)) ->
  fold_left (file_node_step m y) parsed (ns, off, es) = (ns, off, es).
Proof.
  induction parsed as [|f l IH]; intros H; [reflexivity|].
  cbn [fold_left]. rewrite known_path_changes_nothing by (apply H; now left).
  apply IH. intros g Hg; apply H; now right.
Qed.

Lemma step_nodes (m : str) (y off : Z)
  (ns : list GraphNode) (es : list GraphEdge) (f : ProjectFile) :
  exists extra off' es',
    file_node_step m y (ns, off, es) f = (ns ++ extra, off', es') /\
    In (fileNodeId m (path f)) (map id (ns ++ extra)) /\
    (NoDup (map id ns) -> NoDup (map id (ns ++ extra))).
Proof.
  unfold file_node_step.
  destruct (find (fun n => str_eqb (id n) (fileNodeId m (path f))) ns) as [n|]
    eqn:E.
  - exists [], off, es. rewrite app_nil_r. repeat split; auto.
    apply find_some in E. destruct E as [Hn E]. apply str_eqb_eq in E.
    rewrite <- E. now apply in_map.
  - eexists [_], _, _. split; [reflexivity|]. rewrite map_app. split.
    + apply in_or_app. right. now left.
    + intros Hn. apply find_id_None in E.
      apply NoDup_app; auto; [repeat constructor; auto|].
      intros x Hx [<-|[]]. contradiction.
Qed.

Lemma fold_nodes (m : str) (y : Z) (parsed : list ProjectFile) (off : Z)
  (ns : list GraphNode) (es : list GraphEdge) :
  exists extra off' es',
    fold_left (file_node_step m y) parsed (ns, off, es)
      = (ns ++ extra, off', es') /\
    (forall f, In f parsed ->
               In (fileNodeId m (path f)) (map id (ns ++ extra))) /\
    (NoDup (map id ns) -> NoDup (map id (ns ++ extra))).
Proof.
  revert off ns es; induction parsed as [|f l IH]; intros off ns es.
  - exists [], off, es. rewrite app_nil_r. repeat split; auto. intros f [].
  - cbn [fold_left].
    destruct (step_nodes m y off ns es f) as (x & off1 & es1 & -> & Hin & Hn).
    destruct (IH off1 (ns ++ x) es1) as (x' & off2 & es2 & -> & Hin' & Hn').
    exists (x ++ x'), off2, es2. rewrite app_assoc. repeat split; auto.
    intros g [<-|Hg]; [|now apply Hin'].
    rewrite map_app. apply in_or_app. now left.
Qed.

(** The graph part of the callback, run again on its own result with the
    same parsed files, changes nothing. *)
Lemma setNodes_files_again (m : str) (y : Z) (parsed : list ProjectFile)
  (ns : list GraphNode) (es : list GraphEdge) :
  setNodes_files m y parsed
    (fst (setNodes_files m y parsed ns es))
    (snd (setNodes_files m y parsed ns es))
  = setNodes_files m y parsed ns es.
Proof.
  unfold setNodes_files.
  destruct (fold_nodes m y parsed 0%Z ns es) as (x & off & es' & -> & Hin & _).
  cbn [fst snd]. now rewrite known_paths_change_nothing.
Qed.

(** No turn gives two nodes to one path. *)
Lemma file_nodes_unique (m : str) (y : Z) (parsed : list ProjectFile)
  (ns : list GraphNode) (es : list GraphEdge) :
  NoDup (map id ns) ->
  NoDup (map id (fst (setNodes_files m y parsed ns es))).
Proof.
  unfold setNodes_files.
  destruct (fold_nodes m y parsed 0%Z ns es) as (x & off & es' & -> & _ & Hn).
  exact Hn.
Qed.

(** ** The store, run again *)

Lemma map_ext_keys (a b : JSMap ProjectFile) :
  map fst a = map fst b -> NoDup (map fst a) ->
  (forall k, map_get k a = map_get k b) -> a = b.
Proof.
  revert b; induction a as [|[k v] a IH]; intros [|[k' v'] b] Hk Hn Hg;
    try discriminate; [reflexivity|].
  cbn [map fst] in Hk, Hn. injection Hk as <- Hk.
  inversion Hn as [|? ? Hnk Hn']; subst.
  pose proof (Hg k) as G. cbn [map_get] in G. rewrite str_eqb_refl in G.
  injection G as <-. f_equal. apply IH; auto.
  intros k0. pose proof (Hg k0) as G. cbn [map_get] in G.
  destruct (str_eqb k k0) eqn:E; [|exact G].
  apply str_eqb_eq in E; subst k0.
  assert (N : forall c : JSMap ProjectFile,
             ~ In k (map fst c) -> map_get k c = None).
  { clear. induction c as [|[k1 v1] c IH]; intros H; [reflexivity|].
    cbn [map_get]. destruct (str_eqb k1 k) eqn:E.
    - apply str_eqb_eq in E. exfalso; apply H; now left.
    - apply IH. intros I; apply H; now right. }
  rewrite !N; auto. now rewrite <- Hk.
Qed.

Lemma put_all_again (l : list ProjectFile) (m : JSMap ProjectFile) :
  well_keyed m -> put_all l (put_all l m) = put_all l m.
Proof.
  intros W. set (M := put_all l m).
  assert (WM : well_keyed M) by now apply well_keyed_put_all.
  assert (In_keys : forall k, In k (map path l) -> In k (map fst M)).
  { intros k Hk. unfold M. rewrite keys_put_all. apply in_or_app.
    destruct (mem k (map fst m)) eqn:E; [left; now apply mem_In|].
    right. apply first_occurrences_In, filter_In. now rewrite E. }
  apply map_ext_keys.
  - rewrite keys_put_all.
    destruct (first_occurrences
                (filter (fun k => negb (mem k (map fst M))) (map path l)))
      as [|k r] eqn:E; [now rewrite app_nil_r|].
    assert (G : In k (first_occurrences
               (filter (fun k => negb (mem k (map fst M))) (map path l))))
      by (rewrite E; now left).
    apply first_occurrences_In, filter_In in G. destruct G as [G1 G2].
    apply In_keys, mem_In in G1. rewrite G1 in G2. discriminate.
  - apply well_keyed_put_all, WM.
  - intros k. rewrite get_put_all.
    destruct (last_with_path k l) eqn:E; [|reflexivity].
    unfold M. now rewrite get_put_all, E.
Qed.

Lemma setFiles_again (parsed st : list ProjectFile) :
  setFiles_update parsed (setFiles_update parsed st)
  = setFiles_update parsed st.
Proof.
  rewrite setFiles_twice, !setFiles_put_all. f_equal.
  rewrite app_assoc, !put_all_app. apply put_all_again.
  apply well_keyed_put_all, well_keyed_nil.
Qed.

(** C3: the loop of the extractor ends for every buffer and leaves the
    regular expression as it found it, so that a second run gives the same
    list; the callback that takes this list brings store and graph to a
    state that taking the same list again does not change: no record, node
    or edge comes twice; and declarations that are settled at the head of
    the buffer give the same records whatever text follows them. *)
Theorem extraction_idempotent (B : str) :
  exists parsed,
    parseFilesFromResponse B = Some parsed /\
    exec_loop (S (length B)) fresh_regex B [] = Some (parsed, fresh_regex) /\
    (forall m y st,
       apply_parsed m y parsed (apply_parsed m y parsed st)
       = apply_parsed m y parsed st) /\
    (forall ds more,
       Forall decl_ok ds -> B = render_all ds ++ more ->
       exists later, parsed = map artifact_of ds ++ later).
Proof.
  exists (scan 0 B). split; [apply parse_scan|]. split; [|split].
  - unfold fresh_regex. rewrite exec_loop_scan by lia. reflexivity.
  - intros m y st. generalize (scan 0 B) as parsed. intros parsed.
    unfold apply_parsed. destruct parsed as [|f l]; [reflexivity|].
    pose proof (setNodes_files_again m y (f :: l) (nodes st) (edges st)) as H.
    destruct (setNodes_files m y (f :: l) (nodes st) (edges st)) as [ns es].
    cbn [fst snd nodes edges files toolNodeCreated] in *.
    rewrite H, setFiles_again. reflexivity.
  - intros ds more Hds ->. exists (scan 0 more). now apply scan_settled.
Qed.

Lemma extraction_idempotent_witness :
  Forall decl_ok [settled_css] /\
  exists parsed,
    parseFilesFromResponse (render_all [settled_css] ++ chunk1 ++ chunk2)
    = Some parsed /\
    apply_parsed (lit "model-1") 100%Z parsed
      (apply_parsed (lit "model-1") 100%Z parsed empty_state)
    = apply_parsed (lit "model-1") 100%Z parsed empty_state /\
    exists later, parsed = map artifact_of [settled_css] ++ later.
Proof.
  assert (Hd : Forall decl_ok [settled_css]).
  { repeat constructor; try reflexivity; discriminate. }
  split; [exact Hd|].
  destruct (extraction_idempotent
              (render_all [settled_css] ++ chunk1 ++ chunk2))
    as (parsed & H1 & _ & H3 & H4).
  exists parsed. split; [exact H1|]. split; [apply H3|].
  exact (H4 [settled_css] (chunk1 ++ chunk2) Hd eq_refl).
Defined.

(* ----------------------------------------------------------------- *)

(** C4 at a path declared twice in one turn: the store takes the second
    content, and the one node of the path keeps the first, since the array
    made for the replacement is dropped (lines 465-469). *)
Theorem reextracted_node_keeps_first_content :
  exists st',
    handleRun (lit "1") (lit "1") (lit "go")
      [Yield (text_chunk false decl_a1); Yield (text_chunk false decl_a2)]
      empty_state
    = Some (Returned (decl_a1 ++ decl_a2), st') /\
    map (fun f => (path f, content f)) (files st') = [(lit "a", lit "2")] /\
    map (fun n => fullContent (data n))
        (filter (fun n => str_eqb (id n)
                            (fileNodeId (lit "model-1") (lit "a")))
                (nodes st'))
    = [lit "1"] /\
    map target (edges st')
    = [lit "model-1"; fileNodeId (lit "model-1") (lit "a")].
Proof. eexists. vm_compute. repeat split. Qed.

(** C7 at a stream stopped by the user after one declared file: the service
    turns the abort into a normal return (lines 124-126), so the run ends in
    the branch of success and the agent node is complete, not in error; the
    file stays in the store. *)
Theorem abort_ends_as_complete :
  exists st',
    handleRun (lit "1") (lit "1") (lit "go")
      [Yield (text_chunk false decl_a1); Yield (text_chunk true decl_a2)]
      empty_state
    = Some (Returned STOPPED_BY_USER, st') /\
    map status (filter (fun n => str_eqb (id n) (lit "model-1")) (nodes st'))
    = [complete] /\
    map (fun f => (path f, content f)) (files st') = [(lit "a", lit "1")].
Proof. eexists. vm_compute. repeat split. Qed.

(* ================================================================= *)
(** ** geminiService.ts and handleRun: how a turn ends *)

(** The service never throws the abort: its [catch] returns instead. *)
Lemma abort_is_swallowed (State : Type)
  (cb : StreamUpdate -> State -> option State)
  (items : list StreamItem) (st st' : State) (message : str) :
  streamGeminiResponse cb items st = Some (Thrown message, st') ->
  message <> ABORTED_BY_USER.
Proof.
  unfold streamGeminiResponse.
  destruct (stream_loop cb items [] None st) as [[[v|m] s]|];
    try discriminate.
  destruct (str_eqb m ABORTED_BY_USER) eqn:E; [discriminate|].
  intros [= <- <-]. now apply str_eqb_neq.
Qed.

Lemma stream_loop_invariant (State : Type)
  (cb : StreamUpdate -> State -> option State) (P : State -> Prop) :
  (forall u st st', cb u st = Some st' -> P st -> P st') ->
  forall items ft fm st c st',
    stream_loop cb items ft fm st = Some (c, st') -> P st -> P st'.
Proof.
  intros Hcb. induction items as [|[ch|msg] items IH];
    intros ft fm st c st'; cbn [stream_loop].
  - now intros [= <- <-].
  - destruct (signal_aborted ch); [now intros [= <- <-]|].
    destruct (truthy (chunk_text ch) || is_some (chunk_usage ch)).
    + match goal with |- context [cb ?u st] =>
        destruct (cb u st) as [st1|] eqn:E end; [|discriminate].
      intros H Hp. eapply IH; eauto.
    + apply IH.
  - now intros [= <- <-].
Qed.

Lemma stream_invariant (State : Type)
  (cb : StreamUpdate -> State -> option State) (P : State -> Prop) :
  (forall u st st', cb u st = Some st' -> P st -> P st') ->
  forall items st c st',
    streamGeminiResponse cb items st = Some (c, st') -> P st -> P st'.
Proof.
  intros Hcb items st c st'. unfold streamGeminiResponse.
  destruct (stream_loop cb items [] None st) as [[c0 s]|] eqn:E;
    [|discriminate].
  intros H Hp.
  assert (Hs : P s) by (eapply stream_loop_invariant; eauto).
  destruct c0 as [v|m]; [now inversion H; subst|].
  destruct (str_eqb m ABORTED_BY_USER); now inversion H; subst.
Qed.

Lemma onUpdate_keeps_ids (m : str) (y : Z) (u : StreamUpdate)
  (st st' : AppState) (k : str) :
  onUpdate m y u st = Some st' ->
  In k (map id (nodes st)) -> In k (map id (nodes st')).
Proof.
  unfold onUpdate.
  destruct (parseFilesFromResponse (text u)) as [parsed|]; [|discriminate].
  intros [= <-] Hk.
  assert (H1 : In k (map id (nodes (show_text m (text u) st)))).
  { cbn [show_text nodes]. rewrite map_map.
    erewrite map_ext; [exact Hk|].
    intros n. now destruct (str_eqb (id n) m). }
  assert (H2 : In k (map id (nodes
              (show_grounding m y u (show_text m (text u) st))))).
  { unfold show_grounding.
    destruct (groundingMetadata u);
      destruct (toolNodeCreated (show_text m (text u) st)); auto.
    cbn [nodes]. rewrite map_app. apply in_or_app. now left. }
  revert H2. generalize (show_grounding m y u (show_text m (text u) st)).
  intros s H2. unfold apply_parsed. destruct parsed as [|f l]; [exact H2|].
  unfold setNodes_files.
  destruct (fold_nodes m y (f :: l) 0%Z (nodes s) (edges s))
    as (x & off & es' & -> & _ & _).
  cbn [nodes]. rewrite map_app. apply in_or_app. now left.
Qed.




(** A turn whose [await] returns leaves the agent node complete and its
    incoming edge still; one whose [await] throws leaves the node in error,
    and what was thrown is not the abort. *)
Lemma handleRun_status (now_user now_model prompt : str)
  (items : list StreamItem)
  (st : AppState) (c : Completion) (st' : AppState) :
  handleRun now_user now_model prompt items st = Some (c, st') ->
  let modelNodeId := lit "model-" ++ now_model in
  In modelNodeId (map id (nodes st')) /\
  (forall n, In n (nodes st') -> id n = modelNodeId ->
     status n = match c with Returned _ => complete | Thrown _ => error end) /\
  match c with
  | Returned _ =>
      forall e, In e (edges st') -> target e = modelNodeId ->
                animated e = false
  | Thrown message => message <> ABORTED_BY_USER
  end.
Proof.
  intros H modelNodeId. unfold handleRun in H. fold modelNodeId in H.
  cbv zeta in H.
  destruct (streamGeminiResponse _ items
              (begin_turn now_user now_model prompt st))
    as [[c0 s]|] eqn:E; [|discriminate].
  assert (Hin : In modelNodeId (map id (nodes s))).
  { refine (stream_invariant _ _
              (fun s => In modelNodeId (map id (nodes s))) _ _ _ _ _ E _).
    - intros u s1 s2 Hu. exact (onUpdate_keeps_ids _ _ _ _ _ _ Hu).
    - cbn [begin_turn nodes]. rewrite map_app. apply in_or_app. right.
      right. now left. }
  assert (Hids : forall (g : GraphNode -> GraphNode) l,
            (forall n, id (g n) = id n) ->
            map id (map (fun n => if str_eqb (id n) modelNodeId
                                  then g n else n) l) = map id l).
  { intros g l Hg. rewrite map_map. apply map_ext.
    intros n. destruct (str_eqb (id n) modelNodeId); auto. }
  destruct c0 as [v|msg]; inversion H; subst; clear H;
    cbn [end_complete end_error nodes edges].
  - split; [now rewrite Hids|]. split.
    + intros n Hn Hid. apply in_map_iff in Hn. destruct Hn as (n0 & <- & _).
      destruct (str_eqb (id n0) modelNodeId) eqn:E0; [reflexivity|].
      apply str_eqb_neq in E0. contradiction.
    + intros e He Ht. apply in_map_iff in He. destruct He as (e0 & <- & _).
      destruct (str_eqb (target e0) modelNodeId) eqn:E0; [reflexivity|].
      apply str_eqb_neq in E0. contradiction.
  - split; [now rewrite Hids|]. split.
    + intros n Hn Hid. apply in_map_iff in Hn. destruct Hn as (n0 & <- & _).
      destruct (str_eqb (id n0) modelNodeId) eqn:E0; [reflexivity|].
      apply str_eqb_neq in E0. contradiction.
    + eapply abort_is_swallowed; eauto.
Qed.


(* ================================================================= *)
(** ** ProjectPanel.tsx: the file tree, statements *)

Lemma each_level_eq (ok : list FileNode -> Prop) (n : FileNode) :
  each_level ok n <->
  match children n with
  | Some l => every_level ok l
  | None => True
  end.
Proof.
  destruct n as [nm p t [l|] c]; cbn [each_level children]; [|tauto].
  unfold every_level.
  assert (E : (fix all (l : list FileNode) : Prop :=
                 match l with
                 | [] => True
                 | x :: r => each_level ok x /\ all r
                 end) l <-> Forall (each_level ok) l).
  { induction l as [|x r IH]; [split; auto|].
    rewrite Forall_cons_iff, IH. tauto. }
  now rewrite E.
Qed.

Section SortingLemmas.
Variable localeCompare : str -> str -> Z.


Lemma sort_insert_perm (a : FileNode) (l : list FileNode) :
  Permutation (sort_insert localeCompare a l) (a :: l).
Proof.
  induction l as [|b l IH]; cbn [sort_insert]; [reflexivity|].
  destruct (compare_nodes localeCompare a b <=? 0)%Z; [reflexivity|].
  rewrite IH. apply perm_swap.
Qed.

Lemma array_sort_perm (l : list FileNode) :
  Permutation (array_sort localeCompare l) l.
Proof.
  induction l as [|a l IH]; cbn [array_sort]; [reflexivity|].
  now rewrite sort_insert_perm, IH.
Qed.

Lemma sortNode_name (n : FileNode) :
  name (sortNode localeCompare n) = name n.
Proof. now destruct n. Qed.

Lemma sortNode_type (n : FileNode) :
  node_type (sortNode localeCompare n) = node_type n.
Proof. now destruct n. Qed.

Lemma sortNode_path (n : FileNode) :
  node_path (sortNode localeCompare n) = node_path n.
Proof. now destruct n. Qed.

Lemma sortNode_children (n : FileNode) :
  children (sortNode localeCompare n) =
  option_map (sortNodes localeCompare) (children n).
Proof. now destruct n as [nm p t [l|] c]. Qed.

Lemma compare_sortNode (a b : FileNode) :
  compare_nodes localeCompare (sortNode localeCompare a)
                              (sortNode localeCompare b)
  = compare_nodes localeCompare a b.
Proof.
  unfold compare_nodes. now rewrite !sortNode_name, !sortNode_type.
Qed.

(** Sorting the array and then visiting its nodes, as the source does,
    gives what [sortNodes] gives. *)
Lemma sortNodes_sort_first (l : list FileNode) :
  sortNodes localeCompare l
  = map (sortNode localeCompare) (array_sort localeCompare l).
Proof.
  unfold sortNodes. induction l as [|a l IH]; [reflexivity|].
  cbn [map array_sort]. rewrite IH. clear IH.
  induction (array_sort localeCompare l) as [|b r IHr]; [reflexivity|].
  cbn [map sort_insert]. rewrite compare_sortNode.
  destruct (compare_nodes localeCompare a b <=? 0)%Z; [reflexivity|].
  cbn [map]. now rewrite IHr.
Qed.

(** A property of levels that sorting keeps holds at every level of the
    sorted tree if it held at every level before. *)
Lemma every_level_sortNodes (ok : list FileNode -> Prop) :
  (forall l, ok l -> ok (sortNodes localeCompare l)) ->
  forall l, every_level ok l -> every_level ok (sortNodes localeCompare l).
Proof.
  intros Hok.
  assert (Hn : forall n, each_level ok n ->
                         each_level ok (sortNode localeCompare n)).
  { induction n as [nm p t [l|] c IH] using FileNode_children_ind;
      [|auto].
    rewrite !each_level_eq. cbn [children sortNode].
    fold (sortNodes localeCompare l).
    intros [H1 H2]. split; [now apply Hok|].
    unfold sortNodes.
    rewrite (array_sort_perm (map (sortNode localeCompare) l)).
    apply Forall_map. rewrite Forall_forall in *. auto. }
  intros l [H1 H2]. split; [now apply Hok|].
  unfold sortNodes.
  rewrite (array_sort_perm (map (sortNode localeCompare) l)).
  apply Forall_map. rewrite Forall_forall in *. auto.
Qed.


Hypothesis localeCompare_total :
  forall a b, (localeCompare a b <= 0)%Z \/ (localeCompare b a <= 0)%Z.
Hypothesis localeCompare_trans :
  forall a b c, (localeCompare a b <= 0)%Z -> (localeCompare b c <= 0)%Z ->
                (localeCompare a c <= 0)%Z.





End SortingLemmas.





(** ** The nodes of the tree *)

Lemma node_file_paths_eq (n : FileNode) :
  node_file_paths n =
  match node_type n with file_type => [node_path n] | directory => [] end ++
  match children n with Some l => file_paths l | None => [] end.
Proof.
  destruct n as [nm p t [l|] c]; reflexivity.
Qed.

Lemma file_paths_app (a b : list FileNode) :
  file_paths (a ++ b) = file_paths a ++ file_paths b.
Proof. apply flat_map_app. Qed.

Lemma insert_parts_cons (part : str) (rest : list str) (cp c : str)
  (level : list FileNode) :
  insert_parts (part :: rest) cp c level =
  match find (fun n => str_eqb (name n) part) level with
  | None =>
      match rest with
      | [] =>
          level ++ [mkFileNode part (child_path cp part) file_type None
                               (Some c)]
      | _ :: _ =>
          level ++
            [mkFileNode part (child_path cp part) directory
               (Some (insert_parts rest (child_path cp part) c [])) None]
      end
  | Some e =>
      match rest, children e with
      | _ :: _, Some ch =>
          update_named part
            (set_children (insert_parts rest (child_path cp part) c ch))
            level
      | _, _ => insert_parts rest (child_path cp part) c level
      end
  end.
Proof.
  cbn [insert_parts]. fold (child_path cp part).
  destruct (find (fun n => str_eqb (name n) part) level) as [e|];
    destruct rest; reflexivity.
Qed.

Lemma find_name_split (part : str) (level : list FileNode) (e : FileNode) :
  find (fun n => str_eqb (name n) part) level = Some e ->
  exists l1 l2,
    level = l1 ++ e :: l2 /\ name e = part /\
    forall f, update_named part f level = l1 ++ f e :: l2.
Proof.
  induction level as [|n level IH]; cbn [find]; [discriminate|].
  destruct (str_eqb (name n) part) eqn:E.
  - intros [= <-]. exists [], level. apply str_eqb_eq in E.
    repeat split; auto. intros f. cbn [update_named].
    now rewrite (proj2 (str_eqb_eq _ _) E).
  - intros H. destruct (IH H) as (l1 & l2 & -> & Hn & Hu).
    exists (n :: l1), l2. repeat split; auto.
    intros f. cbn [update_named]. now rewrite E, Hu.
Qed.

Lemma find_name_None (part : str) (level : list FileNode) :
  find (fun n => str_eqb (name n) part) level = None ->
  ~ In part (map name level).
Proof.
  induction level as [|n level IH]; cbn [find map In]; [tauto|].
  destruct (str_eqb (name n) part) eqn:E; [discriminate|].
  apply str_eqb_neq in E. intros H [N|N]; [contradiction | now apply IH].
Qed.

(** ** Names of siblings *)

Lemma insert_parts_unique (ps : list str) (cp c : str)
  (level : list FileNode) :
  siblings_unique level -> siblings_unique (insert_parts ps cp c level).
Proof.
  unfold siblings_unique.
  revert cp level; induction ps as [|part rest IH]; intros cp level H;
    [exact H|].
  rewrite insert_parts_cons.
  destruct (find (fun n => str_eqb (name n) part) level) as [e|] eqn:F.
  - destruct (find_name_split _ _ _ F) as (l1 & l2 & E & Hn & Hu).
    destruct rest as [|r0 rest]; [apply IH, H|].
    destruct (children e) as [ch|] eqn:C; [|apply IH, H].
    rewrite Hu. rewrite E in H. destruct H as [H1 H2].
    apply Forall_app in H2. destruct H2 as [H2 H3].
    inversion H3 as [|? ? He H4]; subst.
    split.
    + rewrite map_app in *. cbn [map] in *. now destruct e.
    + apply Forall_app. split; [exact H2|]. constructor; [|exact H4].
      apply each_level_eq. apply each_level_eq in He. rewrite C in He.
      destruct e as [nm p t ch0 c0]; cbn [set_children children].
      apply IH, He.
  - apply find_name_None in F. destruct H as [H1 H2].
    assert (Hk : forall n, name n = part -> each_level
                   (fun l => NoDup (map name l)) n ->
                 every_level (fun l => NoDup (map name l)) (level ++ [n])).
    { intros n Hn He. split.
      - rewrite map_app. cbn [map]. rewrite Hn.
        apply NoDup_app; auto; [repeat constructor; auto|].
        intros x Hx [<-|[]]. contradiction.
      - apply Forall_app. split; [exact H2 | now repeat constructor]. }
    destruct rest as [|r0 rest]; apply Hk; try reflexivity; try exact I.
    apply each_level_eq. cbn [children]. apply IH.
    split; constructor.
Qed.

Lemma build_unsorted_unique (fs : list ProjectFile) :
  siblings_unique (build_unsorted fs).
Proof.
  unfold build_unsorted.
  assert (H : siblings_unique []) by (split; constructor).
  revert H. generalize (@nil FileNode).
  induction fs as [|f fs IH]; intros tree H; [exact H|].
  cbn [fold_left]. apply IH, insert_parts_unique, H.
Qed.

Lemma sortNodes_names (lc : str -> str -> Z) (l : list FileNode) :
  Permutation (map name (sortNodes lc l)) (map name l).
Proof.
  unfold sortNodes. rewrite (array_sort_perm lc), map_map.
  erewrite map_ext; [reflexivity|]. apply sortNode_name.
Qed.

Lemma sortNodes_unique (lc : str -> str -> Z) (tree : list FileNode) :
  siblings_unique tree -> siblings_unique (sortNodes lc tree).
Proof.
  apply every_level_sortNodes. intros l H.
  eapply Permutation_NoDup; [|exact H].
  symmetry. apply sortNodes_names.
Qed.


(** ** File nodes are kept *)

Lemma insert_parts_keeps_files (ps : list str) (cp c : str)
  (level : list FileNode) (q : str) :
  In q (file_paths level) -> In q (file_paths (insert_parts ps cp c level)).
Proof.
  revert cp level; induction ps as [|part rest IH]; intros cp level H;
    [exact H|].
  rewrite insert_parts_cons.
  destruct (find (fun n => str_eqb (name n) part) level) as [e|] eqn:F.
  - destruct rest as [|r0 rest]; [apply IH, H|].
    destruct (children e) as [ch|] eqn:C; [|apply IH, H].
    destruct (find_name_split _ _ _ F) as (l1 & l2 & E & Hn & Hu).
    rewrite Hu. rewrite E in H.
    rewrite file_paths_app in *. cbn [file_paths flat_map] in *.
    rewrite !in_app_iff in *.
    destruct H as [H|[H|H]]; auto.
    right. left. rewrite node_file_paths_eq in *.
    destruct e as [nm p t ch0 c0]. cbn [children] in C. subst ch0.
    cbn [set_children node_type node_path children] in *.
    rewrite in_app_iff in *.
    destruct H as [H|H]; [now left | right; now apply IH].
  - destruct rest; rewrite file_paths_app, in_app_iff; now left.
Qed.

(** ** The tree as a trie of the part lists of the store *)

Lemma trie_node_eq (S : list (list str)) (cp : str) (n : FileNode) :
  trie_node S cp n <->
  node_path n = child_path cp (name n) /\
  match node_type n, children n with
  | file_type, None => In [name n] S
  | directory, Some l =>
      (exists r, r <> [] /\ In (name n :: r) S) /\
      Forall (trie_node (under (name n) S) (node_path n)) l
  | _, _ => False
  end.
Proof.
  destruct n as [nm p t [l|] c];
    cbn [trie_node name node_path node_type children]; [|tauto].
  destruct t; [tauto|].
  assert (E : (fix all (l : list FileNode) : Prop :=
                 match l with
                 | [] => True
                 | x :: l' => trie_node (under nm S) p x /\ all l'
                 end) l <-> Forall (trie_node (under nm S) p) l).
  { induction l as [|x r IH]; [split; auto|].
    rewrite Forall_cons_iff, IH. tauto. }
  now rewrite E.
Qed.

Lemma In_under (n : str) (r : list str) (S : list (list str)) :
  In r (under n S) <-> In (n :: r) S.
Proof.
  unfold under. rewrite in_flat_map. split.
  - intros ([|m s] & Hs & Hr); [destruct Hr|].
    destruct (str_eqb m n) eqn:E; [|destruct Hr].
    apply str_eqb_eq in E. destruct Hr as [<-|[]]. now subst.
  - intros H. exists (n :: r). split; [exact H|].
    rewrite str_eqb_refl. now left.
Qed.

Lemma under_prefix_free (n : str) (S : list (list str)) :
  prefix_free S -> prefix_free (under n S).
Proof.
  intros H a b r Ha Hb E. apply In_under in Ha, Hb.
  apply (H (n :: a) (n :: b) r Ha Hb). now rewrite E.
Qed.

(** Putting a part list of [S] into a trie of [S] keeps it one, and leaves
    a file node with the path made of the parts. *)
Lemma insert_parts_trie (ps : list str) (S : list (list str)) (cp c : str)
  (level : list FileNode) :
  ps <> [] -> In ps S -> prefix_free S ->
  Forall (trie_node S cp) level ->
  Forall (trie_node S cp) (insert_parts ps cp c level) /\
  In (full_path cp ps) (file_paths (insert_parts ps cp c level)).
Proof.
  revert S cp level; induction ps as [|part rest IH];
    intros S cp level Hne Hin Hpf Ht; [congruence|].
  rewrite insert_parts_cons. cbn [full_path].
  destruct (find (fun n => str_eqb (name n) part) level) as [e|] eqn:F.
  - destruct (find_name_split _ _ _ F) as (l1 & l2 & E & Hn & Hu).
    assert (He : trie_node S cp e).
    { rewrite E in Ht. apply Forall_app in Ht. destruct Ht as [_ Ht].
      now inversion Ht. }
    apply trie_node_eq in He. rewrite Hn in He. destruct He as [Hp He].
    destruct (node_type e) eqn:T, (children e) as [ch|] eqn:C;
      try contradiction.
    + (* a file node *)
      destruct rest as [|r0 rest].
      * cbn [insert_parts full_path]. split; [exact Ht|].
        rewrite E, file_paths_app, in_app_iff. right.
        cbn [file_paths flat_map]. rewrite in_app_iff. left.
        rewrite node_file_paths_eq, T, <- Hp. now left.
      * exfalso. specialize (Hpf [part] (part :: r0 :: rest) (r0 :: rest)
                               He Hin eq_refl). discriminate.
    + (* a directory *)
      destruct He as [(r & Hr & HrS) Hch].
      destruct rest as [|r0 rest].
      * exfalso. specialize (Hpf [part] (part :: r) r Hin HrS eq_refl).
        contradiction.
      * rewrite Hu.
        destruct (IH (under part S) (child_path cp part) ch)
          as [IH1 IH2]; try discriminate.
        { now apply In_under. }
        { now apply under_prefix_free. }
        { now rewrite <- Hp. }
        split.
        -- rewrite E in Ht. apply Forall_app in Ht. destruct Ht as [Ht1 Ht2].
           inversion Ht2 as [|? ? _ Ht3]; subst.
           apply Forall_app. split; [exact Ht1|]. constructor; [|exact Ht3].
           apply trie_node_eq.
           destruct e as [nm p t ch0 c0].
           cbn [set_children name node_path node_type children] in *.
           subst. split; [reflexivity|]. split; [now exists r|exact IH1].
        -- rewrite file_paths_app, in_app_iff. right.
           cbn [file_paths flat_map]. rewrite in_app_iff. left.
           rewrite node_file_paths_eq. apply in_or_app. right.
           destruct e as [nm p t ch0 c0]. cbn [set_children children].
           exact IH2.
  - destruct rest as [|r0 rest].
    + cbn [full_path]. split.
      * apply Forall_app. split; [exact Ht|]. constructor; [|constructor].
        apply trie_node_eq.
        cbn [name node_path node_type children]. now split.
      * rewrite file_paths_app, in_app_iff. right. now left.
    + destruct (IH (under part S) (child_path cp part) [])
        as [IH1 IH2]; try discriminate; auto.
      { now apply In_under. }
      { now apply under_prefix_free. }
      split.
      * apply Forall_app. split; [exact Ht|]. constructor; [|constructor].
        apply trie_node_eq.
        cbn [name node_path node_type children]. split; [reflexivity|].
        split; [|exact IH1]. exists (r0 :: rest). split; [discriminate|auto].
      * rewrite file_paths_app, in_app_iff. right.
        cbn [file_paths flat_map]. rewrite app_nil_r, node_file_paths_eq.
        exact IH2.
Qed.

Lemma build_keeps_files (fs : list ProjectFile) (tree : list FileNode)
  (q : str) :
  In q (file_paths tree) ->
  In q (file_paths
          (fold_left
             (fun root f =>
                insert_parts (path_parts (path f)) [] (content f) root)
             fs tree)).
Proof.
  revert tree; induction fs as [|f fs IH]; intros tree H; [exact H|].
  cbn [fold_left]. now apply IH, insert_parts_keeps_files.
Qed.

Lemma build_unsorted_files (fs : list ProjectFile) (f : ProjectFile) :
  (forall g, In g fs -> path_parts (path g) <> []) ->
  prefix_free (map (fun g => path_parts (path g)) fs) ->
  In f fs ->
  In (full_path [] (path_parts (path f))) (file_paths (build_unsorted fs)).
Proof.
  intros Hne Hpf. unfold build_unsorted.
  set (S := map (fun g => path_parts (path g)) fs) in *.
  assert (HS : forall g, In g fs -> In (path_parts (path g)) S).
  { intros g Hg. unfold S. apply in_map_iff. now exists g. }
  assert (Ht : Forall (trie_node S []) []) by constructor.
  clearbody S. revert Ht. generalize (@nil FileNode).
  induction fs as [|g fs IH]; intros tree Ht Hf; [destruct Hf|].
  cbn [fold_left].
  destruct (insert_parts_trie (path_parts (path g)) S [] (content g) tree)
    as [T1 T2]; auto.
  { apply Hne. now left. }
  { apply HS. now left. }
  destruct Hf as [->|Hf].
  - now apply build_keeps_files.
  - apply IH; auto.
    + intros h Hh. apply Hne. now right.
    + intros h Hh. apply HS. now right.
Qed.


(** ** The path of a file node is the path of the artifact *)

Lemma full_path_from (cp : str) (ps : list str) :
  cp <> [] ->
  full_path cp ps = cp ++ concat (map (fun a => "/"%char :: a) ps).
Proof.
  revert cp; induction ps as [|a ps IH]; intros cp H.
  - cbn. now rewrite app_nil_r.
  - cbn [full_path map concat]. destruct cp as [|c cp]; [congruence|].
    cbn [child_path]. rewrite IH by discriminate.
    now rewrite <- !app_assoc.
Qed.

Lemma split_nonempty (sep : ascii) (s : str) : split sep s <> [].
Proof.
  destruct s as [|c s]; cbn [split]; [discriminate|].
  destruct (Ascii.eqb c sep); [discriminate|].
  destruct (split sep s); discriminate.
Qed.

Lemma split_concat (sep : ascii) (s a : str) (r : list str) :
  split sep s = a :: r ->
  s = a ++ concat (map (fun x => sep :: x) r).
Proof.
  revert a r; induction s as [|c s IH]; intros a r; cbn [split].
  - now intros [= <- <-].
  - destruct (Ascii.eqb_spec c sep) as [->|N].
    + intros [= <- <-].
      destruct (split sep s) as [|a' r'] eqn:E;
        [now apply split_nonempty in E|].
      cbn [map concat app]. f_equal. now apply IH.
    + destruct (split sep s) as [|h t] eqn:E;
        [now apply split_nonempty in E|].
      intros [= <- <-]. cbn [app]. f_equal. now apply IH.
Qed.

Lemma filter_id_all (A : Type) (g : A -> bool) (l : list A) :
  filter g l = l -> forall x, In x l -> g x = true.
Proof.
  induction l as [|a l IH]; intros E x Hx; [destruct Hx|].
  cbn [filter] in E. destruct (g a) eqn:G.
  - injection E as E. destruct Hx as [<-|Hx]; auto.
  - exfalso. assert (L : length (filter g l) <= length l)
      by apply filter_length_le.
    rewrite E in L. cbn in L. lia.
Qed.

Lemma full_path_parts (p : str) :
  path_parts p = split "/"%char p -> full_path [] (path_parts p) = p.
Proof.
  intros E. rewrite E. unfold path_parts in E.
  destruct (split "/"%char p) as [|a r] eqn:S;
    [now apply split_nonempty in S|].
  assert (Ha : nonempty a = true)
    by (apply (filter_id_all _ _ _ E); now left).
  cbn [full_path]. destruct a as [|c a]; [discriminate|].
  cbn [child_path]. rewrite full_path_from by discriminate.
  symmetry. now apply split_concat.
Qed.

Lemma sortNode_file_paths (lc : str -> str -> Z) (n : FileNode) (q : str) :
  In q (node_file_paths (sortNode lc n)) <-> In q (node_file_paths n).
Proof.
  revert q.
  induction n as [nm p t [l|] c IH] using FileNode_children_ind;
    intros q; [|reflexivity].
  rewrite !node_file_paths_eq. cbn [sortNode node_type node_path children].
  rewrite !in_app_iff.
  assert (E : In q (file_paths (array_sort lc (map (sortNode lc) l)))
              <-> In q (file_paths l)).
  { unfold file_paths. rewrite !in_flat_map. split.
    - intros (x & Hx & Hq).
      apply (Permutation_in _ (array_sort_perm lc _)) in Hx.
      apply in_map_iff in Hx. destruct Hx as (y & <- & Hy).
      exists y. split; [exact Hy|].
      rewrite Forall_forall in IH. now apply IH.
    - intros (y & Hy & Hq). exists (sortNode lc y). split.
      + apply (Permutation_in _ (Permutation_sym (array_sort_perm lc _))).
        now apply in_map.
      + rewrite Forall_forall in IH. now apply IH. }
  now rewrite E.
Qed.

Lemma sortNodes_file_paths (lc : str -> str -> Z) (l : list FileNode)
  (q : str) :
  In q (file_paths (sortNodes lc l)) <-> In q (file_paths l).
Proof.
  unfold file_paths, sortNodes. rewrite !in_flat_map. split.
  - intros (x & Hx & Hq).
    apply (Permutation_in _ (array_sort_perm lc _)) in Hx.
    apply in_map_iff in Hx. destruct Hx as (y & <- & Hy).
    exists y. split; [exact Hy | now apply sortNode_file_paths in Hq].
  - intros (y & Hy & Hq). exists (sortNode lc y). split.
    + apply (Permutation_in _ (Permutation_sym (array_sort_perm lc _))).
      now apply in_map.
    + now apply sortNode_file_paths.
Qed.

(** C5, as stated, fails: a path with a slash at its head gets a file node
    with the path without it, and a path that an earlier one has made a
    directory gets no file node. *)
Lemma some_artifact_has_no_file_node :
  ~ In (lit "/a.ts")
       (file_paths (buildFileTree code_unit_compare (mktree [lit "/a.ts"])))
  /\
  ~ In (lit "a")
       (file_paths (buildFileTree code_unit_compare
                      (mktree [lit "a/b"; lit "a"]))).
Proof. split; vm_compute; intros [H|[]]; discriminate. Qed.

(** C5, amended: in the tree that is built no two nodes of one level have
    the same name, whatever the store; and when the paths of the store have
    no empty segment and none of them lies under another, the tree has a
    file node with exactly the path of each artifact. *)
Theorem tree_files_and_siblings (localeCompare : str -> str -> Z)
  (fs : list ProjectFile) :
  siblings_unique (buildFileTree localeCompare fs) /\
  (store_ok fs ->
   forall f, In f fs ->
             In (path f) (file_paths (buildFileTree localeCompare fs))).
Proof.
  unfold buildFileTree. split.
  - apply sortNodes_unique, build_unsorted_unique.
  - intros [Hn Hpf] f Hf. apply sortNodes_file_paths.
    rewrite <- (full_path_parts (path f)) by (now apply Hn).
    apply build_unsorted_files; auto.
    intros g Hg. rewrite (Hn g Hg). apply split_nonempty.
Qed.

Lemma tree_files_and_siblings_witness :
  store_ok (mktree sample_paths) /\
  siblings_unique (buildFileTree code_unit_compare (mktree sample_paths)) /\
  In (lit "src/a.ts")
     (file_paths (buildFileTree code_unit_compare (mktree sample_paths))).
Proof.
  assert (Hok : store_ok (mktree sample_paths)).
  { split.
    - intros f Hf. repeat (destruct Hf as [<-|Hf]; [reflexivity|]).
      destruct Hf.
    - intros a b r Ha Hb E.
      repeat (destruct Ha as [<-|Ha];
              [repeat (destruct Hb as [<-|Hb];
                       [vm_compute in E;
                        first [ discriminate E
                              | now destruct r; [|discriminate E] ]|]);
               destruct Hb|]).
      destruct Ha. }
  destruct (tree_files_and_siblings code_unit_compare (mktree sample_paths))
    as [H1 H2].
  split; [exact Hok|]. split; [exact H1|].
  apply (H2 Hok {| path := lit "src/a.ts"; content := []; language := [] |}).
  do 4 right. now left.
Defined.

(* ================================================================= *)
(** ** The store under the handlers *)

Lemma setFiles_update_NoDup (b st : list ProjectFile) :
  NoDup (map path (setFiles_update b st)).
Proof.
  rewrite setFiles_put_all.
  destruct (well_keyed_put_all (st ++ b) [] well_keyed_nil) as [Hn Hk].
  rewrite paths_values by exact Hk. exact Hn.
Qed.

Lemma find_path_None (p : str) (l : list ProjectFile) :
  find (fun f => str_eqb (path f) p) l = None <-> ~ In p (map path l).
Proof.
  induction l as [|f l IH]; cbn [find map In]; [tauto|].
  destruct (str_eqb (path f) p) eqn:E.
  - apply str_eqb_eq in E. split; [discriminate | tauto].
  - apply str_eqb_neq in E. rewrite IH. tauto.
Qed.

Lemma handleFileUpdate_paths (p c : str) (l : list ProjectFile) :
  map path (handleFileUpdate p c l) = map path l.
Proof.
  unfold handleFileUpdate. rewrite map_map. apply map_ext.
  intros f. now destruct (str_eqb (path f) p).
Qed.

Lemma handleFileDelete_paths (p : str) (l : list ProjectFile) :
  map path (handleFileDelete p l)
  = filter (fun q => negb (str_eqb q p)) (map path l).
Proof.
  induction l as [|f l IH]; [reflexivity|].
  cbn [handleFileDelete filter map].
  destruct (str_eqb (path f) p); cbn [negb map]; [exact IH|].
  f_equal. exact IH.
Qed.

Lemma NoDup_filter_str (g : str -> bool) (l : list str) :
  NoDup l -> NoDup (filter g l).
Proof.
  induction 1 as [|a l Ha _ IH]; cbn [filter]; [constructor|].
  destruct (g a); [|exact IH]. constructor; [|exact IH].
  intros H. apply filter_In in H. tauto.
Qed.

Lemma handleFileCreate_NoDup (files prev : list ProjectFile) (p : str) :
  incl (map path prev) (map path files) ->
  NoDup (map path prev) ->
  NoDup (map path (handleFileCreate files p prev)).
Proof.
  intros Hi H. unfold handleFileCreate.
  destruct (find (fun f => str_eqb (path f) p) files) eqn:E; [exact H|].
  apply find_path_None in E. rewrite map_app.
  apply NoDup_app; auto; [repeat constructor; auto|].
  intros q Hq [<-|[]]. apply E, Hi, Hq.
Qed.

Lemma store_step_NoDup (ops : list StoreOp) (fresh : bool)
  (s : FilesState) :
  NoDup (map path (current_files s)) ->
  (fresh = true ->
   incl (map path (current_files s)) (map path (rendered_files s))) ->
  creations_rendered fresh ops = true ->
  NoDup (map path (current_files (fold_left store_step ops s))).
Proof.
  revert fresh s; induction ops as [|op ops IH]; intros fresh s H Hi Hc;
    [exact H|].
  cbn [fold_left].
  destruct op as [p|p c|p|parsed|];
    cbn [creations_rendered] in Hc; cbn [store_step].
  - apply andb_true_iff in Hc. destruct Hc as [-> Hc].
    apply (IH false); [|discriminate|exact Hc].
    cbn [current_files rendered_files].
    apply handleFileCreate_NoDup; auto.
  - apply (IH fresh); [| |exact Hc]; cbn [current_files rendered_files].
    + now rewrite handleFileUpdate_paths.
    + now rewrite handleFileUpdate_paths.
  - apply (IH fresh); [| |exact Hc]; cbn [current_files rendered_files].
    + rewrite handleFileDelete_paths. now apply NoDup_filter_str.
    + intros Hf q Hq. rewrite handleFileDelete_paths in Hq.
      apply filter_In in Hq. now apply (Hi Hf).
  - apply (IH false); [|discriminate|exact Hc].
    cbn [current_files]. destruct parsed as [|f l]; [exact H|].
    apply setFiles_update_NoDup.
  - apply (IH true); [exact H| |exact Hc].
    intros _. apply incl_refl.
Qed.

(** X1: from a rendered store in which no two files share a path, the
    handlers, the streams and the renders, in any order, leave a store in
    which no two files share a path, provided every creation comes with no
    other creation and no parsed batch since the last render: the guard of
    a creation reads the files of that render, which then hold every path
    of the store; editing keeps the paths, deleting removes, and a parsed
    batch goes through a map keyed by path. *)
Theorem store_paths_stay_distinct (ops : list StoreOp)
  (st : list ProjectFile) :
  NoDup (map path st) ->
  creations_rendered true ops = true ->
  NoDup (map path (current_files (fold_left store_step ops (rendered st)))).
Proof.
  intros H Hc. apply (store_step_NoDup ops true); [exact H| |exact Hc].
  intros _. apply incl_refl.
Qed.

Lemma store_paths_stay_distinct_witness :
  NoDup (map path
           (current_files
              (fold_left store_step
                 [FileCreate (lit "a.ts"); Render; FileCreate (lit "a.ts");
                  FilesParsed [mkfile "b" "1"; mkfile "a.ts" "2"];
                  FileUpdate (lit "b") (lit "3"); Render;
                  FileCreate (lit "b"); FileDelete (lit "a.ts")]
                 (rendered [mkfile "c" "0"])))).
Proof.
  apply store_paths_stay_distinct.
  - cbn. constructor; [intros []|constructor].
  - reflexivity.
Defined.

Lemma find_app_str (g : ProjectFile -> bool) (a b : list ProjectFile) :
  find g (a ++ b) = match find g a with Some f => Some f | None => find g b end.
Proof.
  induction a as [|f a IH]; [reflexivity|].
  cbn [app find]. now destruct (g f).
Qed.

(** X2: what a look-up by path finds after each handler, called on a
    store that has been rendered.  A created file
    is empty and is found under its path only if the path was free, an
    existing file being left as it is; an edit replaces the content of the
    file found under the path and nothing else of it; a deleted path is not
    found any more; and no handler changes what is found under another
    path. *)
Theorem lookup_after_handlers (p q c : str) (st : list ProjectFile) :
  lookup p (handleFileCreate st p st)
  = match lookup p st with
    | Some f => Some f
    | None => Some {| path := p; content := [];
                      language := created_language p |}
    end /\
  lookup p (handleFileUpdate p c st)
  = match lookup p st with
    | Some f => Some {| path := path f; content := c;
                        language := language f |}
    | None => None
    end /\
  lookup p (handleFileDelete p st) = None /\
  (q <> p ->
   lookup q (handleFileCreate st p st) = lookup q st /\
   lookup q (handleFileUpdate p c st) = lookup q st /\
   lookup q (handleFileDelete p st) = lookup q st).
Proof.
  unfold lookup. split; [|split; [|split]].
  - unfold handleFileCreate.
    destruct (find (fun f => str_eqb (path f) p) st) eqn:E.
    + now rewrite E.
    + rewrite find_app_str, E. cbn [find path]. now rewrite str_eqb_refl.
  - induction st as [|f st IH]; [reflexivity|].
    cbn [handleFileUpdate map find].
    destruct (str_eqb (path f) p) eqn:E; cbn [path]; rewrite E;
      [reflexivity | exact IH].
  - apply find_path_None. rewrite handleFileDelete_paths. intros H.
    apply filter_In in H. destruct H as [_ H].
    now rewrite str_eqb_refl in H.
  - intros Hq.
    assert (Epq : str_eqb p q = false).
    { destruct (str_eqb p q) eqn:E; [|reflexivity].
      apply str_eqb_eq in E. congruence. }
    split; [|split].
    + unfold handleFileCreate.
      destruct (find (fun f => str_eqb (path f) p) st); [reflexivity|].
      rewrite find_app_str. cbn [find path]. rewrite Epq.
      now destruct (find (fun f => str_eqb (path f) q) st).
    + induction st as [|f st IH]; [reflexivity|].
      cbn [handleFileUpdate map find].
      destruct (str_eqb (path f) p) eqn:E; cbn [path].
      * apply str_eqb_eq in E. rewrite E, Epq. exact IH.
      * destruct (str_eqb (path f) q); [reflexivity | exact IH].
    + induction st as [|f st IH]; [reflexivity|].
      cbn [handleFileDelete filter find].
      destruct (str_eqb (path f) p) eqn:E; cbn [negb].
      * apply str_eqb_eq in E. rewrite E, Epq. exact IH.
      * cbn [find]. destruct (str_eqb (path f) q); [reflexivity | exact IH].
Qed.

Lemma filter_none (A : Type) (g : A -> bool) (l : list A) :
  (forall a, In a l -> g a = true) -> filter g l = l.
Proof.
  induction l as [|a l IH]; intros H; [reflexivity|].
  cbn [filter]. rewrite (H a) by now left.
  f_equal. apply IH. intros b Hb. apply H. now right.
Qed.

(** X3: creating a file under a path that is not in the store and deleting
    it again gives the store back as it was, order included, whatever files
    the guard of the creation has read; deleting a path that is not in the
    store, or editing one, changes nothing. *)
Theorem create_then_delete (p c : str) (files st : list ProjectFile) :
  ~ In p (map path st) ->
  handleFileDelete p (handleFileCreate files p st) = st /\
  handleFileDelete p st = st /\
  handleFileUpdate p c st = st.
Proof.
  intros H.
  assert (Hall : forall f, In f st -> str_eqb (path f) p = false).
  { intros f Hf. destruct (str_eqb (path f) p) eqn:E; [|reflexivity].
    apply str_eqb_eq in E. exfalso; apply H. rewrite <- E. now apply in_map. }
  assert (Hd : handleFileDelete p st = st).
  { apply filter_none. intros f Hf. now rewrite Hall. }
  split; [|split].
  - unfold handleFileCreate.
    destruct (find (fun f => str_eqb (path f) p) files); [exact Hd|].
    unfold handleFileDelete. rewrite filter_app. cbn [filter path].
    rewrite str_eqb_refl. cbn [negb]. rewrite app_nil_r. exact Hd.
  - exact Hd.
  - unfold handleFileUpdate. rewrite <- (map_id st) at 2.
    apply map_ext_in. intros f Hf. now rewrite Hall.
Qed.

Lemma create_then_delete_witness :
  handleFileDelete (lit "b.ts")
    (handleFileCreate [mkfile "a" "1"] (lit "b.ts") [mkfile "a" "1"])
  = [mkfile "a" "1"].
Proof.
  apply (create_then_delete (lit "b.ts") [] [mkfile "a" "1"]
           [mkfile "a" "1"]).
  cbn. intros [H|[]]. discriminate H.
Defined.

Lemma files_step_has_parsed (p : str) (parsed st : list ProjectFile) :
  In p (map path parsed) -> In p (map path (files_step parsed st)).
Proof.
  intros H. destruct parsed as [|f l]; [destruct H|].
  change (files_step (f :: l) st) with (setFiles_update (f :: l) st).
  rewrite setFiles_put_all.
  destruct (well_keyed_put_all (st ++ f :: l) [] well_keyed_nil) as [_ Hk].
  rewrite paths_values by exact Hk. rewrite keys_from_empty.
  apply first_occurrences_In. rewrite map_app. apply in_or_app. now right.
Qed.

(** X26: the guard of a creation reads the files of the last render, not
    the store.  For a path that is not in a rendered store, two creations
    with no render between them leave two files with that path at the end
    of the store, while with a render between them the second one is
    refused; and a parsed batch that holds the path, followed by a creation
    before the next render, leaves the path in the store and once more at
    its end. *)
Theorem creation_before_render_duplicates (p : str)
  (parsed st : list ProjectFile) :
  ~ In p (map path st) ->
  current_files
    (fold_left store_step [FileCreate p; FileCreate p] (rendered st))
  = st ++ [created_file p; created_file p] /\
  current_files
    (fold_left store_step [FileCreate p; Render; FileCreate p] (rendered st))
  = st ++ [created_file p] /\
  (In p (map path parsed) ->
   current_files
     (fold_left store_step [FilesParsed parsed; FileCreate p] (rendered st))
   = files_step parsed st ++ [created_file p] /\
   In p (map path (files_step parsed st))).
Proof.
  intros H. apply find_path_None in H.
  cbn [fold_left store_step rendered rendered_files current_files].
  unfold handleFileCreate. rewrite !H. fold (created_file p).
  split; [|split].
  - now rewrite <- app_assoc.
  - rewrite find_app_str, H. cbn [find created_file path].
    now rewrite str_eqb_refl.
  - intros Hp. split; [reflexivity | now apply files_step_has_parsed].
Qed.

Lemma creation_before_render_duplicates_witness :
  current_files
    (fold_left store_step [FileCreate (lit "n.ts"); FileCreate (lit "n.ts")]
       (rendered [mkfile "a" "1"]))
  = [mkfile "a" "1"; created_file (lit "n.ts"); created_file (lit "n.ts")].
Proof.
  refine (proj1 (creation_before_render_duplicates (lit "n.ts") []
                   [mkfile "a" "1"] _)).
  cbn. intros [H|[]]. discriminate H.
Defined.

(* ================================================================= *)
(** ** The files in the prompt *)

Lemma startsWith_cut (p a : str) (x : ascii) (b : str) :
  ~ In x p -> startsWith p (a ++ x :: b) = true -> startsWith p a = true.
Proof.
  revert a; induction p as [|c p IH]; intros a Hx; [reflexivity|].
  destruct a as [|d a]; cbn [app startsWith].
  - intros H. apply andb_true_iff in H. destruct H as [H _].
    apply Ascii.eqb_eq in H. exfalso; apply Hx. now left.
  - intros H. apply andb_true_iff in H. destruct H as [H1 H2].
    rewrite H1. cbn [andb]. apply IH; [|exact H2].
    intros I; apply Hx; now right.
Qed.

(** An occurrence cannot run over a character the literal does not have. *)
Lemma contains_cut (p a : str) (x : ascii) (b : str) :
  ~ In x p -> contains p a = false -> contains p (x :: b) = false ->
  contains p (a ++ x :: b) = false.
Proof.
  intros Hx. induction a as [|c a IH]; intros Ha Hb; [exact Hb|].
  change ((c :: a) ++ x :: b) with (c :: (a ++ x :: b)).
  cbn [contains] in *. apply orb_false_iff in Ha. destruct Ha as [Ha1 Ha2].
  apply orb_false_iff; split; [|now apply IH].
  destruct (startsWith p (c :: a ++ x :: b)) eqn:E; [|reflexivity].
  apply (startsWith_cut p (c :: a) x b Hx) in E. congruence.
Qed.

Lemma scan_without_open (s : str) (k : nat) :
  contains OPEN_FILE s = false -> scan k s = [].
Proof.
  revert k; induction s as [|c s IH]; intros k H; [reflexivity|].
  assert (Hs : contains OPEN_FILE s = false).
  { cbn [contains] in H. apply orb_false_iff in H. tauto. }
  cbn [scan]. destruct k; [|auto].
  rewrite run_no_open; [auto|]. now apply contains_startsWith.
Qed.

Lemma nl_not_in_close : ~ In nl CLOSE_FILE.
Proof.
  unfold CLOSE_FILE, nl. cbn [In]. intros H.
  repeat (destruct H as [H|H]; [discriminate H|]). exact H.
Qed.

Lemma nl_not_in_open : ~ In nl OPEN_FILE.
Proof.
  unfold OPEN_FILE, nl. cbn [In]. intros H.
  repeat (destruct H as [H|H]; [discriminate H|]). exact H.
Qed.

Lemma context_decl_ok (pre : str) (f : ProjectFile) :
  contains OPEN_FILE pre = false ->
  path f <> [] -> forallb not_quote (path f) = true ->
  contains CLOSE_FILE (content f) = false ->
  decl_ok (context_decl pre f).
Proof.
  intros Hpre Hp Hq Hc. split; [exact Hpre|]. split.
  - cbn [context_decl d_ws1 d_q1 d_path d_q2 d_ws2].
    constructor; auto; try reflexivity. discriminate.
  - cbn [context_decl d_body].
    change (nl :: content f ++ [nl]) with ([] ++ nl :: (content f ++ [nl])).
    apply contains_cut; [exact nl_not_in_close | reflexivity|].
    cbn [contains]. apply orb_false_iff. split; [reflexivity|].
    apply contains_cut; [exact nl_not_in_close | exact Hc | reflexivity].
Qed.

Lemma render_context_decl (pre : str) (f : ProjectFile) :
  render (context_decl pre f) = pre ++ file_context_entry f.
Proof.
  unfold render, d_tag, open_tag, file_context_entry, context_decl.
  cbn [d_pre d_ws1 d_q1 d_path d_q2 d_ws2 d_body].
  unfold OPEN_FILE, PATH_EQ, GT, CLOSE_FILE. cbn [lit list_ascii_of_string app].
  repeat (rewrite <- ?app_assoc; cbn [app]). reflexivity.
Qed.

Lemma join_context (f : ProjectFile) (fs : list ProjectFile) :
  [nl; nl] ++ join [nl; nl] (map file_context_entry (f :: fs))
  = render_all (map (context_decl [nl; nl]) (f :: fs)).
Proof.
  revert f; induction fs as [|g fs IH]; intros f.
  - unfold render_all. cbn [map concat join].
    now rewrite render_context_decl, app_nil_r.
  - unfold render_all in *. cbn [map concat join] in *.
    rewrite render_context_decl. rewrite <- IH.
    now rewrite <- !app_assoc.
Qed.

Lemma fileContext_render (pre : str) (f : ProjectFile)
  (fs : list ProjectFile) :
  pre ++ fileContext (f :: fs)
  = render_all (context_decl pre f :: map (context_decl [nl; nl]) fs).
Proof.
  unfold fileContext, render_all. cbn [map concat].
  rewrite render_context_decl.
  destruct fs as [|g fs].
  - cbn [join map concat]. now rewrite app_nil_r.
  - fold (render_all (map (context_decl [nl; nl]) (g :: fs))).
    rewrite <- join_context. cbn [map join].
    now rewrite <- !app_assoc.
Qed.

Lemma artifact_context_decl (pre : str) (f : ProjectFile) :
  artifact_of (context_decl pre f) = read_back f.
Proof. reflexivity. Qed.

(** X4: the files written into the prompt are read back by the parser of
    the answers.  When the text of the user holds no [<file], every path of
    the store is non-empty and without quote character, and no content
    holds a closing tag, parsing the prompt gives one record per file of
    the store, in the order of the store, with the same path and with the
    content followed by one line feed; the language is that of the
    path. *)
Theorem prompt_files_read_back (modelName userText : str)
  (fs : list ProjectFile) :
  contains OPEN_FILE userText = false ->
  (forall f, In f fs ->
     path f <> [] /\ forallb not_quote (path f) = true /\
     contains CLOSE_FILE (content f) = false) ->
  parseFilesFromResponse (effectivePrompt modelName userText fs)
  = Some (map read_back fs).
Proof.
  intros Hu Hfs. rewrite parse_scan. f_equal.
  assert (Hhead : contains OPEN_FILE
                    (if contains (lit "thinking") modelName
                     then userText ++ THINK_HINT else userText) = false).
  { destruct (contains (lit "thinking") modelName); [|exact Hu].
    apply contains_cut; [exact nl_not_in_open | exact Hu | reflexivity]. }
  unfold effectivePrompt.
  set (head := if contains (lit "thinking") modelName
               then userText ++ THINK_HINT else userText) in *.
  destruct fs as [|f fs]; [now apply scan_without_open|].
  rewrite app_assoc, fileContext_render.
  rewrite <- (app_nil_r (render_all _)).
  rewrite scan_settled.
  - cbn [scan map]. rewrite app_nil_r. rewrite map_map. reflexivity.
  - constructor.
    + destruct (Hfs f (or_introl eq_refl)) as (H1 & H2 & H3).
      apply context_decl_ok; auto.
      apply contains_cut; [exact nl_not_in_open | exact Hhead | reflexivity].
    + apply Forall_forall. intros d Hd. apply in_map_iff in Hd.
      destruct Hd as (g & <- & Hg).
      destruct (Hfs g (or_intror Hg)) as (H1 & H2 & H3).
      apply context_decl_ok; auto.
Qed.

Lemma prompt_files_read_back_witness :
  parseFilesFromResponse
    (effectivePrompt (lit "gemini-2.5-flash-thinking") (lit "add a test")
       [mkfile "a.ts" "let a = 1"; mkfile "b/c.css" ""])
  = Some [ {| path := lit "a.ts"; content := lit "let a = 1" ++ [nl];
              language := lit "javascript" |};
           {| path := lit "b/c.css"; content := [nl];
              language := lit "css" |} ].
Proof.
  refine (eq_trans
            (prompt_files_read_back (lit "gemini-2.5-flash-thinking")
               (lit "add a test")
               [mkfile "a.ts" "let a = 1"; mkfile "b/c.css" ""] _ _) _).
  - reflexivity.
  - intros f [<-|[<-|[]]]; (split; [discriminate|split; reflexivity]).
  - reflexivity.
Defined.

(* ================================================================= *)
(** ** The graph of a turn *)

Lemma edges_closed_mono (ns ns' : list GraphNode) (es : list GraphEdge) :
  (forall k, In k (map id ns) -> In k (map id ns')) ->
  edges_closed ns es -> edges_closed ns' es.
Proof.
  intros Hk H e He. destruct (H e He). split; now apply Hk.
Qed.

Lemma edges_closed_add (ns : list GraphNode) (es : list GraphEdge)
  (e : GraphEdge) :
  edges_closed ns es ->
  In (source e) (map id ns) -> In (target e) (map id ns) ->
  edges_closed ns (es ++ [e]).
Proof.
  intros H Hs Ht e' He'. apply in_app_or in He'.
  destruct He' as [He'|[<-|[]]]; [now apply H | now split].
Qed.

Lemma ids_app_l (ns extra : list GraphNode) (k : str) :
  In k (map id ns) -> In k (map id (ns ++ extra)).
Proof. intros H. rewrite map_app. apply in_or_app. now left. Qed.

(** One parsed file in the graph: what is added is at most one node, of
    type file, at the offset reached, with an edge from the agent's node
    unless an edge to it exists. *)
Lemma step_graph (m : str) (sy off : Z)
  (ns : list GraphNode) (es : list GraphEdge) (f : ProjectFile) :
  exists extra es',
    file_node_step m sy (ns, off, es) f
      = (ns ++ extra, (off + 150 * Z.of_nat (length extra))%Z, es') /\
    map y extra = stack (sy + off)%Z (length extra) /\
    Forall (fun n => type n = file /\ x n = 900%Z) extra /\
    (edges_closed ns es -> In m (map id ns) ->
     edges_closed (ns ++ extra) es').
Proof.
  unfold file_node_step.
  destruct (find (fun n => str_eqb (id n) (fileNodeId m (path f))) ns) as [n|]
    eqn:E.
  - exists [], es. rewrite app_nil_r. cbn [length Z.of_nat].
    rewrite Z.mul_0_r, Z.add_0_r.
    split; [reflexivity|]. split; [reflexivity|]. split; [constructor|auto].
  - eexists [_], _. cbn [length Z.of_nat].
    split; [f_equal; f_equal; lia|]. split; [reflexivity|].
    split; [repeat constructor|].
    intros Hc Hm. unfold add_file_edge.
    match goal with |- context [find ?g es] => destruct (find g es) end.
    + eapply edges_closed_mono; [|exact Hc]. intros k. apply ids_app_l.
    + apply edges_closed_add.
      * eapply edges_closed_mono; [|exact Hc]. intros k. apply ids_app_l.
      * cbn [source]. now apply ids_app_l.
      * cbn [target]. rewrite map_app. apply in_or_app. right. now left.
Qed.

Lemma stack_app (b : Z) (n k : nat) :
  stack b (n + k) = stack b n ++ stack (b + 150 * Z.of_nat n)%Z k.
Proof.
  revert b; induction n as [|n IH]; intros b.
  - cbn [Nat.add stack app Z.of_nat]. f_equal. lia.
  - cbn [Nat.add stack app]. f_equal. rewrite IH. f_equal. f_equal. lia.
Qed.

Lemma fold_graph (m : str) (sy : Z) (parsed : list ProjectFile) (off : Z)
  (ns : list GraphNode) (es : list GraphEdge) :
  exists extra es',
    fold_left (file_node_step m sy) parsed (ns, off, es)
      = (ns ++ extra, (off + 150 * Z.of_nat (length extra))%Z, es') /\
    map y extra = stack (sy + off)%Z (length extra) /\
    Forall (fun n => type n = file /\ x n = 900%Z) extra /\
    (edges_closed ns es -> In m (map id ns) ->
     edges_closed (ns ++ extra) es').
Proof.
  revert off ns es; induction parsed as [|f l IH]; intros off ns es.
  - exists [], es. rewrite app_nil_r. cbn [length Z.of_nat].
    rewrite Z.mul_0_r, Z.add_0_r.
    split; [reflexivity|]. split; [reflexivity|]. split; [constructor|auto].
  - cbn [fold_left].
    destruct (step_graph m sy off ns es f) as (x1 & es1 & -> & Hy1 & Ht1 & Hc1).
    destruct (IH (off + 150 * Z.of_nat (length x1))%Z (ns ++ x1) es1)
      as (x2 & es2 & -> & Hy2 & Ht2 & Hc2).
    exists (x1 ++ x2), es2. rewrite <- app_assoc, length_app.
    split; [f_equal; f_equal; lia|]. split; [|split].
    + rewrite map_app, stack_app, Hy1, Hy2. f_equal. f_equal. lia.
    + apply Forall_app. now split.
    + intros Hc Hm. rewrite app_assoc. apply Hc2; [now apply Hc1|].
      now apply ids_app_l.
Qed.

(** X5: the file nodes that one call of the callback adds are put after
    the nodes there are, in column 900, the first at the height of the
    turn and each next one 150 lower; the nodes there were are not
    touched.  The height does not depend on the file nodes of earlier
    calls. *)
Theorem file_nodes_are_stacked (m : str) (sy : Z)
  (parsed : list ProjectFile)
  (ns : list GraphNode) (es : list GraphEdge) :
  exists extra,
    fst (setNodes_files m sy parsed ns es) = ns ++ extra /\
    map y extra = stack sy (length extra) /\
    Forall (fun n => type n = file /\ x n = 900%Z) extra.
Proof.
  unfold setNodes_files.
  destruct (fold_graph m sy parsed 0%Z ns es) as (ex & es' & -> & Hy & Ht & _).
  exists ex. cbn [fst]. rewrite Z.add_0_r in Hy. auto.
Qed.










(* ================================================================= *)
(** ** The tool node *)

Lemma filter_map_same (A : Type) (g : A -> bool) (h : A -> A) (l : list A) :
  (forall a, g (h a) = g a) -> filter g (map h l) = map h (filter g l).
Proof.
  intros H. induction l as [|a l IH]; [reflexivity|].
  cbn [map filter]. rewrite H. destruct (g a); cbn [map]; now rewrite IH.
Qed.

Lemma count_map_same (g : GraphNode -> bool) (h : GraphNode -> GraphNode)
  (l : list GraphNode) :
  (forall a, g (h a) = g a) ->
  length (filter g (map h l)) = length (filter g l).
Proof. intros H. now rewrite filter_map_same, length_map. Qed.

Lemma filter_none_of (A : Type) (g : A -> bool) (l : list A) :
  Forall (fun a => g a = false) l -> filter g l = [].
Proof.
  induction 1 as [|a l Ha _ IH]; [reflexivity|].
  cbn [filter]. now rewrite Ha.
Qed.

Lemma onUpdate_tools_ok (base : nat) (m : str) (sy : Z) (u : StreamUpdate)
  (st st' : AppState) :
  onUpdate m sy u st = Some st' -> tools_ok base st -> tools_ok base st'.
Proof.
  unfold onUpdate.
  destruct (parseFilesFromResponse (text u)) as [parsed|]; [|discriminate].
  intros [= <-] H.
  assert (H1 : tools_ok base (show_text m (text u) st)).
  { unfold tools_ok in *. cbn [show_text nodes toolNodeCreated].
    rewrite count_map_same; [exact H|].
    intros n. now destruct (str_eqb (id n) m). }
  assert (H2 : tools_ok base
                 (show_grounding m sy u (show_text m (text u) st))).
  { revert H1. generalize (show_text m (text u) st). intros s H1.
    unfold show_grounding.
    destruct (groundingMetadata u) as [g|]; [|exact H1].
    destruct (toolNodeCreated s) eqn:Et; [exact H1|].
    unfold tools_ok in *. rewrite Et in H1.
    cbn [nodes toolNodeCreated]. rewrite filter_app, length_app.
    cbn [filter is_tool type length]. lia. }
  revert H2. generalize (show_grounding m sy u (show_text m (text u) st)).
  intros s H2. unfold apply_parsed.
  destruct parsed as [|f l]; [exact H2|].
  unfold setNodes_files.
  destruct (fold_graph m sy (f :: l) 0%Z (nodes s) (edges s))
    as (ex & es' & -> & _ & Ht & _).
  unfold tools_ok in *. cbn [nodes toolNodeCreated].
  rewrite filter_app, length_app.
  rewrite (filter_none_of _ is_tool ex); [cbn [length]; lia|].
  eapply Forall_impl; [|exact Ht]. intros n [Hn _].
  unfold is_tool. now rewrite Hn.
Qed.

(** X7: a turn adds at most one tool node to the graph, however many
    chunks of its stream carry grounding metadata and however it ends. *)
Theorem one_tool_node_per_turn (nu nm prompt : str)
  (items : list StreamItem) (st : AppState)
  (c : Completion) (st' : AppState) :
  handleRun nu nm prompt items st = Some (c, st') ->
  length (filter is_tool (nodes st'))
  <= S (length (filter is_tool (nodes st))).
Proof.
  unfold handleRun. intros H.
  set (base := length (filter is_tool (nodes st))).
  destruct (streamGeminiResponse _ items _) as [[c0 s]|] eqn:E;
    [|discriminate].
  assert (G : tools_ok base s).
  { eapply stream_invariant; [|exact E|].
    - intros u s1 s2. apply onUpdate_tools_ok.
    - unfold tools_ok, begin_turn. cbn [nodes toolNodeCreated].
      rewrite filter_app, length_app. cbn [filter is_tool type length].
      fold base. lia. }
  unfold tools_ok in G.
  assert (G' : length (filter is_tool (nodes s)) <= S base)
    by (destruct (toolNodeCreated s); lia).
  destruct c0 as [v|msg]; injection H as <- <-.
  - cbn [end_complete nodes]. rewrite count_map_same; [exact G'|].
    intros n. now destruct (str_eqb (id n) _).
  - cbn [end_error nodes]. rewrite count_map_same; [exact G'|].
    intros n. now destruct (str_eqb (id n) _).
Qed.

Lemma one_tool_node_per_turn_witness :
  exists c st',
    handleRun (lit "1") (lit "1") (lit "go")
      [Yield (grounded_chunk (lit "a")); Yield (grounded_chunk (lit "b"))]
      empty_state = Some (c, st') /\
    length (filter is_tool (nodes st')) <= 1.
Proof.
  eexists _, _. split; [vm_compute; reflexivity|].
  refine (one_tool_node_per_turn (lit "1") (lit "1") (lit "go")
            [Yield (grounded_chunk (lit "a"));
             Yield (grounded_chunk (lit "b"))] empty_state _ _ _).
  vm_compute. reflexivity.
Defined.

(* ================================================================= *)
(** ** Where a turn is put *)





Lemma firstn_length_app (A : Type) (a b : list A) :
  firstn (length a) (a ++ b) = a.
Proof. induction a as [|c a IH]; cbn; [reflexivity | now rewrite IH]. Qed.

Lemma skipn_length_app (A : Type) (a b : list A) :
  skipn (length a) (a ++ b) = b.
Proof. induction a as [|c a IH]; cbn; [reflexivity | exact IH]. Qed.




(* ================================================================= *)
(** ** The texts a stream hands over *)

Lemma stream_loop_record (items : list StreamItem) (ft : str)
  (fm : option GroundingMetadata) (log : list str) :
  exists c,
    stream_loop record_text items ft fm log
    = Some (c, log ++ delivered items ft).
Proof.
  revert ft fm log; induction items as [|[ch|msg] items IH];
    intros ft fm log; cbn [stream_loop delivered].
  - eexists. now rewrite app_nil_r.
  - destruct (signal_aborted ch); [eexists; now rewrite app_nil_r|].
    destruct (truthy (chunk_text ch) || is_some (chunk_usage ch)).
    + unfold record_text at 1. cbn [text].
      match goal with |- context [stream_loop _ _ ?t ?g ?l] =>
        destruct (IH t g l) as (c & ->) end.
      exists c. now rewrite <- app_assoc.
    + apply IH.
  - eexists. now rewrite app_nil_r.
Qed.

Lemma is_prefix_refl (a : str) : is_prefix a a.
Proof. exists []. now rewrite app_nil_r. Qed.

Lemma is_prefix_trans (a b c : str) :
  is_prefix a b -> is_prefix b c -> is_prefix a c.
Proof. intros [d ->] [e ->]. exists (d ++ e). now rewrite app_assoc. Qed.

Lemma delivered_grow (items : list StreamItem) (ft : str) :
  Forall (is_prefix ft) (delivered items ft) /\
  StronglySorted is_prefix (delivered items ft).
Proof.
  revert ft; induction items as [|[ch|msg] items IH]; intros ft;
    cbn [delivered]; try (split; constructor).
  destruct (signal_aborted ch); [split; constructor|].
  destruct (truthy (chunk_text ch) || is_some (chunk_usage ch)); [|apply IH].
  match goal with |- context [delivered items ?t] =>
    destruct (IH t) as [H1 H2]; revert H1 H2; generalize (delivered items t);
    intros l H1 H2;
    assert (Hp : is_prefix ft t) by (eexists; reflexivity) end.
  split.
  - constructor; [exact Hp|].
    eapply Forall_impl; [|exact H1]. intros a Ha.
    eapply is_prefix_trans; eauto.
  - constructor; assumption.
Qed.

Lemma last_cons (A : Type) (a d : A) (l : list A) :
  last (a :: l) d = last l a.
Proof.
  revert a d; induction l as [|b l IH]; intros a d; [reflexivity|].
  change (last (a :: b :: l) d) with (last (b :: l) d).
  now rewrite !IH.
Qed.

(** When every chunk arrives, the loop returns the texts of the chunks put
    together, and that is the last text it has handed over, if any. *)
Lemma stream_loop_arrives (items : list StreamItem) (ft : str)
  (fm : option GroundingMetadata) (log : list str) :
  Forall arrives items ->
  stream_loop record_text items ft fm log
  = Some (Returned (ft ++ concat (map item_text items)),
          log ++ delivered items ft) /\
  last (delivered items ft) ft = ft ++ concat (map item_text items).
Proof.
  intros H. revert ft fm log.
  induction H as [|[ch|msg] items Ha _ IH]; intros ft fm log;
    cbn [stream_loop delivered map concat item_text].
  - rewrite !app_nil_r. now split.
  - cbn [arrives] in Ha. rewrite Ha.
    destruct (truthy (chunk_text ch) || is_some (chunk_usage ch)) eqn:T.
    + unfold record_text at 1. cbn [text].
      match goal with |- context [stream_loop _ _ ?t ?g ?l] =>
        destruct (IH t g l) as (-> & Hl) end.
      split; [now rewrite <- !app_assoc|].
      refine (eq_trans (last_cons _ _ _ _) (eq_trans Hl _)).
      symmetry. apply app_assoc.
    + apply orb_false_iff in T. destruct T as [T _].
      assert (E : match chunk_text ch with Some t => t | None => [] end = []).
      { destruct (chunk_text ch) as [[|a t]|]; [reflexivity| |reflexivity].
        discriminate T. }
      rewrite E. cbn [app]. apply IH.
  - destruct Ha.
Qed.

(** X9: what the service hands to its callback.  Whatever the stream does,
    the call ends, and each text handed over starts with every text handed
    over before it.  When every chunk arrives (no failure and no stop), the
    call returns the texts of all chunks put together, and the last text
    handed over, if there is one, is the text returned. *)
Theorem stream_texts_grow (items : list StreamItem) :
  exists c log,
    streamGeminiResponse record_text items [] = Some (c, log) /\
    StronglySorted is_prefix log /\
    (Forall arrives items ->
     c = Returned (concat (map item_text items)) /\
     last log [] = concat (map item_text items)).
Proof.
  unfold streamGeminiResponse.
  destruct (stream_loop_record items [] None []) as (c & E).
  cbn [app] in E.
  destruct (delivered_grow items []) as [_ Hs].
  assert (Ha : Forall arrives items ->
               c = Returned (concat (map item_text items)) /\
               last (delivered items []) [] = concat (map item_text items)).
  { intros H.
    destruct (stream_loop_arrives items [] None [] H) as [E' Hl].
    cbn [app] in E', Hl. rewrite E in E'. injection E' as ->. now split. }
  rewrite E. destruct c as [v|msg].
  - exists (Returned v), (delivered items []). now split.
  - destruct (str_eqb msg ABORTED_BY_USER).
    + exists (Returned STOPPED_BY_USER), (delivered items []).
      split; [reflexivity|]. split; [exact Hs|].
      intros H. destruct (Ha H) as [Hc _]. discriminate Hc.
    + exists (Thrown msg), (delivered items []). now split.
Qed.

(* ================================================================= *)
(** ** Escaping *)

Lemma replace_all_app (c : ascii) (by_ a b : str) :
  replace_all c by_ (a ++ b) = replace_all c by_ a ++ replace_all c by_ b.
Proof. apply flat_map_app. Qed.

Lemma escape_html_app (a b : str) :
  escape_html (a ++ b) = escape_html a ++ escape_html b.
Proof. unfold escape_html. now rewrite !replace_all_app. Qed.

Lemma escape_html_one (c : ascii) : escape_html [c] = entity_of c.
Proof.
  unfold escape_html, entity_of, replace_all. cbn [flat_map app].
  destruct (Ascii.eqb c "&") eqn:E1; [reflexivity|].
  cbn [flat_map app].
  destruct (Ascii.eqb c "<") eqn:E2; [reflexivity|].
  cbn [flat_map app].
  destruct (Ascii.eqb c ">") eqn:E3; reflexivity.
Qed.

(** The three replacements, one after the other, do what one pass does
    that writes each character's entity: no later replacement touches what
    an earlier one has written. *)
Lemma escape_html_chars (s : str) : escape_html s = flat_map entity_of s.
Proof.
  induction s as [|c s IH]; [reflexivity|].
  change (c :: s) with ([c] ++ s).
  rewrite escape_html_app, escape_html_one, IH. reflexivity.
Qed.

Lemma entity_of_cases (c : ascii) :
  (c = "&"%char /\ entity_of c = lit "&amp;") \/
  (c = "<"%char /\ entity_of c = lit "&lt;") \/
  (c = ">"%char /\ entity_of c = lit "&gt;") \/
  (c <> "&"%char /\ c <> "<"%char /\ c <> ">"%char /\ entity_of c = [c]).
Proof.
  unfold entity_of.
  destruct (Ascii.eqb_spec c "&"); [now left|].
  destruct (Ascii.eqb_spec c "<"); [right; now left|].
  destruct (Ascii.eqb_spec c ">"); [right; right; now left|].
  right; right; right. tauto.
Qed.

(** X10: escaped text holds no angle bracket, whatever the text, and it is
    what one gets by writing, character by character, the entity of an
    ampersand or of an angle bracket and any other character as it is. *)
Theorem escaped_has_no_bracket (code : str) :
  escape_html code = flat_map entity_of code /\
  Forall (fun c => c <> "<"%char /\ c <> ">"%char) (escape_html code).
Proof.
  split; [apply escape_html_chars|].
  rewrite escape_html_chars.
  induction code as [|c s IH]; [constructor|].
  cbn [flat_map]. apply Forall_app. split; [|exact IH].
  destruct (entity_of_cases c)
    as [[_ ->]|[[_ ->]|[[_ ->]|(H1 & H2 & H3 & ->)]]];
    repeat constructor; try discriminate; assumption.
Qed.

Lemma entity_of_inj (c d : ascii) (a b : str) :
  entity_of c ++ a = entity_of d ++ b -> c = d /\ a = b.
Proof.
  destruct (entity_of_cases c)
    as [[-> ->]|[[-> ->]|[[-> ->]|(H1 & H2 & H3 & ->)]]];
  destruct (entity_of_cases d)
    as [[-> ->]|[[-> ->]|[[-> ->]|(G1 & G2 & G3 & ->)]]];
  cbn [lit list_ascii_of_string app]; intros E;
    try discriminate E;
    try (injection E as E; split; congruence);
    try (injection E as E; congruence).
Qed.

(** X11: escaping loses nothing: two texts with the same escaped text are
    the same text. *)
Theorem escape_html_injective (a b : str) :
  escape_html a = escape_html b -> a = b.
Proof.
  rewrite !escape_html_chars. revert b.
  induction a as [|c a IH]; intros [|d b]; cbn [flat_map]; intros E.
  - reflexivity.
  - destruct (entity_of_cases d)
      as [[_ G]|[[_ G]|[[_ G]|(_ & _ & _ & G)]]]; rewrite G in E;
      discriminate E.
  - destruct (entity_of_cases c)
      as [[_ G]|[[_ G]|[[_ G]|(_ & _ & _ & G)]]]; rewrite G in E;
      discriminate E.
  - apply entity_of_inj in E. destruct E as [-> E]. f_equal. now apply IH.
Qed.

Lemma escape_html_injective_witness :
  lit "a<b>&amp;" = lit "a<b>&amp;".
Proof.
  apply (escape_html_injective (lit "a<b>&amp;") (lit "a<b>&amp;")).
  reflexivity.
Defined.

(* ================================================================= *)
(** ** Markdown.tsx: the loop over the matches *)

Section PartsLoopLemmas.
Variable Part : Type.
Variable regex : Matcher.
Variable between : nat -> str -> Part.
Variable hit : Match -> Part.

Lemma search_with_eq (s : str) (i : nat) :
  search_with regex s i
  = match regex s with
    | Some (caps, rest) =>
        Some {| index := i; groups := caps;
                endIndex := i + (length s - length rest) |}
    | None =>
        match s with
        | [] => None
        | _ :: s' => search_with regex s' (S i)
        end
    end.
Proof. destruct s; reflexivity. Qed.

Lemma search_with_skip (pre rest : str) (i : nat) :
  no_match_before regex pre rest ->
  search_with regex (pre ++ rest) i
  = search_with regex rest (i + length pre).
Proof.
  revert i; induction pre as [|c pre IH]; intros i H.
  - cbn [app length]. now rewrite Nat.add_0_r.
  - rewrite search_with_eq.
    rewrite (H [] (c :: pre) eq_refl) by discriminate.
    cbn [app length]. rewrite IH; [f_equal; lia|].
    intros a b -> Hb. apply (H (c :: a) b); [reflexivity | exact Hb].
Qed.

Lemma search_with_none (s : str) (i : nat) :
  no_match regex s -> search_with regex s i = None.
Proof.
  revert i; induction s as [|c s IH]; intros i H; rewrite search_with_eq.
  - now rewrite (H [] [] eq_refl).
  - rewrite (H [] (c :: s) eq_refl). apply IH.
    intros a b ->. apply (H (c :: a) b). reflexivity.
Qed.

Lemma search_with_hit (mm post : str) (caps : list str) (i : nat) :
  regex (mm ++ post) = Some (caps, post) ->
  search_with regex (mm ++ post) i
  = Some {| index := i; groups := caps; endIndex := i + length mm |}.
Proof.
  intros H. rewrite search_with_eq, H. do 2 f_equal.
  rewrite length_app. lia.
Qed.

(** The loop follows a cutting of the text. *)
Lemma splits_run (done s : str) (ps : list Part) :
  splits Part regex between hit (length done) s ps ->
  forall parts fuel, length s < fuel ->
  exists parts' li,
    parts_loop Part regex between hit fuel {| lastIndex := length done |}
      (done ++ s) parts (length done) = Some (parts', li) /\
    (if li <? length (done ++ s)
     then parts' ++ [between li (skipn li (done ++ s))]
     else parts') = parts ++ ps.
Proof.
  remember (length done) as i eqn:Ei. intros H. revert done Ei.
  induction H as [i s Hn | i pre mm caps post ps Hb Hm Hr Hs IH];
    intros done Ei parts fuel Hf; (destruct fuel as [|fuel]; [lia|]).
  - cbn [parts_loop]. unfold exec_with. cbn [lastIndex]. subst i.
    rewrite skipn_length_app, search_with_none by exact Hn.
    eexists _, _. split; [reflexivity|].
    rewrite length_app, skipn_length_app.
    destruct s as [|c s]; cbn [text_part length].
    + rewrite Nat.add_0_r, Nat.ltb_irrefl. now rewrite app_nil_r.
    + destruct (Nat.ltb_spec (length done) (length done + S (length s)));
        [reflexivity | lia].
  - cbn [parts_loop]. unfold exec_with. cbn [lastIndex]. subst i.
    rewrite skipn_length_app, search_with_skip by exact Hb.
    rewrite (search_with_hit mm post caps _ Hr). cbn [index endIndex].
    replace (length done + length pre + (length done + length pre
             + length mm - (length done + length pre)))
      with (length (done ++ pre ++ mm))
      by (rewrite !length_app; lia).
    replace (length done + length pre + length mm)
      with (length (done ++ pre ++ mm)) in *
      by (rewrite !length_app; lia).
    replace (done ++ pre ++ mm ++ post) with ((done ++ pre ++ mm) ++ post)
      by (now rewrite <- !app_assoc).
    rewrite !length_app in Hf.
    match goal with |- context [parts_loop _ _ _ _ _ _ _ ?p _] =>
      destruct (IH (done ++ pre ++ mm) eq_refl p fuel) as (p' & li & E & F);
        [assert (0 < length mm) by (destruct mm; [congruence|cbn; lia]); lia|]
    end.
    exists p', li. split; [exact E|]. rewrite F. clear E F IH.
    destruct pre as [|c pre]; cbn [text_part length app].
    + rewrite Nat.add_0_r, Nat.ltb_irrefl. now rewrite <- !app_assoc.
    + destruct (Nat.ltb_spec (length done) (length done + S (length pre)));
        [|lia].
      rewrite <- !app_assoc. cbn [app]. do 3 f_equal. unfold substring.
      replace (length done + S (length pre) - length done)
        with (length (c :: pre)) by (cbn [length]; lia).
      rewrite skipn_length_app.
      rewrite <- (app_assoc pre mm post).
      exact (firstn_length_app _ (c :: pre) _).
Qed.

Hypothesis regex_consuming : consuming regex.

Lemma search_with_inv (s : str) (i : nat) :
  match search_with regex s i with
  | None => no_match regex s
  | Some mt =>
      exists pre mm post,
        s = pre ++ mm ++ post /\ no_match_before regex pre (mm ++ post) /\
        mm <> [] /\ regex (mm ++ post) = Some (groups mt, post) /\
        index mt = i + length pre /\
        endIndex mt = i + length pre + length mm
  end.
Proof.
  revert i; induction s as [|c s IH]; intros i; rewrite search_with_eq.
  - destruct (regex []) as [[caps rest]|] eqn:E.
    + destruct (regex_consuming _ _ _ E) as (mm & Hm & Hs).
      destruct mm; [congruence | discriminate Hs].
    + intros a b Hab. symmetry in Hab. apply app_eq_nil in Hab.
      destruct Hab as [_ ->]. exact E.
  - destruct (regex (c :: s)) as [[caps rest]|] eqn:E.
    + destruct (regex_consuming _ _ _ E) as (mm & Hm & Hs).
      assert (Hl : length (c :: s) = length mm + length rest)
        by (rewrite Hs; apply length_app).
      exists [], mm, rest. cbn [app length index endIndex groups] in *.
      split; [exact Hs|]. split.
      { intros a b Hab Hb. symmetry in Hab. apply app_eq_nil in Hab.
        destruct Hab as [_ ->]. congruence. }
      split; [exact Hm|]. split; [now rewrite <- Hs|].
      split; lia.
    + specialize (IH (S i)). destruct (search_with regex s (S i)) as [mt|].
      * destruct IH as (pre & mm & post & -> & Hb & Hm & Hr & Hi & He).
        exists (c :: pre), mm, post. cbn [app length].
        split; [reflexivity|]. split.
        { intros a b Hab Hnb. destruct a as [|x a].
          - cbn [app] in Hab. subst b. exact E.
          - injection Hab as -> ->. now apply (Hb a b). }
        split; [exact Hm|]. split; [exact Hr|]. split; lia.
      * intros a b Hab. destruct a as [|x a].
        -- cbn [app] in Hab. subst b. exact E.
        -- injection Hab as -> ->. now apply (IH a b).
Qed.

(** Every text has a cutting. *)
Lemma splits_total (s : str) (i : nat) :
  exists ps, splits Part regex between hit i s ps.
Proof.
  remember (length s) as n eqn:En. revert s i En.
  induction n as [n IH] using lt_wf_ind. intros s i En.
  pose proof (search_with_inv s i) as H.
  destruct (search_with regex s i) as [mt|].
  - destruct H as (pre & mm & post & -> & Hb & Hm & Hr & Hi & He).
    destruct (IH (length post)) with (s := post)
      (i := i + length pre + length mm) as (ps & Hps); [|reflexivity|].
    { subst n. rewrite !length_app.
      assert (0 < length mm) by (destruct mm; [congruence|cbn; lia]). lia. }
    eexists. eapply splits_hit; eauto.
  - eexists. now apply splits_end.
Qed.

(** The loop ends on every text, and its elements are those of a cutting
    of the text. *)
Lemma parts_of_splits (content : str) :
  exists ps,
    parts_of Part regex between hit content = Some ps /\
    splits Part regex between hit 0 content ps.
Proof.
  destruct (splits_total content 0) as (ps & Hps).
  exists ps. split; [|exact Hps].
  destruct (splits_run [] content ps Hps [] (S (length content)))
    as (p' & li & E & F); [lia|].
  unfold parts_of, fresh_regex. cbn [app length] in E, F.
  rewrite E. now rewrite F.
Qed.

Lemma parts_of_run (content : str) (ps : list Part) :
  splits Part regex between hit 0 content ps ->
  parts_of Part regex between hit content = Some ps.
Proof.
  intros Hps.
  destruct (splits_run [] content ps Hps [] (S (length content)))
    as (p' & li & E & F); [lia|].
  unfold parts_of, fresh_regex. cbn [app length] in E, F.
  rewrite E. now rewrite F.
Qed.
End PartsLoopLemmas.

Section PartsLoopKeys.
Variable Part : Type.
Variable regex : Matcher.
Variable between : nat -> str -> Part.
Variable hit : Match -> Part.

Lemma splits_nil (i : nat) (ps : list Part) :
  splits Part regex between hit i [] ps -> ps = [].
Proof.
  intros H. remember (@nil ascii) as s eqn:Es.
  destruct H as [i s Hn | i pre mm caps post ps Hb Hm Hr Hs];
    [now subst|].
  destruct pre; [|discriminate Es].
  destruct mm; [congruence | discriminate Es].
Qed.

(** A cutting moved to the right. *)
Variable shift : nat -> Part -> Part.
Hypothesis shift_between :
  forall n i t, shift n (between i t) = between (n + i) t.
Hypothesis shift_hit :
  forall n mt,
    shift n (hit mt)
    = hit {| index := n + index mt; groups := groups mt;
             endIndex := n + endIndex mt |}.

Lemma splits_shift (n i : nat) (s : str) (ps : list Part) :
  splits Part regex between hit i s ps ->
  splits Part regex between hit (n + i) s (map (shift n) ps).
Proof.
  induction 1 as [i s Hn | i pre mm caps post ps Hb Hm Hr Hs IH].
  - replace (map (shift n) (text_part Part between i s))
      with (text_part Part between (n + i) s)
      by (destruct s; cbn [text_part map]; now rewrite ?shift_between).
    now apply splits_end.
  - rewrite map_app. cbn [map]. rewrite shift_hit. cbn [index groups endIndex].
    replace (map (shift n) (text_part Part between i pre))
      with (text_part Part between (n + i) pre)
      by (destruct pre; cbn [text_part map]; now rewrite ?shift_between).
    rewrite !Nat.add_assoc. apply splits_hit; auto.
    replace (n + i + length pre + length mm)
      with (n + (i + length pre + length mm)) by lia.
    exact IH.
Qed.

(** The keys grow along a cutting. *)
Variable key : Part -> nat.
Hypothesis key_between : forall i t, key (between i t) = i.
Hypothesis key_hit : forall mt, key (hit mt) = index mt.

Lemma splits_keys (i : nat) (s : str) (ps : list Part) :
  splits Part regex between hit i s ps ->
  Forall (fun k => i <= k) (map key ps) /\
  StronglySorted lt (map key ps).
Proof.
  induction 1 as [i s Hn | i pre mm caps post ps Hb Hm Hr Hs [IH1 IH2]].
  - destruct s; cbn [text_part map]; rewrite ?key_between;
      split; repeat constructor.
  - assert (Hl : 0 < length mm) by (destruct mm; [congruence|cbn; lia]).
    assert (Hps : Forall (fun k => i + length pre < k) (map key ps)).
    { eapply Forall_impl; [|exact IH1]. cbn. intros k Hk. lia. }
    assert (Hc : StronglySorted lt
                   (map key (hit {| index := i + length pre; groups := caps;
                                    endIndex := i + length pre + length mm |}
                             :: ps))).
    { cbn [map]. rewrite key_hit. cbn [index]. now constructor. }
    destruct pre as [|c pre]; cbn [text_part app map length] in *.
    + split; [|exact Hc]. rewrite key_hit. cbn [index].
      constructor; [lia|]. eapply Forall_impl; [|exact Hps]. cbn. lia.
    + rewrite key_between, key_hit in *. cbn [index] in *. split.
      * constructor; [lia|]. constructor; [lia|].
        eapply Forall_impl; [|exact Hps]. cbn. lia.
      * constructor; [exact Hc|]. constructor; [lia|].
        eapply Forall_impl; [|exact Hps]. cbn. lia.
Qed.
End PartsLoopKeys.

(* ================================================================= *)
(** ** Markdown.tsx: the pattern of a thinking block *)

Lemma no_straddle (x : ascii) (p b s : str) :
  ~ In x p -> b <> [] ->
  startsWith (x :: p) (b ++ x :: s) = true -> startsWith (x :: p) b = true.
Proof.
  intros Hx Hb H. destruct b as [|c b]; [congruence|].
  cbn [app startsWith] in *.
  apply andb_true_iff in H. destruct H as [H1 H2]. rewrite H1. cbn [andb].
  now apply (startsWith_cut p b x s).
Qed.

Lemma think_close_no_straddle (b s : str) :
  b <> [] ->
  startsWith THINK_CLOSE (b ++ THINK_CLOSE ++ s) = true ->
  startsWith THINK_CLOSE b = true.
Proof.
  intros Hb. apply (no_straddle "<"%char (lit "/think>")); [|exact Hb].
  cbn [In lit list_ascii_of_string]. intros H.
  repeat (destruct H as [H|H]; [discriminate H|]). exact H.
Qed.

Lemma think_open_no_straddle (b s : str) :
  b <> [] ->
  startsWith THINK_OPEN (b ++ THINK_OPEN ++ s) = true ->
  startsWith THINK_OPEN b = true.
Proof.
  intros Hb. apply (no_straddle "<"%char (lit "think>")); [|exact Hb].
  cbn [In lit list_ascii_of_string]. intros H.
  repeat (destruct H as [H|H]; [discriminate H|]). exact H.
Qed.

Lemma contains_suffix (p a b : str) :
  contains p (a ++ b) = false -> startsWith p b = false.
Proof.
  intros H. apply contains_app_r in H. now apply contains_startsWith.
Qed.

Lemma lazy_eq (R : Type) (cls : ascii -> bool)
  (k : str -> str -> option R) (s acc : str) :
  lazy cls k s acc
  = match k acc s with
    | Some r => Some r
    | None =>
        match s with
        | c :: s' => if cls c then lazy cls k s' (acc ++ [c]) else None
        | [] => None
        end
    end.
Proof. destruct s; reflexivity. Qed.

Lemma think_lazy_closed (th post acc : str) :
  contains THINK_CLOSE th = false ->
  lazy any_char think_end (th ++ THINK_CLOSE ++ post) acc
  = Some ([acc ++ th], post).
Proof.
  revert acc; induction th as [|c th IH]; intros acc H.
  - cbn [app]. rewrite lazy_eq. unfold think_end.
    rewrite strip_prefix_app. now rewrite app_nil_r.
  - assert (Ht : contains THINK_CLOSE th = false).
    { cbn [contains] in H. apply orb_false_iff in H. tauto. }
    change ((c :: th) ++ THINK_CLOSE ++ post)
      with (c :: (th ++ THINK_CLOSE ++ post)).
    cbn [lazy any_char]; unfold think_end at 1.
    assert (E : strip_prefix THINK_CLOSE (c :: th ++ THINK_CLOSE ++ post)
                = None).
    { apply strip_prefix_startsWith.
      destruct (startsWith THINK_CLOSE (c :: th ++ THINK_CLOSE ++ post))
        eqn:S; [|reflexivity].
      apply (think_close_no_straddle (c :: th)) in S; [|discriminate].
      apply contains_startsWith in H. congruence. }
    rewrite E, IH by exact Ht. now rewrite <- app_assoc.
Qed.

Lemma think_lazy_open (th acc : str) :
  contains THINK_CLOSE th = false ->
  lazy any_char think_end th acc = Some ([acc ++ th], []).
Proof.
  revert acc; induction th as [|c th IH]; intros acc H.
  - cbn [lazy]. unfold think_end, THINK_CLOSE. cbn [strip_prefix].
    now rewrite app_nil_r.
  - assert (Ht : contains THINK_CLOSE th = false).
    { cbn [contains] in H. apply orb_false_iff in H. tauto. }
    cbn [lazy any_char]; unfold think_end at 1.
    assert (E : strip_prefix THINK_CLOSE (c :: th) = None).
    { apply strip_prefix_startsWith. now apply contains_startsWith. }
    rewrite E, IH by exact Ht. now rewrite <- app_assoc.
Qed.

Lemma think_lazy_inv (s acc : str) (caps : list str) (rest : str) :
  lazy any_char think_end s acc = Some (caps, rest) ->
  exists th,
    caps = [acc ++ th] /\ contains THINK_CLOSE th = false /\
    (s = th ++ THINK_CLOSE ++ rest \/ (s = th /\ rest = [])).
Proof.
  revert acc; induction s as [|c s IH]; intros acc.
  - cbn [lazy]. unfold think_end, THINK_CLOSE. cbn [strip_prefix].
    intros [= <- <-]. exists []. rewrite app_nil_r. auto.
  - cbn [lazy any_char]; unfold think_end at 1.
    destruct (strip_prefix THINK_CLOSE (c :: s)) as [r|] eqn:E.
    + intros [= <- <-]. exists []. rewrite app_nil_r.
      apply strip_prefix_Some in E. rewrite E. auto.
    + intros H. apply IH in H.
      destruct H as (th & -> & Hc & Hs). exists (c :: th).
      rewrite <- app_assoc. split; [reflexivity|]. split.
      * cbn [contains]. apply orb_false_iff. split; [|exact Hc].
        apply strip_prefix_startsWith in E.
        destruct (startsWith THINK_CLOSE (c :: th)) eqn:S; [|reflexivity].
        destruct Hs as [->|[-> _]]; [|congruence].
        apply startsWith_app_l with (b := THINK_CLOSE ++ rest) in S.
        cbn [app] in S. congruence.
      * destruct Hs as [->|[-> ->]]; [now left | now right].
Qed.

Lemma thinkRegex_closed (th post : str) :
  contains THINK_CLOSE th = false ->
  thinkRegex (THINK_OPEN ++ th ++ THINK_CLOSE ++ post) = Some ([th], post).
Proof.
  intros H. unfold thinkRegex. rewrite strip_prefix_app.
  now rewrite think_lazy_closed.
Qed.

Lemma thinkRegex_open (th : str) :
  contains THINK_CLOSE th = false ->
  thinkRegex (THINK_OPEN ++ th) = Some ([th], []).
Proof.
  intros H. unfold thinkRegex. rewrite strip_prefix_app.
  now rewrite think_lazy_open.
Qed.

Lemma thinkRegex_none (s : str) :
  startsWith THINK_OPEN s = false -> thinkRegex s = None.
Proof.
  intros H. unfold thinkRegex.
  now rewrite (proj1 (strip_prefix_startsWith _ _) H).
Qed.

Lemma thinkRegex_inv (s : str) (caps : list str) (rest : str) :
  thinkRegex s = Some (caps, rest) ->
  exists th,
    caps = [th] /\ contains THINK_CLOSE th = false /\
    (s = THINK_OPEN ++ th ++ THINK_CLOSE ++ rest \/
     (s = THINK_OPEN ++ th /\ rest = [])).
Proof.
  unfold thinkRegex.
  destruct (strip_prefix THINK_OPEN s) as [s1|] eqn:E; [|discriminate].
  apply strip_prefix_Some in E. intros H. apply think_lazy_inv in H.
  destruct H as (th & -> & Hc & Hs). exists th. cbn [app].
  split; [reflexivity|]. split; [exact Hc|].
  destruct Hs as [->|[-> ->]]; [left | right]; auto.
Qed.

Lemma thinkRegex_consuming : consuming thinkRegex.
Proof.
  intros s caps rest H. apply thinkRegex_inv in H.
  destruct H as (th & _ & _ & [->|[-> ->]]).
  - exists (THINK_OPEN ++ th ++ THINK_CLOSE).
    split; [discriminate | now rewrite <- !app_assoc].
  - exists (THINK_OPEN ++ th). split; [discriminate | now rewrite app_nil_r].
Qed.

(** After the opening tag the pattern always matches. *)
Lemma thinkRegex_starts (s : str) :
  startsWith THINK_OPEN s = true -> thinkRegex s <> None.
Proof.
  intros H. unfold thinkRegex.
  destruct (strip_prefix THINK_OPEN s) as [s1|] eqn:E.
  - clear. generalize (@nil ascii). induction s1 as [|c s1 IH]; intros acc.
    + cbn [lazy]. unfold think_end, THINK_CLOSE. cbn [strip_prefix].
      discriminate.
    + cbn [lazy any_char]; unfold think_end at 1.
      destruct (strip_prefix THINK_CLOSE (c :: s1)); [discriminate|].
      apply IH.
  - apply strip_prefix_startsWith in E. congruence.
Qed.

Lemma think_no_match_before (pre rest : str) :
  contains THINK_OPEN pre = false ->
  no_match_before thinkRegex pre (THINK_OPEN ++ rest).
Proof.
  intros H a b -> Hb. apply thinkRegex_none.
  destruct (startsWith THINK_OPEN (b ++ THINK_OPEN ++ rest)) eqn:S;
    [|reflexivity].
  apply think_open_no_straddle in S; [|exact Hb].
  apply contains_suffix in H. congruence.
Qed.

Lemma think_no_match_before_inv (pre rest : str) :
  no_match_before thinkRegex pre rest -> contains THINK_OPEN pre = false.
Proof.
  induction pre as [|c pre IH]; intros H; [reflexivity|].
  cbn [contains]. apply orb_false_iff. split.
  - destruct (startsWith THINK_OPEN (c :: pre)) eqn:S; [|reflexivity].
    apply startsWith_app_l with (b := rest) in S.
    apply thinkRegex_starts in S.
    rewrite (H [] (c :: pre) eq_refl) in S by discriminate. congruence.
  - apply IH. intros a b -> Hb. now apply (H (c :: a) b).
Qed.

Lemma think_no_match (s : str) :
  contains THINK_OPEN s = false -> no_match thinkRegex s.
Proof.
  intros H a b ->. apply thinkRegex_none. now apply contains_suffix in H.
Qed.

Lemma think_no_match_inv (s : str) :
  no_match thinkRegex s -> contains THINK_OPEN s = false.
Proof.
  induction s as [|c s IH]; intros H; [reflexivity|].
  cbn [contains]. apply orb_false_iff. split.
  - destruct (startsWith THINK_OPEN (c :: s)) eqn:S; [|reflexivity].
    apply thinkRegex_starts in S.
    now rewrite (H [] (c :: s) eq_refl) in S.
  - apply IH. intros a b ->. now apply (H (c :: a) b).
Qed.

(* ================================================================= *)
(** ** Markdown.tsx: the children of Markdown *)

Lemma Markdown_parts_splits (content : str) :
  exists ps,
    Markdown_parts content = Some ps /\
    splits _ thinkRegex ContentParser_ think_hit 0 content ps.
Proof.
  apply (parts_of_splits _ thinkRegex ContentParser_ think_hit
           thinkRegex_consuming).
Qed.

(** X12: a thinking block and what follows.  When the text before the
    opening tag holds no opening tag and the thought no closing tag, the
    children of a text with a closed block are the text before it, if it
    is not empty, the thought, and the children of the text after the
    closing tag, their keys moved by the length of what precedes; a block
    that is not closed takes the text to its end; and a text without
    opening tag is one child, or none if it is empty. *)
Theorem thinking_block_then_rest (pre th post : str) :
  contains THINK_OPEN pre = false ->
  contains THINK_CLOSE th = false ->
  Markdown_parts (pre ++ THINK_OPEN ++ th ++ THINK_CLOSE ++ post)
  = option_map
      (fun ps =>
         text_part _ ContentParser_ 0 pre ++
         ThinkingBlock_ (length pre) th ::
         map (shift_part
                (length pre + length (THINK_OPEN ++ th ++ THINK_CLOSE)))
             ps)
      (Markdown_parts post) /\
  Markdown_parts (pre ++ THINK_OPEN ++ th)
  = Some (text_part _ ContentParser_ 0 pre ++
          [ThinkingBlock_ (length pre) th]) /\
  Markdown_parts pre = Some (text_part _ ContentParser_ 0 pre).
Proof.
  intros Hpre Hth. split; [|split].
  - destruct (Markdown_parts_splits post) as (ps & -> & Hps).
    cbn [option_map]. apply parts_of_run.
    apply (splits_shift _ thinkRegex ContentParser_ think_hit shift_part)
      with (n := length pre + length (THINK_OPEN ++ th ++ THINK_CLOSE))
      in Hps; [|reflexivity|reflexivity].
    rewrite Nat.add_0_r in Hps.
    pose proof (splits_hit _ thinkRegex ContentParser_ think_hit 0 pre
                  (THINK_OPEN ++ th ++ THINK_CLOSE) [th] post
                  (map (shift_part
                          (length pre
                           + length (THINK_OPEN ++ th ++ THINK_CLOSE))) ps))
      as H.
    unfold think_hit in H at 2. cbn [Nat.add index groups nth] in H.
    rewrite <- !app_assoc in H. apply H; clear H.
    + now apply think_no_match_before.
    + discriminate.
    + now apply thinkRegex_closed.
    + exact Hps.
  - apply parts_of_run.
    pose proof (splits_hit _ thinkRegex ContentParser_ think_hit 0 pre
                  (THINK_OPEN ++ th) [th] [] []) as H.
    unfold think_hit in H at 2. cbn [Nat.add index groups nth] in H.
    rewrite !app_nil_r in H. apply H; clear H.
    + now apply think_no_match_before.
    + discriminate.
    + now apply thinkRegex_open.
    + apply (splits_end _ thinkRegex ContentParser_ think_hit _ []).
      intros a b Hab. symmetry in Hab. apply app_eq_nil in Hab.
      destruct Hab as [_ ->]. reflexivity.
  - apply parts_of_run. apply splits_end. now apply think_no_match.
Qed.

Lemma thinking_block_then_rest_witness :
  Markdown_parts (lit "Hi <think>plan</think>done")
  = Some [ContentParser_ 0 (lit "Hi "); ThinkingBlock_ 3 (lit "plan");
          ContentParser_ 22 (lit "done")].
Proof.
  refine (eq_trans
            (proj1 (thinking_block_then_rest (lit "Hi ") (lit "plan")
                      (lit "done") _ _)) _);
    reflexivity.
Defined.

Lemma startsWith_refl (p : str) : startsWith p p = true.
Proof.
  pose proof (startsWith_app p []) as H. now rewrite app_nil_r in H.
Qed.

Lemma splits_think_ok (i : nat) (s : str) (ps : list MarkdownPart) :
  splits _ thinkRegex ContentParser_ think_hit i s ps ->
  forall done, length done = i ->
    Forall (part_ok (done ++ s)) ps /\
    (exists closed, reassemble closed ps = s) /\
    (s <> [] -> ps <> []).
Proof.
  induction 1 as [i s Hn | i pre mm caps post ps Hb Hm Hr Hs IH];
    intros done Hd.
  - apply think_no_match_inv in Hn.
    destruct s as [|c s]; cbn [text_part].
    + split; [constructor|]. split; [now exists true | congruence].
    + split; [|split; [|discriminate]].
      * constructor; [|constructor]. cbn [part_ok].
        split; [discriminate|]. split; [exact Hn|].
        rewrite <- Hd, skipn_length_app. apply startsWith_refl.
      * exists true. cbn [reassemble]. now rewrite app_nil_r.
  - apply think_no_match_before_inv in Hb.
    apply thinkRegex_inv in Hr. destruct Hr as (th & -> & Hc & Hmm).
    destruct (IH (done ++ pre ++ mm)) as (IH1 & (b & IH2) & IH3).
    { rewrite !length_app. lia. }
    rewrite <- !app_assoc in IH1.
    assert (Hth : startsWith (THINK_OPEN ++ th) (mm ++ post) = true).
    { destruct Hmm as [Hmm|[Hmm _]].
      - rewrite Hmm, (app_assoc THINK_OPEN th). apply startsWith_app.
      - rewrite Hmm. apply startsWith_refl. }
    assert (Hk : part_ok (done ++ pre ++ mm ++ post)
                   (ThinkingBlock_ (i + length pre) th)).
    { cbn [part_ok]. split; [exact Hc|].
      rewrite <- Hd, <- length_app, app_assoc, skipn_length_app.
      exact Hth. }
    assert (Hr : exists closed,
               reassemble closed (ThinkingBlock_ (i + length pre) th :: ps)
               = mm ++ post).
    { destruct Hmm as [Hmm|[Hmm ->]].
      - rewrite !app_assoc in Hmm. apply app_inv_tail in Hmm.
        rewrite Hmm, <- !app_assoc.
        destruct ps as [|p ps'].
        + exists true. cbn [reassemble].
          assert (post = []).
          { destruct post; [reflexivity|]. now destruct IH3. }
          subst post. reflexivity.
        + exists b. change (reassemble b (ThinkingBlock_ (i + length pre) th
                                          :: p :: ps'))
            with (THINK_OPEN ++ th ++ THINK_CLOSE
                  ++ reassemble b (p :: ps')).
          now rewrite IH2.
      - apply splits_nil in Hs. subst ps. exists false.
        cbn [reassemble]. rewrite !app_nil_r in *. now rewrite Hmm. }
    unfold think_hit at 2. cbn [index groups nth]. split; [|split].
    + apply Forall_app. split; [|now constructor].
      destruct pre as [|c pre]; cbn [text_part]; constructor; [|constructor].
      cbn [part_ok]. split; [discriminate|]. split; [exact Hb|].
      rewrite <- Hd, skipn_length_app. apply startsWith_app.
    + destruct Hr as (cl & Hr). exists cl.
      destruct pre as [|c pre]; cbn [text_part app]; [exact Hr|].
      change (reassemble cl
                (ContentParser_ i (c :: pre)
                 :: ThinkingBlock_ (i + length (c :: pre)) th :: ps))
        with ((c :: pre)
              ++ reassemble cl
                   (ThinkingBlock_ (i + length (c :: pre)) th :: ps)).
      now rewrite Hr.
    + intros _. destruct (text_part _ ContentParser_ i pre); discriminate.
Qed.

(** X13: nothing of the text is lost.  [Markdown] ends on every text; it
    returns [null] for the empty text and otherwise an element with at
    least one child, and the children, read in order with the tags put
    back around each thought (the last thought possibly without its
    closing tag), are the text. *)
Theorem thinking_blocks_reassemble (content : str) :
  exists r,
    Markdown content = Some r /\
    match r with
    | null => content = []
    | element parts =>
        content <> [] /\ parts <> [] /\
        exists closed, reassemble closed parts = content
    end.
Proof.
  destruct (Markdown_parts_splits content) as (ps & E & Hps).
  destruct (splits_think_ok 0 content ps Hps [] eq_refl) as (_ & Hr & Hn).
  unfold Markdown. destruct content as [|c s].
  - exists null. now split.
  - rewrite E. exists (element ps). split; [reflexivity|].
    split; [discriminate|]. split; [apply Hn; discriminate | exact Hr].
Qed.

(** X14: what the children are.  Every text child is not empty, holds no
    opening tag and stands in the text at the index of its key; every
    thought holds no closing tag, and its opening tag stands in the text
    at the index of its key; and the keys grow from child to child, so no
    two children share a key. *)
Theorem thinking_parts_wellformed (content : str) :
  exists parts,
    Markdown_parts content = Some parts /\
    Forall (part_ok content) parts /\
    StronglySorted lt (map part_key parts).
Proof.
  destruct (Markdown_parts_splits content) as (ps & E & Hps).
  exists ps. split; [exact E|]. split.
  - now destruct (splits_think_ok 0 content ps Hps [] eq_refl) as (H & _).
  - now destruct (splits_keys _ thinkRegex ContentParser_ think_hit part_key
                    (fun _ _ => eq_refl) (fun _ => eq_refl) 0 content ps Hps).
Qed.

(* ================================================================= *)
(** ** Markdown.tsx: the pattern of a code block *)

Lemma fence_straddle (b post : str) :
  b <> [] ->
  startsWith FENCE (b ++ FENCE ++ post) = true ->
  startsWith FENCE (b ++ [backtick; backtick]) = true.
Proof.
  intros Hb H. destruct b as [|x [|y [|z b]]]; [congruence| | |];
    unfold FENCE, backtick in *; cbn [app startsWith] in *.
  - rewrite !andb_true_r in *. exact H.
  - rewrite !andb_true_r in *. apply andb_true_iff in H.
    destruct H as [H1 H2]. now rewrite H1.
  - exact H.
Qed.

Lemma fence_free_first (s post a b : str) :
  fence_free s -> s = a ++ b -> b <> [] ->
  startsWith FENCE (b ++ FENCE ++ post) = false.
Proof.
  intros H -> Hb.
  destruct (startsWith FENCE (b ++ FENCE ++ post)) eqn:S; [|reflexivity].
  apply fence_straddle in S; [|exact Hb].
  unfold fence_free in H. rewrite <- app_assoc in H.
  apply contains_suffix in H. congruence.
Qed.

Lemma fence_free_tail (c : ascii) (s : str) :
  fence_free (c :: s) -> fence_free s.
Proof.
  unfold fence_free. cbn [app contains]. intros H.
  apply orb_false_iff in H. tauto.
Qed.

Lemma fence_lazy_hit (lang code post acc : str) :
  fence_free code ->
  lazy any_char (fence_end_of lang) (code ++ FENCE ++ post) acc
  = Some ([lang; acc ++ code], post).
Proof.
  revert acc; induction code as [|c code IH]; intros acc H.
  - cbn [app]. rewrite lazy_eq. unfold fence_end_of. cbn [run].
    rewrite strip_prefix_app. cbn [push_capture app].
    now rewrite app_nil_r.
  - change ((c :: code) ++ FENCE ++ post)
      with (c :: (code ++ FENCE ++ post)).
    cbn [lazy any_char]. unfold fence_end_of at 1. cbn [run].
    assert (E : strip_prefix FENCE (c :: code ++ FENCE ++ post) = None).
    { apply strip_prefix_startsWith.
      apply (fence_free_first (c :: code) post [] (c :: code));
        [exact H | reflexivity | discriminate]. }
    rewrite E, IH by (eapply fence_free_tail; exact H).
    now rewrite <- app_assoc.
Qed.

Lemma fence_lazy_inv (lang s acc : str) (caps : list str) (rest : str) :
  lazy any_char (fence_end_of lang) s acc = Some (caps, rest) ->
  exists code,
    caps = [lang; acc ++ code] /\ fence_free code /\
    s = code ++ FENCE ++ rest.
Proof.
  revert acc; induction s as [|c s IH]; intros acc.
  - cbn [lazy]. unfold fence_end_of, FENCE. cbn [run strip_prefix].
    discriminate.
  - cbn [lazy any_char]. unfold fence_end_of at 1. cbn [run].
    destruct (strip_prefix FENCE (c :: s)) as [r|] eqn:E.
    + intros [= <- <-]. exists []. cbn [push_capture app].
      rewrite app_nil_r. apply strip_prefix_Some in E.
      split; [reflexivity|]. split; [reflexivity | exact E].
    + intros H. apply IH in H.
      destruct H as (code & -> & Hc & ->). exists (c :: code).
      rewrite <- app_assoc. split; [reflexivity|]. split; [|reflexivity].
      unfold fence_free in *. cbn [app contains].
      apply orb_false_iff. split; [|exact Hc].
      apply strip_prefix_startsWith in E.
      destruct (startsWith FENCE (c :: code ++ [backtick; backtick])) eqn:S;
        [|reflexivity].
      apply startsWith_app_l with (b := backtick :: rest) in S.
      cbn [app] in S. rewrite <- app_assoc in S. cbn [app] in S.
      unfold FENCE, backtick in *. cbn [app] in E. congruence.
Qed.

Lemma word_not_nl (c : ascii) : is_word c = true -> Ascii.eqb nl c = false.
Proof.
  intros H. destruct (Ascii.eqb_spec nl c) as [<-|]; [|reflexivity].
  discriminate H.
Qed.

(** The pattern without backtracking: the fence, the longest word, a line
    feed, and the text up to the first fence. *)
Lemma codeBlockRegex_eq (s : str) :
  codeBlockRegex s
  = match strip_prefix FENCE s with
    | Some s1 =>
        match strip_prefix [nl] (dropWhile is_word s1) with
        | Some s2 =>
            lazy any_char (fence_end_of (takeWhile is_word s1)) s2 []
        | None => None
        end
    | None => None
    end.
Proof.
  unfold codeBlockRegex. cbn [run].
  destruct (strip_prefix FENCE s) as [s1|]; [|reflexivity].
  rewrite greedy_blocked.
  - cbn [Nat.leb app push_capture]. reflexivity.
  - intros a c r Hc. cbn [Nat.leb strip_prefix].
    now rewrite (word_not_nl c Hc).
Qed.

Lemma codeBlockRegex_hit (lang code post : str) :
  forallb is_word lang = true -> fence_free code ->
  codeBlockRegex (FENCE ++ lang ++ nl :: code ++ FENCE ++ post)
  = Some ([lang; code], post).
Proof.
  intros Hl Hc. rewrite codeBlockRegex_eq, strip_prefix_app.
  destruct (span_app is_word lang (nl :: code ++ FENCE ++ post) Hl eq_refl)
    as [-> ->].
  cbn [strip_prefix]. rewrite Ascii.eqb_refl.
  now rewrite fence_lazy_hit.
Qed.

Lemma codeBlockRegex_inv (s : str) (caps : list str) (rest : str) :
  codeBlockRegex s = Some (caps, rest) ->
  exists lang code,
    caps = [lang; code] /\ forallb is_word lang = true /\
    fence_free code /\
    s = FENCE ++ lang ++ nl :: code ++ FENCE ++ rest.
Proof.
  rewrite codeBlockRegex_eq.
  destruct (strip_prefix FENCE s) as [s1|] eqn:E1; [|discriminate].
  apply strip_prefix_Some in E1.
  destruct (strip_prefix [nl] (dropWhile is_word s1)) as [s2|] eqn:E2;
    [|discriminate].
  apply strip_prefix_Some in E2. intros H. apply fence_lazy_inv in H.
  destruct H as (code & -> & Hc & ->).
  exists (takeWhile is_word s1), code. cbn [app].
  split; [reflexivity|]. split; [apply takeWhile_all|].
  split; [exact Hc|].
  rewrite E1. f_equal. rewrite <- (takeWhile_dropWhile is_word s1) at 1.
  now rewrite E2.
Qed.

Lemma codeBlockRegex_none (s : str) :
  startsWith FENCE s = false -> codeBlockRegex s = None.
Proof.
  intros H. rewrite codeBlockRegex_eq.
  now rewrite (proj1 (strip_prefix_startsWith _ _) H).
Qed.

Lemma codeBlockRegex_consuming : consuming codeBlockRegex.
Proof.
  intros s caps rest H. apply codeBlockRegex_inv in H.
  destruct H as (lang & code & _ & _ & _ & ->).
  exists (FENCE ++ lang ++ nl :: code ++ FENCE).
  split; [discriminate|].
  rewrite <- !app_assoc. cbn [app]. now rewrite <- !app_assoc.
Qed.

Lemma fence_no_match_before (pre rest : str) :
  fence_free pre -> no_match_before codeBlockRegex pre (FENCE ++ rest).
Proof.
  intros H a b Hab Hb. apply codeBlockRegex_none.
  now apply (fence_free_first pre rest a b).
Qed.

(* ================================================================= *)
(** ** Markdown.tsx: the children of ContentParser *)

Lemma ContentParser_splits (content : str) :
  exists ps,
    ContentParser content = Some ps /\
    splits _ codeBlockRegex TextSegment_ code_hit 0 content ps.
Proof.
  apply (parts_of_splits _ codeBlockRegex TextSegment_ code_hit
           codeBlockRegex_consuming).
Qed.

(** X15: a code block and what follows.  When the text before the opening
    fence holds no fence and does not end in a backtick, the language is a
    word, possibly empty, and the code holds no fence and does not end in
    a backtick, the children are the text before, if it is not empty, the
    block with its language ([text] for the empty word) and its code, and
    the children of the text after the closing fence, their keys moved by
    the length of what precedes. *)
Theorem code_block_then_rest (pre lang code post : str) :
  fence_free pre -> forallb is_word lang = true -> fence_free code ->
  ContentParser (pre ++ FENCE ++ lang ++ nl :: code ++ FENCE ++ post)
  = option_map
      (fun ps =>
         text_part _ TextSegment_ 0 pre ++
         CodeBlock_ (length pre) (or_default lang (lit "text")) code ::
         map (shift_content_part
                (length pre
                 + length (FENCE ++ lang ++ nl :: code ++ FENCE)))
             ps)
      (ContentParser post).
Proof.
  intros Hpre Hl Hc.
  destruct (ContentParser_splits post) as (ps & -> & Hps).
  cbn [option_map]. apply parts_of_run.
  apply (splits_shift _ codeBlockRegex TextSegment_ code_hit
           shift_content_part)
    with (n := length pre + length (FENCE ++ lang ++ nl :: code ++ FENCE))
    in Hps; [|reflexivity|reflexivity].
  rewrite Nat.add_0_r in Hps.
  pose proof (splits_hit _ codeBlockRegex TextSegment_ code_hit 0 pre
                (FENCE ++ lang ++ nl :: code ++ FENCE) [lang; code] post
                (map (shift_content_part
                        (length pre
                         + length (FENCE ++ lang ++ nl :: code ++ FENCE)))
                     ps))
    as H.
  unfold code_hit in H at 2. cbn [Nat.add index groups nth] in H.
  assert (E : (FENCE ++ lang ++ nl :: code ++ FENCE) ++ post
              = FENCE ++ lang ++ nl :: code ++ FENCE ++ post).
  { rewrite <- !app_assoc. cbn [app]. now rewrite <- !app_assoc. }
  rewrite E in H. apply H; clear H.
  - now apply fence_no_match_before.
  - discriminate.
  - now apply codeBlockRegex_hit.
  - exact Hps.
Qed.

Lemma code_block_then_rest_witness :
  ContentParser
    (lit "Run `x`:" ++ nl :: lit "```js" ++ nl :: lit "f()" ++ nl ::
     lit "```" ++ lit " ok")
  = Some [TextSegment_ 0 (lit "Run `x`:" ++ [nl]);
          CodeBlock_ 9 (lit "js") (lit "f()" ++ [nl]);
          TextSegment_ 22 (lit " ok")].
Proof.
  refine (eq_trans
            (code_block_then_rest (lit "Run `x`:" ++ [nl]) (lit "js")
               (lit "f()" ++ [nl]) (lit " ok") _ _ _) _);
    reflexivity.
Defined.

Lemma count_char_app (c : ascii) (a b : str) :
  count_char c (a ++ b) = count_char c a + count_char c b.
Proof. unfold count_char. now rewrite filter_app, length_app. Qed.

(** X16: a text with fewer than six backticks has no code block: it is
    one text child (none if it is empty).  So a block whose closing fence
    has not arrived yet is shown as text. *)
Theorem no_code_block_without_two_fences (content : str) :
  count_char backtick content < 6 ->
  ContentParser content = Some (text_part _ TextSegment_ 0 content).
Proof.
  intros H. apply parts_of_run. apply splits_end. intros a b ->.
  destruct (codeBlockRegex b) as [[caps rest]|] eqn:E; [|reflexivity].
  apply codeBlockRegex_inv in E.
  destruct E as (lang & code & _ & _ & _ & ->). exfalso.
  rewrite !count_char_app in H.
  change (nl :: code ++ FENCE ++ rest) with ([nl] ++ code ++ FENCE ++ rest)
    in H.
  rewrite !count_char_app in H.
  change (count_char backtick FENCE) with 3 in H. lia.
Qed.

Lemma no_code_block_without_two_fences_witness :
  ContentParser (lit "see:" ++ nl :: lit "```ts" ++ nl :: lit "let a")
  = Some [TextSegment_ 0
            (lit "see:" ++ nl :: lit "```ts" ++ nl :: lit "let a")].
Proof.
  refine (eq_trans (no_code_block_without_two_fences _ _) _).
  - vm_compute. lia.
  - reflexivity.
Defined.

Lemma fence_free_contains (s : str) :
  fence_free s -> contains FENCE s = false.
Proof. unfold fence_free. apply contains_app_l. Qed.

Lemma or_default_word (lang : str) :
  forallb is_word lang = true ->
  or_default lang (lit "text") <> [] /\
  forallb is_word (or_default lang (lit "text")) = true.
Proof.
  intros H. destruct lang as [|c l]; cbn [or_default].
  - split; [discriminate | reflexivity].
  - split; [discriminate | exact H].
Qed.

Lemma splits_code_ok (i : nat) (s : str) (ps : list ContentPart) :
  splits _ codeBlockRegex TextSegment_ code_hit i s ps ->
  forall done, length done = i -> Forall (code_part_ok (done ++ s)) ps.
Proof.
  induction 1 as [i s Hn | i pre mm caps post ps Hb Hm Hr Hs IH];
    intros done Hd.
  - destruct s as [|c s]; cbn [text_part]; constructor; [|constructor].
    cbn [code_part_ok]. split; [discriminate|].
    rewrite <- Hd, skipn_length_app. apply startsWith_refl.
  - apply codeBlockRegex_inv in Hr.
    destruct Hr as (lang & code & -> & Hl & Hc & Hmm).
    specialize (IH (done ++ pre ++ mm)).
    rewrite <- !app_assoc in IH.
    apply Forall_app. split.
    + destruct pre as [|c pre]; cbn [text_part]; constructor; [|constructor].
      cbn [code_part_ok]. split; [discriminate|].
      rewrite <- Hd, skipn_length_app. apply startsWith_app.
    + constructor; [|apply IH; rewrite !length_app; lia].
      unfold code_hit. cbn [index groups nth code_part_ok].
      destruct (or_default_word lang Hl) as [H1 H2].
      split; [exact H1|]. split; [exact H2|].
      split; [now apply fence_free_contains|].
      rewrite <- Hd, <- length_app, app_assoc, skipn_length_app.
      rewrite Hmm. apply startsWith_app.
Qed.

(** X17: what the children are.  [ContentParser] ends on every text.
    Every text child is not empty and stands in the text at the index of
    its key; every code block has a language that is a non-empty word and
    a code that holds no fence, and its opening fence stands in the text
    at the index of its key; and the keys grow from child to child. *)
Theorem code_parts_wellformed (content : str) :
  exists parts,
    ContentParser content = Some parts /\
    Forall (code_part_ok content) parts /\
    StronglySorted lt (map content_part_key parts).
Proof.
  destruct (ContentParser_splits content) as (ps & E & Hps).
  exists ps. split; [exact E|]. split.
  - exact (splits_code_ok 0 content ps Hps [] eq_refl).
  - now destruct (splits_keys _ codeBlockRegex TextSegment_ code_hit
                    content_part_key (fun _ _ => eq_refl) (fun _ => eq_refl)
                    0 content ps Hps).
Qed.

(* ================================================================= *)
(** ** Markdown.tsx: splitting a line at its spans *)

Lemma split_re_eq (m : Matcher) (skip : nat) (s cur : str) :
  split_re m skip s cur
  = match s with
    | [] => [cur]
    | c :: s' =>
        match skip with
        | S skip' => split_re m skip' s' cur
        | O =>
            match m s with
            | Some (caps, rest) =>
                cur :: caps ++ split_re m (length s' - length rest) s' []
            | None => split_re m 0 s' (cur ++ [c])
            end
        end
    end.
Proof. destruct s; reflexivity. Qed.

Lemma split_re_skip (m : Matcher) (a s cur : str) :
  split_re m (length a) (a ++ s) cur = split_re m 0 s cur.
Proof. induction a as [|c a IH]; [reflexivity | exact IH]. Qed.

Lemma split_re_hit (m : Matcher) (mm post cur : str) :
  m (mm ++ post) = Some ([mm], post) -> mm <> [] ->
  split_re m 0 (mm ++ post) cur = cur :: mm :: split_re m 0 post [].
Proof.
  intros H Hm. destruct mm as [|c mm]; [congruence|].
  rewrite split_re_eq. cbn [app] in *. rewrite H. cbn [app].
  do 2 f_equal.
  replace (length (mm ++ post) - length post) with (length mm)
    by (rewrite length_app; lia).
  apply split_re_skip.
Qed.

Lemma split_re_pre (m : Matcher) (pre rest cur : str) :
  no_match_before m pre rest ->
  split_re m 0 (pre ++ rest) cur = split_re m 0 rest (cur ++ pre).
Proof.
  revert cur; induction pre as [|c pre IH]; intros cur H.
  - now rewrite app_nil_r.
  - cbn [app split_re].
    change (c :: pre ++ rest) with ((c :: pre) ++ rest).
    rewrite (H [] (c :: pre) eq_refl) by discriminate.
    rewrite IH; [now rewrite <- app_assoc|].
    intros a b -> Hb. now apply (H (c :: a) b).
Qed.

Lemma split_re_none (m : Matcher) (s cur : str) :
  no_match_before m s [] -> split_re m 0 s cur = [cur ++ s].
Proof.
  intros H. rewrite <- (app_nil_r s) at 1. now rewrite split_re_pre.
Qed.

(** Put together, the parts are the text. *)
Lemma split_re_concat (m : Matcher) :
  whole m ->
  forall s k cur, k <= length s ->
    concat (split_re m k s cur) = cur ++ skipn k s.
Proof.
  intros Hm. induction s as [|c s IH]; intros k cur Hk.
  - cbn [split_re concat]. destruct k; cbn [skipn]; now rewrite app_nil_r.
  - cbn [split_re]. destruct k as [|k].
    + destruct (m (c :: s)) as [[caps rest]|] eqn:E.
      * destruct (Hm _ _ _ E) as (mm & Hn & Hs & ->).
        destruct mm as [|x mm]; [congruence|].
        injection Hs as <- ->.
        cbn [concat app]. rewrite IH by (rewrite length_app; lia).
        replace (length (mm ++ rest) - length rest) with (length mm)
          by (rewrite length_app; lia).
        now rewrite skipn_length_app.
      * rewrite IH by lia. cbn [skipn]. now rewrite <- app_assoc.
    + cbn [length] in Hk. rewrite IH by lia. reflexivity.
Qed.

(* ================================================================= *)
(** ** The two span patterns *)

Section Span.
Variable c : ascii.
Variable d' : str.

(** The delimiter is [c :: d']. *)

Lemma span_of_eq (s : str) :
  span_of (c :: d') c s
  = match strip_prefix (c :: d') s with
    | Some s1 =>
        if 1 <=? length (takeWhile (other_than c) s1)
        then match strip_prefix (c :: d') (dropWhile (other_than c) s1) with
             | Some rest =>
                 Some ([firstn (length s - length rest) s], rest)
             | None => None
             end
        else None
    | None => None
    end.
Proof.
  unfold span_of, whole_match. cbn [run].
  destruct (strip_prefix (c :: d') s) as [s1|]; [|reflexivity].
  rewrite greedy_blocked.
  - cbn [app push_capture].
    destruct (1 <=? length (takeWhile (other_than c) s1)); [|reflexivity].
    now destruct (strip_prefix (c :: d') (dropWhile (other_than c) s1)).
  - intros a x r Hx.
    destruct (1 <=? length a); [|reflexivity].
    cbn [strip_prefix]. unfold other_than in Hx.
    rewrite Ascii.eqb_sym. apply negb_true_iff in Hx. now rewrite Hx.
Qed.

Lemma span_of_hit (w post : str) :
  w <> [] -> forallb (other_than c) w = true ->
  span_of (c :: d') c ((c :: d') ++ w ++ (c :: d') ++ post)
  = Some ([(c :: d') ++ w ++ (c :: d')], post).
Proof.
  intros Hw Ho. rewrite span_of_eq, strip_prefix_app.
  destruct (span_app (other_than c) w ((c :: d') ++ post)) as [E1 E2];
    [exact Ho | |].
  { unfold other_than. cbn [app]. now rewrite Ascii.eqb_refl. }
  rewrite E1, E2, strip_prefix_app.
  destruct w as [|x w]; [congruence|]. cbn [length Nat.leb].
  do 3 f_equal.
  replace ((c :: d') ++ (x :: w) ++ (c :: d') ++ post)
    with (((c :: d') ++ (x :: w) ++ (c :: d')) ++ post)
    by (now rewrite <- !app_assoc).
  rewrite length_app, Nat.add_sub. apply firstn_length_app.
Qed.

Lemma span_of_inv (s : str) (caps : list str) (rest : str) :
  span_of (c :: d') c s = Some (caps, rest) ->
  exists w,
    w <> [] /\ forallb (other_than c) w = true /\
    caps = [(c :: d') ++ w ++ (c :: d')] /\
    s = (c :: d') ++ w ++ (c :: d') ++ rest.
Proof.
  rewrite span_of_eq.
  destruct (strip_prefix (c :: d') s) as [s1|] eqn:E1; [|discriminate].
  apply strip_prefix_Some in E1.
  destruct (1 <=? length (takeWhile (other_than c) s1)) eqn:El;
    [|discriminate].
  destruct (strip_prefix (c :: d') (dropWhile (other_than c) s1))
    as [r|] eqn:E2; [|discriminate].
  apply strip_prefix_Some in E2. intros [= <- <-].
  exists (takeWhile (other_than c) s1).
  assert (Es : s = (c :: d') ++ takeWhile (other_than c) s1
                       ++ (c :: d') ++ r).
  { rewrite E1. f_equal.
    rewrite <- (takeWhile_dropWhile (other_than c) s1) at 1. now rewrite E2. }
  split; [|split; [apply takeWhile_all|split; [|exact Es]]].
  - intros H. rewrite H in El. discriminate El.
  - do 2 f_equal. rewrite Es at 2.
    replace ((c :: d') ++ takeWhile (other_than c) s1 ++ (c :: d') ++ r)
      with (((c :: d') ++ takeWhile (other_than c) s1 ++ (c :: d')) ++ r)
      by (now rewrite <- !app_assoc).
    rewrite Es.
    replace ((c :: d') ++ takeWhile (other_than c) s1 ++ (c :: d') ++ r)
      with (((c :: d') ++ takeWhile (other_than c) s1 ++ (c :: d')) ++ r)
      by (now rewrite <- !app_assoc).
    rewrite length_app, Nat.add_sub. apply firstn_length_app.
Qed.

Lemma span_of_none (s : str) :
  startsWith (c :: d') s = false -> span_of (c :: d') c s = None.
Proof.
  intros H. rewrite span_of_eq.
  now rewrite (proj1 (strip_prefix_startsWith _ _) H).
Qed.

Lemma span_of_whole : whole (span_of (c :: d') c).
Proof.
  intros s caps rest H. apply span_of_inv in H.
  destruct H as (w & _ & _ & -> & ->).
  exists ((c :: d') ++ w ++ (c :: d')). split; [discriminate|].
  split; [now rewrite <- !app_assoc | reflexivity].
Qed.

(** Text without the mark holds no span. *)
Lemma span_of_no_match_before (pre rest : str) :
  forallb (other_than c) pre = true ->
  no_match_before (span_of (c :: d') c) pre rest.
Proof.
  intros H a b -> Hb. apply span_of_none.
  rewrite forallb_app in H. apply andb_true_iff in H. destruct H as [_ H].
  destruct b as [|x b]; [congruence|].
  cbn [app startsWith forallb] in *.
  apply andb_true_iff in H. destruct H as [H _]. unfold other_than in H.
  apply negb_true_iff in H. now rewrite Ascii.eqb_sym, H.
Qed.
End Span.

(* ================================================================= *)
(** ** Markdown.tsx: parseInline *)

Lemma mapi_shift (A B : Type) (f : A -> nat -> B) (sh : B -> B) (n : nat) :
  (forall a i, f a (n + i) = sh (f a i)) ->
  forall l i, mapi A B f l (n + i) = map sh (mapi A B f l i).
Proof.
  intros H. induction l as [|a l IH]; intros i; [reflexivity|].
  cbn [mapi map]. rewrite H. f_equal.
  rewrite <- IH. f_equal. lia.
Qed.

Lemma endsWith_app (p a : str) : endsWith p (a ++ p) = true.
Proof. unfold endsWith. rewrite rev_app_distr. apply startsWith_app. Qed.

Lemma slice_span (d w : str) :
  slice (length d) (length d) (d ++ w ++ d) = w.
Proof.
  unfold slice. rewrite skipn_length_app, !length_app.
  replace (length d + (length w + length d) - length d - length d)
    with (length w) by lia.
  apply firstn_length_app.
Qed.

Lemma no_mark_no_start (c : ascii) (d' s : str) :
  forallb (fun x => negb (Ascii.eqb x c)) s = true ->
  startsWith (c :: d') s = false.
Proof.
  destruct s as [|x s]; [reflexivity|]. cbn [forallb startsWith].
  intros H. apply andb_true_iff in H. destruct H as [H _].
  apply negb_true_iff in H. now rewrite Ascii.eqb_sym, H.
Qed.

(** A text cut at its first span, for either pattern. *)
Lemma split_span (c : ascii) (d' pre w post : str) :
  forallb (fun x => negb (Ascii.eqb x c)) pre = true ->
  w <> [] -> forallb (fun x => negb (Ascii.eqb x c)) w = true ->
  split_re (span_of (c :: d') c) 0
    (pre ++ (c :: d') ++ w ++ (c :: d') ++ post) []
  = pre :: ((c :: d') ++ w ++ (c :: d'))
        :: split_re (span_of (c :: d') c) 0 post [].
Proof.
  intros Hpre Hw Ho.
  pose proof (span_of_hit c d' w post Hw Ho) as Hh.
  pose proof (span_of_no_match_before c d' pre
                ((c :: d') ++ w ++ (c :: d') ++ post) Hpre) as Hb.
  revert Hh Hb. generalize (c :: d'). intros d Hh Hb.
  rewrite split_re_pre by exact Hb. cbn [app].
  replace (d ++ w ++ d ++ post) with ((d ++ w ++ d) ++ post) in *
    by (now rewrite <- !app_assoc).
  apply split_re_hit; [exact Hh|].
  destruct d; [|discriminate]. destruct w; [congruence | discriminate].
Qed.

(** X18: a code span and what follows.  When the text before the first
    backtick of a line holds no backtick and the span between two
    backticks is not empty and holds none, [parseInline] gives the
    fragment of the text before, the code element with the span as it
    stands, stars included, and the nodes of the text after the span, their
    keys moved by two; a text without backtick is one fragment. *)
Theorem inline_code_then_rest (pre w post : str) :
  forallb not_backtick pre = true ->
  w <> [] -> forallb not_backtick w = true ->
  parseInline (pre ++ backtick :: w ++ backtick :: post)
  = Fragment_ 0 (bold_items pre) :: code_ 1 w
      :: map (shift_inline 2) (parseInline post) /\
  parseInline pre = [Fragment_ 0 (bold_items pre)].
Proof.
  intros Hpre Hw Ho.
  assert (Hs : startsWith [backtick] pre = false)
    by now apply no_mark_no_start.
  split.
  - unfold parseInline.
    change code_span with (span_of [backtick] backtick).
    change (pre ++ backtick :: w ++ backtick :: post)
      with (pre ++ [backtick] ++ w ++ [backtick] ++ post).
    rewrite split_span by assumption.
    cbn [mapi]. rewrite Hs. cbn [andb]. f_equal.
    rewrite (startsWith_app [backtick]), (app_assoc [backtick] w),
      endsWith_app.
    cbn [andb]. rewrite <- app_assoc.
    change (slice 1 1 ([backtick] ++ w ++ [backtick]))
      with (slice (length [backtick]) (length [backtick])
              ([backtick] ++ w ++ [backtick])).
    rewrite slice_span.
    f_equal. refine (mapi_shift _ _ _ (shift_inline 2) 2 _ _ 0).
    intros a i. cbn beta.
    now destruct (startsWith [backtick] a && endsWith [backtick] a).
  - unfold parseInline.
    change code_span with (span_of [backtick] backtick).
    rewrite split_re_none by now apply span_of_no_match_before.
    cbn [app mapi]. now rewrite Hs.
Qed.

Lemma inline_code_then_rest_witness :
  parseInline (lit "use `a**b**` or **c**")
  = [Fragment_ 0 [string_ (lit "use ")]; code_ 1 (lit "a**b**");
     Fragment_ 2 [string_ (lit " or "); strong_ 1 (lit "c"); string_ []]].
Proof.
  refine (eq_trans
            (proj1 (inline_code_then_rest (lit "use ") (lit "a**b**")
                      (lit " or **c**") _ _ _)) _).
  - reflexivity.
  - discriminate.
  - reflexivity.
  - reflexivity.
Defined.

(** X19: a bold span and what follows.  When the text before the first
    star of a part holds no star and the span between two pairs of stars
    is not empty and holds none, the children of the fragment are the text
    before, the strong element with the span, and the children of the text
    after the span, their keys moved by two; a text without star is one
    child, the text. *)
Theorem bold_then_rest (pre w post : str) :
  forallb not_star pre = true ->
  w <> [] -> forallb not_star w = true ->
  bold_items (pre ++ star :: star :: w ++ star :: star :: post)
  = string_ pre :: strong_ 1 w :: map (shift_bold 2) (bold_items post) /\
  bold_items pre = [string_ pre].
Proof.
  intros Hpre Hw Ho.
  assert (Hs : startsWith [star; star] pre = false)
    by now apply no_mark_no_start.
  split.
  - unfold bold_items.
    change bold_span with (span_of [star; star] star).
    change (pre ++ star :: star :: w ++ star :: star :: post)
      with (pre ++ [star; star] ++ w ++ [star; star] ++ post).
    rewrite split_span by assumption.
    cbn [mapi]. rewrite Hs. cbn [andb]. f_equal.
    rewrite (startsWith_app [star; star]), (app_assoc [star; star] w),
      endsWith_app.
    cbn [andb]. rewrite <- app_assoc.
    change (slice 2 2 ([star; star] ++ w ++ [star; star]))
      with (slice (length [star; star]) (length [star; star])
              ([star; star] ++ w ++ [star; star])).
    rewrite slice_span.
    f_equal. refine (mapi_shift _ _ _ (shift_bold 2) 2 _ _ 0).
    intros a i. cbn beta.
    now destruct (startsWith [star; star] a && endsWith [star; star] a).
  - unfold bold_items.
    change bold_span with (span_of [star; star] star).
    rewrite split_re_none by now apply span_of_no_match_before.
    cbn [app mapi]. now rewrite Hs.
Qed.

Lemma bold_then_rest_witness :
  bold_items (lit "a **b** c")
  = [string_ (lit "a "); strong_ 1 (lit "b"); string_ (lit " c")].
Proof.
  refine (eq_trans
            (proj1 (bold_then_rest (lit "a ") (lit "b") (lit " c") _ _ _)) _).
  - reflexivity.
  - discriminate.
  - reflexivity.
  - reflexivity.
Defined.

(* ================================================================= *)
(** ** Markdown.tsx: what parseInline drops *)

Lemma filter_skipn_nil (A : Type) (g : A -> bool) (k : nat) (l : list A) :
  filter g l = [] -> filter g (skipn k l) = [].
Proof.
  revert l; induction k as [|k IH]; intros [|a l] H; try exact H.
  cbn [skipn]. apply IH. cbn [filter] in H.
  destruct (g a); [discriminate H | exact H].
Qed.

Lemma startsWith_split (p s : str) :
  startsWith p s = true -> exists r, s = p ++ r.
Proof.
  intros H. destruct (strip_prefix p s) as [r|] eqn:E.
  - exists r. now apply strip_prefix_Some.
  - apply strip_prefix_startsWith in E. congruence.
Qed.

Lemma endsWith_split (p s : str) :
  endsWith p s = true -> exists r, s = r ++ p.
Proof.
  unfold endsWith. intros H. apply startsWith_split in H.
  destruct H as (t & Ht). exists (rev t).
  rewrite <- (rev_involutive s), Ht, rev_app_distr.
  now rewrite rev_involutive.
Qed.

(** Cutting the delimiter off both ends of a text that starts and ends
    with it takes away marks only, also when the two ends overlap. *)
Lemma slice_marks (d s : str) :
  filter unmarked d = [] ->
  startsWith d s = true -> endsWith d s = true ->
  filter unmarked (slice (length d) (length d) s) = filter unmarked s.
Proof.
  intros Hd Hs He.
  apply startsWith_split in Hs. destruct Hs as (s1 & Hs).
  apply endsWith_split in He. destruct He as (r & He).
  unfold slice.
  assert (E1 : skipn (length d) s = s1)
    by (rewrite Hs; apply skipn_length_app).
  rewrite E1.
  set (k := length s - length d - length d).
  assert (Hk : length r <= k + length d).
  { subst k. apply (f_equal (@length ascii)) in He.
    rewrite length_app in He. lia. }
  assert (Et : filter unmarked (skipn k s1) = []).
  { rewrite <- E1, skipn_skipn.
    replace s with (r ++ d) by (symmetry; exact He).
    rewrite skipn_app, skipn_all2 by exact Hk. cbn [app].
    now apply filter_skipn_nil. }
  replace s with (d ++ firstn k s1 ++ skipn k s1)
    by (rewrite firstn_skipn; symmetry; exact Hs).
  rewrite !filter_app, Hd, Et. cbn [app]. now rewrite app_nil_r.
Qed.

Lemma filter_concat_mapi (B : Type) (g : ascii -> bool)
  (f : str -> nat -> B) (txt : B -> str) :
  (forall x i, filter g (txt (f x i)) = filter g x) ->
  forall l i,
    filter g (concat (map txt (mapi str B f l i))) = filter g (concat l).
Proof.
  intros H. induction l as [|x l IH]; intros i; [reflexivity|].
  cbn [mapi map concat]. now rewrite !filter_app, H, IH.
Qed.

Lemma bold_items_text (part : str) :
  filter unmarked (concat (map bold_item_text (bold_items part)))
  = filter unmarked part.
Proof.
  unfold bold_items. rewrite filter_concat_mapi.
  - rewrite (split_re_concat bold_span (span_of_whole star [star]))
      by apply Nat.le_0_l.
    reflexivity.
  - intros x i. cbn beta.
    destruct (startsWith [star; star] x) eqn:S; [|reflexivity].
    destruct (endsWith [star; star] x) eqn:E; [|reflexivity].
    cbn [andb bold_item_text].
    now apply (slice_marks [star; star] x).
Qed.

(** X20: [parseInline] drops marks only.  Whatever the text, the
    characters shown, in order, are those of the text when the backticks
    and the stars are left out of both: no other character is lost, added
    or moved. *)
Theorem only_marks_are_dropped (text : str) :
  filter unmarked (shown (parseInline text)) = filter unmarked text.
Proof.
  unfold shown, parseInline. rewrite filter_concat_mapi.
  - rewrite (split_re_concat code_span (span_of_whole backtick []))
      by apply Nat.le_0_l.
    reflexivity.
  - intros x i. cbn beta.
    destruct (startsWith [backtick] x) eqn:S;
      [|cbn [andb inline_text]; apply bold_items_text].
    destruct (endsWith [backtick] x) eqn:E;
      [|cbn [andb inline_text]; apply bold_items_text].
    cbn [andb inline_text].
    now apply (slice_marks [backtick] x).
Qed.

(* ================================================================= *)
(** ** The project panel: the file that is opened first *)

Lemma contains_nonempty (p s : str) :
  p <> [] -> contains p s = true -> s <> [].
Proof.
  intros Hp H ->. destruct p; [congruence | discriminate H].
Qed.

(** X21: the file the panel opens first.  For a store that is not empty
    the effect sets a path, and that path is the path of a file of the
    store, so the editor finds its file; it is the first file whose path
    holds readme in any case of letters, if there is one; otherwise the
    first whose path holds index or app, if there is one; otherwise the
    first file. *)
Theorem first_opened_file (files : list ProjectFile) :
  files <> [] ->
  exists f,
    initial_active_path files = Some (path f) /\ In f files /\
    lookup (path f) files <> None /\
    match find is_readme files, find is_index files with
    | Some r, _ => f = r
    | None, Some i => f = i
    | None, None => Some f = hd_error files
    end.
Proof.
  intros Hn. destruct files as [|f0 l]; [congruence|].
  assert (Hl : forall f, In f (f0 :: l) -> lookup (path f) (f0 :: l) <> None).
  { intros f Hf E. apply find_path_None in E. apply E. now apply in_map. }
  unfold initial_active_path.
  destruct (find is_readme (f0 :: l)) as [r|] eqn:Er.
  - apply find_some in Er. destruct Er as [Hr Pr].
    exists r. cbn [path_or_undefined].
    assert (Hp : path r <> []).
    { intros E. unfold is_readme in Pr. rewrite E in Pr. discriminate Pr. }
    destruct (path r) eqn:Ep; [congruence|]. cbn [or_default].
    rewrite <- Ep. split; [reflexivity|]. split; [exact Hr|].
    split; [now apply Hl | reflexivity].
  - cbn [path_or_undefined or_default].
    destruct (find is_index (f0 :: l)) as [i|] eqn:Ei.
    + apply find_some in Ei. destruct Ei as [Hi Pi].
      exists i. cbn [path_or_undefined].
      assert (Hp : path i <> []).
      { intros E. unfold is_index in Pi. rewrite E in Pi. discriminate Pi. }
      destruct (path i) eqn:Ep; [congruence|]. cbn [or_default].
      rewrite <- Ep. split; [reflexivity|]. split; [exact Hi|].
      split; [now apply Hl | reflexivity].
    + exists f0. cbn [path_or_undefined or_default].
      split; [reflexivity|]. split; [now left|].
      split; [apply Hl; now left | reflexivity].
Qed.

Lemma first_opened_file_witness :
  initial_active_path
    [mkfile "src/main.ts" ""; mkfile "src/App.tsx" ""; mkfile "ReadMe.md" ""]
  = Some (lit "ReadMe.md").
Proof.
  destruct (first_opened_file
              [mkfile "src/main.ts" ""; mkfile "src/App.tsx" "";
               mkfile "ReadMe.md" ""])
    as (f & E & _ & _ & Hf); [discriminate|].
  rewrite E. vm_compute in Hf. now subst f.
Defined.

(* ================================================================= *)
(** ** fileParser.ts: a buffer that grows *)

Lemma space_not_quote (c : ascii) : is_space c = true -> is_quote c = false.
Proof.
  intros H. unfold is_quote.
  destruct (Ascii.eqb_spec c dq) as [->|_]; [discriminate H|].
  destruct (Ascii.eqb_spec c sq) as [->|_]; [discriminate H|].
  reflexivity.
Qed.

Lemma no_quote_in_spaces (ws : str) :
  forallb is_space ws = true -> forallb not_quote ws = true.
Proof.
  induction ws as [|c ws IH]; [reflexivity|]. cbn [forallb].
  intros H. apply andb_true_iff in H. destruct H as [H1 H2].
  unfold not_quote at 1. rewrite (space_not_quote c H1). now apply IH.
Qed.

Lemma filter_quote_nil (s : str) :
  forallb not_quote s = true -> filter is_quote s = [].
Proof.
  induction s as [|c s IH]; [reflexivity|]. cbn [forallb filter].
  intros H. apply andb_true_iff in H. destruct H as [H1 H2].
  unfold not_quote in H1. apply negb_true_iff in H1. rewrite H1. now apply IH.
Qed.

Lemma filter_quote_nil_inv (s : str) :
  filter is_quote s = [] -> forallb not_quote s = true.
Proof.
  induction s as [|c s IH]; [reflexivity|]. cbn [forallb filter].
  unfold not_quote at 1. destruct (is_quote c); [discriminate|].
  intros H. now apply IH.
Qed.

(** An opening tag holds two quote characters. *)
Lemma open_tag_quotes ws1 q1 p q2 ws2 :
  tag_ok ws1 q1 p q2 ws2 ->
  length (filter is_quote (open_tag ws1 q1 p q2 ws2)) = 2.
Proof.
  intros [H1 H2 H3 H4 H5 H6 H7]. unfold open_tag.
  change (q1 :: p ++ q2 :: ws2 ++ GT) with ([q1] ++ p ++ [q2] ++ ws2 ++ GT).
  rewrite !filter_app. cbn [filter]. rewrite H3, H6.
  rewrite (filter_quote_nil ws1) by now apply no_quote_in_spaces.
  rewrite (filter_quote_nil ws2) by now apply no_quote_in_spaces.
  rewrite (filter_quote_nil p) by exact H5.
  reflexivity.
Qed.

(** Up to its first quote character an opening tag reads [<file], white
    space, [path=]. *)
Lemma open_tag_head ws1 q1 p q2 ws2 (rest : str) :
  tag_ok ws1 q1 p q2 ws2 ->
  takeWhile not_quote (open_tag ws1 q1 p q2 ws2 ++ rest)
  = OPEN_FILE ++ ws1 ++ PATH_EQ.
Proof.
  intros [H1 H2 H3 H4 H5 H6 H7]. unfold open_tag.
  replace ((OPEN_FILE ++ ws1 ++ PATH_EQ ++ q1 :: p ++ q2 :: ws2 ++ GT)
           ++ rest)
    with ((OPEN_FILE ++ ws1 ++ PATH_EQ)
          ++ q1 :: p ++ q2 :: ws2 ++ GT ++ rest)
    by (repeat (rewrite <- app_assoc; cbn [app]); reflexivity).
  apply span_app.
  - rewrite !forallb_app. rewrite (no_quote_in_spaces ws1 H2). reflexivity.
  - unfold not_quote. now rewrite H3.
Qed.

(** No opening tag begins inside another one. *)
Lemma tag_nesting ws1 q1 p q2 ws2 ws1' q1' p' q2' ws2' (b B : str) :
  tag_ok ws1 q1 p q2 ws2 -> tag_ok ws1' q1' p' q2' ws2' ->
  open_tag ws1 q1 p q2 ws2 = b ++ open_tag ws1' q1' p' q2' ws2' ++ B ->
  b = [].
Proof.
  intros Hq Hp E.
  assert (Hb : forallb not_quote b = true).
  { apply filter_quote_nil_inv.
    pose proof (open_tag_quotes _ _ _ _ _ Hq) as Cq.
    pose proof (open_tag_quotes _ _ _ _ _ Hp) as Cp.
    rewrite E, !filter_app, !length_app, Cp in Cq.
    destruct (filter is_quote b); [reflexivity | cbn [length] in Cq; lia]. }
  assert (Eh : OPEN_FILE ++ ws1 ++ PATH_EQ
               = b ++ OPEN_FILE ++ ws1' ++ PATH_EQ).
  { rewrite <- (open_tag_head _ _ _ _ _ [] Hq), app_nil_r, E.
    rewrite <- (open_tag_head _ _ _ _ _ B Hp).
    generalize (open_tag ws1' q1' p' q2' ws2' ++ B). intros s.
    clear - Hb. induction b as [|c b IH]; [reflexivity|].
    cbn [forallb] in Hb. apply andb_true_iff in Hb. destruct Hb as [H1 H2].
    cbn [app takeWhile]. rewrite H1. f_equal. now apply IH. }
  destruct b as [|c b]; [reflexivity|]. exfalso.
  rewrite !app_assoc in Eh. apply app_inv_tail in Eh.
  rewrite <- !app_assoc in Eh.
  apply (f_equal (skipn 1)) in Eh.
  change (skipn 1 (OPEN_FILE ++ ws1)) with (lit "file" ++ ws1) in Eh.
  change (skipn 1 ((c :: b) ++ OPEN_FILE ++ ws1'))
    with (b ++ OPEN_FILE ++ ws1') in Eh.
  assert (Hin : In "<"%char (lit "file" ++ ws1)).
  { rewrite Eh. apply in_or_app. right. apply in_or_app. left. now left. }
  apply in_app_or in Hin. destruct Hin as [Hin|Hin].
  - cbn [lit list_ascii_of_string In] in Hin.
    repeat (destruct Hin as [Hin|Hin]; [discriminate Hin|]). exact Hin.
  - destruct Hq as [_ Hs _ _ _ _ _]. rewrite forallb_forall in Hs.
    apply Hs in Hin. discriminate Hin.
Qed.

Lemma fileMatcher_consuming : consuming fileMatcher.
Proof.
  intros s caps rest H. apply run_sound in H.
  destruct H as (ws1 & q1 & p & q2 & ws2 & body & _ & _ & _ & ->).
  exists (open_tag ws1 q1 p q2 ws2 ++ body ++ CLOSE_FILE).
  split; [discriminate | now rewrite <- !app_assoc].
Qed.

(** A match stays what it is when text is added after it. *)
Lemma fileMatcher_extend (mm post d : str) (caps : list str) :
  fileMatcher (mm ++ post) = Some (caps, post) ->
  fileMatcher (mm ++ post ++ d) = Some (caps, post ++ d).
Proof.
  intros H. apply run_sound in H.
  destruct H as (ws1 & q1 & p & q2 & ws2 & body & Ht & Hb & -> & E).
  replace (open_tag ws1 q1 p q2 ws2 ++ body ++ CLOSE_FILE ++ post)
    with ((open_tag ws1 q1 p q2 ws2 ++ body ++ CLOSE_FILE) ++ post) in E
    by (now rewrite <- !app_assoc).
  apply app_inv_tail in E. subst mm. rewrite <- !app_assoc.
  now apply run_decl.
Qed.

(** Text added after a match makes no match begin before it. *)
Lemma no_earlier_match (pre mm post d : str) (caps : list str) :
  no_match_before fileMatcher pre (mm ++ post) ->
  fileMatcher (mm ++ post) = Some (caps, post) ->
  no_match_before fileMatcher pre (mm ++ post ++ d).
Proof.
  intros Hn Hm a b Hab Hb.
  pose proof (Hn a b Hab Hb) as H0.
  destruct (fileMatcher (b ++ mm ++ post ++ d)) as [[caps' rest']|] eqn:E;
    [exfalso | reflexivity].
  apply run_sound in Hm.
  destruct Hm as (ws1 & q1 & p & q2 & ws2 & body & Ht & Hc & _ & Em).
  apply run_sound in E.
  destruct E as (ws1' & q1' & p' & q2' & ws2' & body' & Ht' & Hc' & _ & E).
  set (tagp := open_tag ws1 q1 p q2 ws2) in *.
  set (tagq := open_tag ws1' q1' p' q2' ws2') in *.
  assert (E0 : b ++ mm ++ post
               = (b ++ tagp ++ body) ++ CLOSE_FILE ++ post)
    by (rewrite Em; now rewrite <- !app_assoc).
  assert (E1 : (b ++ tagp ++ body) ++ CLOSE_FILE ++ post ++ d
               = tagq ++ body' ++ CLOSE_FILE ++ rest').
  { rewrite <- E. rewrite (app_assoc mm post d), Em.
    now rewrite <- !app_assoc. }
  assert (Hit : forall l3,
             b ++ tagp ++ body = tagq ++ body' ++ l3 ->
             l3 = [] \/ startsWith CLOSE_FILE l3 = true -> False).
  { intros l3 EU Hl3.
    assert (Er : exists r, b ++ mm ++ post
                           = tagq ++ body' ++ CLOSE_FILE ++ r).
    { rewrite E0, EU. destruct Hl3 as [->|Hl3].
      - exists post. now rewrite <- !app_assoc.
      - apply startsWith_split in Hl3. destruct Hl3 as (l4 & ->).
        exists (l4 ++ CLOSE_FILE ++ post). now rewrite <- !app_assoc. }
    destruct Er as (r & Er). unfold fileMatcher in H0. rewrite Er in H0.
    unfold tagq in H0. rewrite run_decl in H0 by assumption.
    discriminate H0. }
  apply app_eq_app in E1. destruct E1 as (l & [[EU ER]|[EU ER]]).
  - apply app_eq_app in ER. destruct ER as (l2 & [[EB EC]|[EB EC]]).
    + (* the body of the earlier match would hold the closing tag *)
      assert (S : startsWith CLOSE_FILE (l2 ++ CLOSE_FILE ++ rest') = true)
        by (rewrite <- EC; apply startsWith_app).
      apply close_no_border in S. destruct S as [->|S].
      * rewrite app_nil_r in EB. subst l.
        apply (Hit []); [now rewrite app_nil_r | now left].
      * rewrite EB in Hc'. apply contains_suffix in Hc'. congruence.
    + assert (S : startsWith CLOSE_FILE (l2 ++ CLOSE_FILE ++ post ++ d)
                  = true)
        by (rewrite <- EC; apply startsWith_app).
      apply close_no_border in S.
      apply (Hit l2); [now rewrite EU, EB | exact S].
  - (* the tag of the later match would lie inside the earlier tag *)
    assert (Eb : b = []).
    { apply (tag_nesting ws1' q1' p' q2' ws2' ws1 q1 p q2 ws2 b (body ++ l));
        [assumption | assumption |].
      fold tagp tagq. rewrite EU. now rewrite <- !app_assoc. }
    congruence.
Qed.

Lemma scan_before (pre rest : str) :
  no_match_before fileMatcher pre rest ->
  scan 0 (pre ++ rest) = scan 0 rest.
Proof.
  induction pre as [|c pre IH]; intros H; [reflexivity|].
  cbn [app scan].
  change (c :: pre ++ rest) with ((c :: pre) ++ rest).
  pose proof (H [] (c :: pre) eq_refl) as H0. unfold fileMatcher in H0.
  rewrite H0 by discriminate. apply IH.
  intros a b -> Hb. now apply (H (c :: a) b).
Qed.

Lemma scan_grows (n : nat) :
  forall t d, length t <= n ->
    exists more, scan 0 (t ++ d) = scan 0 t ++ more.
Proof.
  induction n as [n IH] using lt_wf_ind. intros t d Hn.
  pose proof (search_with_inv fileMatcher fileMatcher_consuming t 0) as H.
  destruct (search_with fileMatcher t 0) as [mt|].
  - destruct H as (pre & mm & post & -> & Hb & Hm & Hr & _ & _).
    destruct (IH (length post)) with (t := post) (d := d) as (more & E);
      [|reflexivity|].
    { rewrite !length_app in Hn.
      assert (0 < length mm) by (destruct mm; [congruence|cbn; lia]). lia. }
    exists more.
    rewrite <- !app_assoc.
    rewrite (scan_before pre (mm ++ post ++ d))
      by (eapply no_earlier_match; eassumption).
    rewrite (scan_before pre (mm ++ post) Hb).
    rewrite (scan_hit mm (post ++ d) (groups mt) Hm)
      by now apply fileMatcher_extend.
    rewrite (scan_hit mm post (groups mt) Hm) by exact Hr.
    cbn [app]. now rewrite E.
  - exists (scan 0 (t ++ d)).
    assert (Ht : scan 0 t = []).
    { rewrite <- (app_nil_r t). rewrite scan_before; [reflexivity|].
      intros a b Hab _. rewrite app_nil_r. now apply (H a b). }
    now rewrite Ht.
Qed.

(** X22: records are never taken back.  Whatever text is added to a
    buffer, the records parsed from the longer buffer are those parsed
    from the buffer, in the same order and unchanged, followed by new
    ones: no later chunk of a stream removes, changes or reorders a file
    that an earlier text has given. *)
Theorem records_are_never_taken_back (t d : str) :
  exists fs more,
    parseFilesFromResponse t = Some fs /\
    parseFilesFromResponse (t ++ d) = Some (fs ++ more).
Proof.
  destruct (scan_grows (length t) t d (le_n _)) as (more & E).
  exists (scan 0 t), more. rewrite !parse_scan. now rewrite E.
Qed.

(* ================================================================= *)
(** ** The store at the end of a turn *)








(* ================================================================= *)
(** ** The files of a turn in the graph *)






(* ========================================================================= *)
(** ** The project tree: what a file leaf stands for *)

(** A file node that the loop of one artifact leaves in a level was there
    before or has the path made of the parts of that artifact. *)
Lemma insert_parts_new_files (ps : list str) (cp c : str)
  (level : list FileNode) (q : str) :
  In q (file_paths (insert_parts ps cp c level)) ->
  In q (file_paths level) \/ (ps <> [] /\ q = full_path cp ps).
Proof.
  revert cp level; induction ps as [|part rest IH]; intros cp level H;
    [now left|].
  rewrite insert_parts_cons in H. cbn [full_path].
  assert (Hne : part :: rest <> []) by discriminate.
  assert (Hrest : forall lv,
            In q (file_paths (insert_parts rest (child_path cp part) c lv)) ->
            In q (file_paths lv) \/
            q = full_path (child_path cp part) rest).
  { intros lv Hq. destruct (IH _ _ Hq) as [Hl|[_ Hr]]; auto. }
  destruct (find (fun n => str_eqb (name n) part) level) as [e|] eqn:F.
  - destruct rest as [|r0 rest]; [now left|].
    destruct (children e) as [ch|] eqn:C.
    + destruct (find_name_split _ _ _ F) as (l1 & l2 & E & Hn & Hu).
      rewrite Hu in H. rewrite E.
      rewrite file_paths_app in *. cbn [file_paths flat_map] in *.
      rewrite !in_app_iff in *.
      destruct H as [H|[H|H]]; auto.
      rewrite node_file_paths_eq in *.
      destruct e as [nm p t ch0 c0]. cbn [children] in C. subst ch0.
      cbn [set_children node_type node_path children] in *.
      rewrite in_app_iff in *.
      destruct H as [H|H]; [now left; right; left; left|].
      destruct (Hrest _ H) as [Hl|Hr]; [|now right].
      left. right. left. now right.
    + destruct (Hrest _ H) as [Hl|Hr]; [now left | now right].
  - destruct rest as [|r0 rest].
    + rewrite file_paths_app, in_app_iff in H. destruct H as [H|H];
        [now left|].
      cbn in H. destruct H as [<-|[]]. now right.
    + rewrite file_paths_app, in_app_iff in H. destruct H as [H|H];
        [now left|].
      cbn [file_paths flat_map] in H. rewrite app_nil_r in H.
      rewrite node_file_paths_eq in H.
      cbn [node_type node_path children app] in H.
      destruct (Hrest _ H) as [[]|Hr]. now right.
Qed.

Lemma build_new_files (fs : list ProjectFile) (tree : list FileNode)
  (q : str) :
  In q (file_paths
          (fold_left
             (fun root f =>
                insert_parts (path_parts (path f)) [] (content f) root)
             fs tree)) ->
  In q (file_paths tree) \/
  exists f, In f fs /\ path_parts (path f) <> [] /\
            q = full_path [] (path_parts (path f)).
Proof.
  revert tree; induction fs as [|f fs IH]; intros tree H; [now left|].
  cbn [fold_left] in H. destruct (IH _ H) as [Ht|(g & Hg & Hq)].
  - destruct (insert_parts_new_files _ _ _ _ _ Ht) as [Hl|[Hne Hr]];
      [now left|].
    right. exists f. split; [now left | now split].
  - right. exists g. split; [now right | exact Hq].
Qed.

(** X25: every file leaf of the project tree stands for an artifact of the
    store, whatever the store: its path is the path of that artifact with
    the empty segments dropped, so it is the very path of the artifact when
    that one has no empty segment; selecting the leaf then finds the
    artifact in the store. *)
Theorem tree_leaf_is_store_file (localeCompare : str -> str -> Z)
  (fs : list ProjectFile) (q : str) :
  In q (file_paths (buildFileTree localeCompare fs)) ->
  exists f,
    In f fs /\ path_parts (path f) <> [] /\
    q = full_path [] (path_parts (path f)) /\
    (path_parts (path f) = split "/"%char (path f) ->
     q = path f /\
     exists g, find (fun x => str_eqb (path x) q) fs = Some g /\
               path g = q).
Proof.
  unfold buildFileTree. intros H. apply sortNodes_file_paths in H.
  destruct (build_new_files _ _ _ H) as [[]|(f & Hf & Hne & Hq)].
  exists f. split; [exact Hf|]. split; [exact Hne|]. split; [exact Hq|].
  intros E. rewrite (full_path_parts _ E) in Hq. split; [exact Hq|].
  destruct (find (fun x => str_eqb (path x) q) fs) as [g|] eqn:F.
  - exists g. split; [reflexivity|].
    apply find_some in F. now apply str_eqb_eq.
  - exfalso. apply (find_none _ _ F) in Hf. subst q.
    now rewrite str_eqb_refl in Hf.
Qed.

Lemma tree_leaf_is_store_file_witness :
  In (lit "src/a.ts")
     (file_paths (buildFileTree code_unit_compare (mktree sample_paths))) /\
  exists f,
    In f (mktree sample_paths) /\ path_parts (path f) <> [] /\
    lit "src/a.ts" = full_path [] (path_parts (path f)) /\
    (path_parts (path f) = split "/"%char (path f) ->
     lit "src/a.ts" = path f /\
     exists g,
       find (fun x => str_eqb (path x) (lit "src/a.ts"))
            (mktree sample_paths) = Some g /\
       path g = lit "src/a.ts").
Proof.
  assert (H : In (lit "src/a.ts")
                (file_paths (buildFileTree code_unit_compare
                               (mktree sample_paths)))).
  { vm_compute. repeat (first [left; reflexivity | right]). }
  split; [exact H|].
  exact (tree_leaf_is_store_file code_unit_compare (mktree sample_paths)
           (lit "src/a.ts") H).
Defined.
